(** * Frame Notes: a shallow embedding of the note model, the editor's block
    engine, the drawing canvas and the list view, with the properties the
    specification states about them.

    Part I translates the TypeScript sources (types.ts, App.tsx,
    components/Home.tsx, components/Editor.tsx, components/DrawingCanvas.tsx)
    into Rocq definitions.  React state is made explicit: each component is a
    record of its [useState] and [useRef] cells and each handler is a function
    from the state before the event to the state after it.  Events are
    handled one at a time, each on the state that the one before it left:
    the component has re-rendered in between, so a handler's closure and the
    [prev] of its functional updates are the same state.  Part II defines
    the words in which the properties are stated, and the sample data; Part
    III states and proves the properties. *)

From Stdlib Require Import List ZArith NArith Bool String Ascii Lia.
From Stdlib Require Import PeanoNat Permutation Sorted.
From Stdlib Require Import Floats.SpecFloat.
Import ListNotations.

Set Implicit Arguments.

(* ================================================================== *)
(** * Part I: the program *)
(* ================================================================== *)

(** ** The JavaScript primitives the sources rely on *)

Module JS.

(** A JavaScript string is a sequence of UTF-16 code units. *)
Definition jsstring : Type := list N.

(** A string literal of the source, as code units. *)
Definition str (s : string) : jsstring :=
  map N_of_ascii (list_ascii_of_string s).

(** [a === b] on strings. *)
Fixpoint streq (a b : jsstring) : bool :=
  match a, b with
  | [], [] => true
  | x :: a', y :: b' => N.eqb x y && streq a' b'
  | _, _ => false
  end.

(** Truthiness: the empty string and the number 0 are falsy, objects and
    arrays are truthy. *)
Definition truthy_string (s : jsstring) : bool :=
  match s with [] => false | _ :: _ => true end.

Definition truthy_number (z : Z) : bool := negb (z =? 0)%Z.

(** [a || b] on strings and on numbers. *)
Definition or_string (a b : jsstring) : jsstring :=
  if truthy_string a then a else b.

Definition or_number (a b : Z) : Z :=
  if truthy_number a then a else b.

(** [arr.splice(start, deleteCount, ...items)] for a non-negative [start]:
    the array after the call.  A [start] past the end is clamped to the
    length, and so is a [deleteCount] that reaches past the end. *)
Definition splice (A : Type) (start deleteCount : nat) (items arr : list A)
  : list A :=
  firstn start arr ++ items ++ skipn (start + deleteCount) arr.

(** [arr.findIndex(p)]; [None] stands for -1. *)
Fixpoint findIndex (A : Type) (p : A -> bool) (arr : list A) : option nat :=
  match arr with
  | [] => None
  | x :: rest =>
      if p x then Some 0 else option_map S (findIndex p rest)
  end.

(** [s.startsWith(q)] and [s.includes(q)]: [q] occurs in [s] as a
    contiguous run of code units. *)
Fixpoint startsWith (s q : jsstring) {struct q} : bool :=
  match q, s with
  | [], _ => true
  | c :: q', d :: s' => N.eqb c d && startsWith s' q'
  | _ :: _, [] => false
  end.

Fixpoint includes (s q : jsstring) : bool :=
  startsWith s q ||
  match s with
  | [] => false
  | _ :: s' => includes s' q
  end.

(** The code units [String.prototype.trim] strips: ECMAScript's WhiteSpace
    (TAB, VT, FF, ZWNBSP and the space separators) and LineTerminator
    (LF, CR, LS, PS).  All of them lie in the basic plane. *)
Definition isWhiteSpace (c : N) : bool :=
  existsb (N.eqb c)
    [9; 10; 11; 12; 13; 32; 160; 5760; 8232; 8233; 8239; 8287; 12288; 65279]%N
  || ((8192 <=? c) && (c <=? 8202))%N.

Fixpoint trimStart (s : jsstring) : jsstring :=
  match s with
  | c :: s' => if isWhiteSpace c then trimStart s' else s
  | [] => []
  end.

Definition trimEnd (s : jsstring) : jsstring := rev (trimStart (rev s)).

Definition trim (s : jsstring) : jsstring := trimEnd (trimStart s).

(** [arr.sort(compareFn)].  Since ECMAScript 2019 the sort is stable, so for
    a consistent comparator the result is fixed whatever algorithm the
    engine runs; it is computed here by insertion from the right, which
    puts an element in front of the first one it does not have to follow. *)
Fixpoint sort_insert (A : Type) (compareFn : A -> A -> Z) (a : A)
  (sorted : list A) : list A :=
  match sorted with
  | [] => [a]
  | b :: rest =>
      if (compareFn a b <=? 0)%Z then a :: sorted
      else b :: sort_insert compareFn a rest
  end.

Definition sort (A : Type) (compareFn : A -> A -> Z) (arr : list A)
  : list A :=
  fold_right (sort_insert compareFn) [] arr.

(** [arr[i] = x] for an index inside the array. *)
Definition assign (A : Type) (i : nat) (x : A) (arr : list A) : list A :=
  firstn i arr ++ x :: skipn (S i) arr.

End JS.

Import JS.

(** ** types.ts *)

Inductive Theme : Type := dark | pink | royal.

Inductive BlockType : Type := text | image | video.

Definition BlockType_eqb (a b : BlockType) : bool :=
  match a, b with
  | text, text | image, image | video, video => true
  | _, _ => false
  end.

Definition Theme_eqb (a b : Theme) : bool :=
  match a, b with
  | dark, dark | pink, pink | royal, royal => true
  | _, _ => false
  end.

(** Numbers.  The timestamps come from [Date.now()] and the stroke width is
    the brush size, so both are integers (which a double holds exactly up to
    2^53) and are kept as [Z].  Pointer coordinates and pixel sizes are
    arbitrary IEEE 754 doubles and are kept as [spec_float], which has the
    infinities, NaN and both zeros. *)

Module Point.
Record t : Type := mk { x : spec_float; y : spec_float }.
End Point.
Abbreviation Point := Point.t.

Module DrawingPath.
Record t : Type := mk {
  points : list Point;
  color : jsstring;
  width : Z
}.
End DrawingPath.
Abbreviation DrawingPath := DrawingPath.t.

Module Block.
Record t : Type := mk {
  id : jsstring;
  type : BlockType;
  content : jsstring;
  width : option spec_float;
  height : option spec_float;
  drawings : option (list DrawingPath)
}.

(** [{ ...b, content }] and [{ ...b, drawings }]. *)
Definition with_content (b : t) (c : jsstring) : t :=
  mk (id b) (type b) c (width b) (height b) (drawings b).

Definition with_drawings (b : t) (d : list DrawingPath) : t :=
  mk (id b) (type b) (content b) (width b) (height b) (Some d).
End Block.
Abbreviation Block := Block.t.

Module Note.
Record t : Type := mk {
  id : jsstring;
  title : jsstring;
  createdAt : Z;
  updatedAt : Z;
  blocks : list Block;
  isPinned : bool;
  isHidden : option bool;
  theme : option Theme
}.
End Note.
Abbreviation Note := Note.t.

(** ** The persisted JSON document

    [JSON.stringify] and [JSON.parse] are the engine's.  The document is kept
    as its syntax tree: what [stringify] writes for each value of the note
    model, and what the parsed tree gives back when it is read at the type
    [Note[]].  A numeric literal is [JInt] where the field holds an integer
    and [JDouble] where it holds a double. *)

Module JSON.

Local Open Scope string_scope.
Local Open Scope list_scope.

(* The tree nests through [list]; no induction scheme over it is needed. *)
Local Unset Elimination Schemes.
Inductive value : Type :=
| JNull
| JBool (b : bool)
| JInt (z : Z)
| JDouble (f : spec_float)
| JString (s : jsstring)
| JArray (items : list value)
| JObject (members : list (string * value)).
Local Set Elimination Schemes.

(** *** [JSON.stringify] *)

(** A number that is not finite is written as [null], and -0 as [0]. *)
Definition ofDouble (f : spec_float) : value :=
  match f with
  | S754_zero _ => JDouble (S754_zero false)
  | S754_finite _ _ _ => JDouble f
  | S754_infinity _ | S754_nan => JNull
  end.

(** A property whose value is [undefined] is left out. *)
Definition optional (key : string) (v : option value)
  : list (string * value) :=
  match v with
  | Some j => [(key, j)]
  | None => []
  end.

Definition ofBlockType (t : BlockType) : value :=
  JString (str match t with
               | text => "text" | image => "image" | video => "video"
               end).

Definition ofTheme (t : Theme) : value :=
  JString (str match t with
               | dark => "dark" | pink => "pink" | royal => "royal"
               end).

Definition ofPoint (p : Point) : value :=
  JObject [("x", ofDouble (Point.x p)); ("y", ofDouble (Point.y p))].

Definition ofDrawingPath (d : DrawingPath) : value :=
  JObject [("points", JArray (map ofPoint (DrawingPath.points d)));
           ("color", JString (DrawingPath.color d));
           ("width", JInt (DrawingPath.width d))].

Definition ofBlock (b : Block) : value :=
  JObject
    ([("id", JString (Block.id b));
      ("type", ofBlockType (Block.type b));
      ("content", JString (Block.content b))]
     ++ optional "width" (option_map ofDouble (Block.width b))
     ++ optional "height" (option_map ofDouble (Block.height b))
     ++ optional "drawings"
          (option_map (fun ds => JArray (map ofDrawingPath ds))
             (Block.drawings b))).

Definition ofNote (n : Note) : value :=
  JObject
    ([("id", JString (Note.id n));
      ("title", JString (Note.title n));
      ("createdAt", JInt (Note.createdAt n));
      ("updatedAt", JInt (Note.updatedAt n));
      ("blocks", JArray (map ofBlock (Note.blocks n)));
      ("isPinned", JBool (Note.isPinned n))]
     ++ optional "isHidden" (option_map JBool (Note.isHidden n))
     ++ optional "theme" (option_map ofTheme (Note.theme n))).

Definition stringify (notes : list Note) : value :=
  JArray (map ofNote notes).

(** *** Reading the parsed value at the type [Note[]]

    [None] says that the value does not have the shape of the type. *)

Definition bind (A B : Type) (o : option A) (k : A -> option B) : option B :=
  match o with
  | Some a => k a
  | None => None
  end.

Notation "x <- e ;; k" := (bind e (fun x => k))
  (at level 61, e at next level, right associativity).

(** Property lookup; of two members with one key the later one counts. *)
Fixpoint get (key : string) (members : list (string * value))
  : option value :=
  match members with
  | [] => None
  | (k, v) :: rest =>
      match get key rest with
      | Some w => Some w
      | None => if String.eqb key k then Some v else None
      end
  end.

Definition required (A : Type) (key : string) (read : value -> option A)
  (members : list (string * value)) : option A :=
  j <- get key members ;; read j.

Definition optionally (A : Type) (key : string) (read : value -> option A)
  (members : list (string * value)) : option (option A) :=
  match get key members with
  | Some j => a <- read j ;; Some (Some a)
  | None => Some None
  end.

Fixpoint traverse (A B : Type) (read : A -> option B) (l : list A)
  : option (list B) :=
  match l with
  | [] => Some []
  | a :: rest =>
      b <- read a ;; bs <- traverse read rest ;; Some (b :: bs)
  end.

Definition toArray (A : Type) (read : value -> option A) (j : value)
  : option (list A) :=
  match j with
  | JArray items => traverse read items
  | _ => None
  end.

Definition toDouble (j : value) : option spec_float :=
  match j with JDouble f => Some f | _ => None end.

Definition toInt (j : value) : option Z :=
  match j with JInt z => Some z | _ => None end.

Definition toBool (j : value) : option bool :=
  match j with JBool b => Some b | _ => None end.

Definition toString (j : value) : option jsstring :=
  match j with JString s => Some s | _ => None end.

Definition toBlockType (j : value) : option BlockType :=
  s <- toString j ;;
  if streq s (str "text") then Some text
  else if streq s (str "image") then Some image
  else if streq s (str "video") then Some video
  else None.

Definition toTheme (j : value) : option Theme :=
  s <- toString j ;;
  if streq s (str "dark") then Some dark
  else if streq s (str "pink") then Some pink
  else if streq s (str "royal") then Some royal
  else None.

Definition toPoint (j : value) : option Point :=
  match j with
  | JObject o =>
      x <- required "x" toDouble o ;;
      y <- required "y" toDouble o ;;
      Some (Point.mk x y)
  | _ => None
  end.

Definition toDrawingPath (j : value) : option DrawingPath :=
  match j with
  | JObject o =>
      points <- required "points" (toArray toPoint) o ;;
      color <- required "color" toString o ;;
      width <- required "width" toInt o ;;
      Some (DrawingPath.mk points color width)
  | _ => None
  end.

Definition toBlock (j : value) : option Block :=
  match j with
  | JObject o =>
      id <- required "id" toString o ;;
      type <- required "type" toBlockType o ;;
      content <- required "content" toString o ;;
      width <- optionally "width" toDouble o ;;
      height <- optionally "height" toDouble o ;;
      drawings <- optionally "drawings" (toArray toDrawingPath) o ;;
      Some (Block.mk id type content width height drawings)
  | _ => None
  end.

Definition toNote (j : value) : option Note :=
  match j with
  | JObject o =>
      id <- required "id" toString o ;;
      title <- required "title" toString o ;;
      createdAt <- required "createdAt" toInt o ;;
      updatedAt <- required "updatedAt" toInt o ;;
      blocks <- required "blocks" (toArray toBlock) o ;;
      isPinned <- required "isPinned" toBool o ;;
      isHidden <- optionally "isHidden" toBool o ;;
      theme <- optionally "theme" toTheme o ;;
      Some (Note.mk id title createdAt updatedAt blocks isPinned isHidden
              theme)
  | _ => None
  end.

Definition parse (document : value) : option (list Note) :=
  toArray toNote document.

End JSON.

(** ** App.tsx: the note collection and its handlers *)

Module App.

(** What one of the two stores holds under the notes' key: nothing (or the
    empty text), text that [JSON.parse] rejects, or a JSON document. *)
Inductive Stored : Type :=
| Absent
| Malformed
| Document (d : JSON.value).

(** The device file [frame_notes_db.json] and the local-storage entry
    [frame_notes_data]. *)
Record Storage : Type := mkStorage {
  file : Stored;
  frame_notes_data : Stored
}.

(** The save effect.  [native] is [Capacitor.isNativePlatform()];
    [written] says whether [Filesystem.writeFile] succeeded (its failure
    is logged and swallowed).  [localStorage.setItem] is taken to succeed. *)
Definition persistData (native written : bool) (notes : list Note)
  (store : Storage) : Storage :=
  mkStorage
    (if native && written then Document (JSON.stringify notes)
     else file store)
    (Document (JSON.stringify notes)).

(** The load effect: the [notes] state after it, starting from [[]].
    [store] is what the two stores hold when the component mounts.  [None]
    says that the value handed to [setNotes] is not a [Note[]].

    Off a device nothing is awaited before [getItem], which reads local
    storage as the mount found it.  On a device the function is suspended
    at the awaited [readFile], and the save effect of the same mount runs
    in between, with [notes] still [[]]: the [getItem] of the fallback
    finds what that [setItem] wrote. *)
Definition loadData (native : bool) (store : Storage) : option (list Note) :=
  let fromLocalStorage (savedNotes : Stored) :=
    match savedNotes with
    | Document d => JSON.parse d
    | Malformed | Absent => Some []
    end in
  if native then
    match file store with
    | Document d => JSON.parse d
    | Malformed | Absent =>
        fromLocalStorage (Document (JSON.stringify []))
    end
  else fromLocalStorage (frame_notes_data store).

Inductive View : Type := home | edit.

(** The component's state cells.  [undoTimer] holds the handle that
    [setTimeout] returned for the pending 5 second expiry, if any. *)
Record State : Type := mkState {
  view : View;
  notes : list Note;
  activeNote : option Note;
  deletedNote : option Note;
  undoTimer : option nat
}.

(** [activeNote?.id === id] *)
Definition activeNote_is (st : State) (id : jsstring) : bool :=
  match activeNote st with
  | Some a => streq (Note.id a) id
  | None => false
  end.

Definition handleSaveNote (updatedNote : Note) (st : State) : State :=
  let same n := streq (Note.id n) (Note.id updatedNote) in
  let notes' :=
    match find same (notes st) with
    | Some _ => map (fun n => if same n then updatedNote else n) (notes st)
    | None => updatedNote :: notes st
    end in
  mkState (view st) notes'
    (if activeNote_is st (Note.id updatedNote)
     then Some updatedNote else activeNote st)
    (deletedNote st) (undoTimer st).

(** [timer] is the handle of the timeout the call arms. *)
Definition handleDeleteNote (noteId : jsstring) (timer : nat) (st : State)
  : State :=
  match find (fun n => streq (Note.id n) noteId) (notes st) with
  | None => st
  | Some noteToDelete =>
      let gone := activeNote_is st noteId in
      mkState (if gone then home else view st)
        (filter (fun n => negb (streq (Note.id n) noteId)) (notes st))
        (if gone then None else activeNote st)
        (Some noteToDelete)
        (Some timer)
  end.

Definition handleUndoDelete (st : State) : State :=
  match deletedNote st with
  | Some d =>
      mkState (view st) (d :: notes st) (activeNote st) None None
  | None => st
  end.

(** The callback of the 5 second timer that [handleDeleteNote] armed under
    the handle [timer].  A timer that a later delete or an undo has cleared
    does not fire. *)
Definition undoTimerFires (timer : nat) (st : State) : State :=
  match undoTimer st with
  | Some t =>
      if t =? timer
      then mkState (view st) (notes st) (activeNote st) None None
      else st
  | None => st
  end.

(** [{ ...note, isHidden: !note.isHidden }] and
    [{ ...note, isPinned: !note.isPinned }], saved. *)
Definition handleToggleHideNote (note : Note) (st : State) : State :=
  handleSaveNote
    (Note.mk (Note.id note) (Note.title note) (Note.createdAt note)
       (Note.updatedAt note) (Note.blocks note) (Note.isPinned note)
       (Some (negb (match Note.isHidden note with
                    | Some b => b
                    | None => false
                    end)))
       (Note.theme note))
    st.

Definition handleTogglePinNote (note : Note) (st : State) : State :=
  handleSaveNote
    (Note.mk (Note.id note) (Note.title note) (Note.createdAt note)
       (Note.updatedAt note) (Note.blocks note) (negb (Note.isPinned note))
       (Note.isHidden note) (Note.theme note))
    st.

Definition handleCreateNote (st : State) : State :=
  mkState edit (notes st) None (deletedNote st) (undoTimer st).

Definition handleSelectNote (note : Note) (st : State) : State :=
  mkState edit (notes st) (Some note) (deletedNote st) (undoTimer st).

Definition handleBackToHome (st : State) : State :=
  mkState home (notes st) None (deletedNote st) (undoTimer st).

End App.

(** ** components/Home.tsx: the list view *)

Module Home.

(** Truthiness of the optional flag [n.isHidden]: [undefined] is falsy. *)
Definition hidden (n : Note) : bool :=
  match Note.isHidden n with
  | Some b => b
  | None => false
  end.

Section ListView.

(** [String.prototype.toLowerCase] follows the Unicode case mappings; the
    view only needs it as a function on strings. *)
Variable toLowerCase : jsstring -> jsstring.

Definition matchesVisibility (showHidden : bool) (n : Note) : bool :=
  if showHidden then hidden n else negb (hidden n).

Definition matchesSearch (searchQuery : jsstring) (n : Note) : bool :=
  if truthy_string (trim searchQuery) then
    let query := toLowerCase searchQuery in
    includes (toLowerCase (Note.title n)) query
    || existsb
         (fun b =>
            BlockType_eqb (Block.type b) text
            && includes (toLowerCase (Block.content b)) query)
         (Note.blocks n)
  else true.

Definition filteredNotes (notes : list Note) (showHidden : bool)
  (searchQuery : jsstring) : list Note :=
  filter
    (fun n => matchesVisibility showHidden n && matchesSearch searchQuery n)
    notes.

End ListView.

(** The comparator handed to [sort]. *)
Definition compareNotes (a b : Note) : Z :=
  if negb (Bool.eqb (Note.isPinned a) (Note.isPinned b))
  then (if Note.isPinned a then -1 else 1)%Z
  else (Note.updatedAt b - Note.updatedAt a)%Z.

Definition sortedNotes (filtered : list Note) : list Note :=
  sort compareNotes filtered.

(** Lower-casing of the ASCII letters, for running the view on examples. *)
Definition asciiLowerCase (s : jsstring) : jsstring :=
  map (fun c => if ((65 <=? c) && (c <=? 90))%N then (c + 32)%N else c) s.

End Home.

(** ** components/Editor.tsx: the block engine and the auto-save *)

Module Editor.

(** The props [note] and [currentTheme], the state cells and the two refs
    of the drag gesture. *)
Record State : Type := mkState {
  note : option Note;
  currentTheme : Theme;
  blocks : list Block;
  title : jsstring;
  isHidden : bool;
  isPinned : bool;
  deletedBlock : option (Block * nat);
  dragItem : option nat;
  dragOverItem : option nat
}.

Definition setBlocks (bs : list Block) (st : State) : State :=
  mkState (note st) (currentTheme st) bs (title st) (isHidden st)
    (isPinned st) (deletedBlock st) (dragItem st) (dragOverItem st).

Definition setDeletedBlock (d : option (Block * nat)) (st : State) : State :=
  mkState (note st) (currentTheme st) (blocks st) (title st) (isHidden st)
    (isPinned st) d (dragItem st) (dragOverItem st).

Definition setDragItem (d : option nat) (st : State) : State :=
  mkState (note st) (currentTheme st) (blocks st) (title st) (isHidden st)
    (isPinned st) (deletedBlock st) d (dragOverItem st).

Definition setDragOverItem (d : option nat) (st : State) : State :=
  mkState (note st) (currentTheme st) (blocks st) (title st) (isHidden st)
    (isPinned st) (deletedBlock st) (dragItem st) d.

Definition setNote (n : option Note) (st : State) : State :=
  mkState n (currentTheme st) (blocks st) (title st) (isHidden st)
    (isPinned st) (deletedBlock st) (dragItem st) (dragOverItem st).

(** The initial state: [note?.blocks || []], [note?.title || ''],
    [note?.isHidden || false], [note?.isPinned || false]. *)
Definition mount (note : option Note) (currentTheme : Theme) : State :=
  match note with
  | Some n =>
      mkState note currentTheme (Note.blocks n) (Note.title n)
        (Home.hidden n) (Note.isPinned n) None None None
  | None =>
      mkState None currentTheme [] [] false false None None None
  end.

(** The body of the auto-save timer.  [generated] is what [generateId()]
    returns if it is called, [nowCreated] and [now] what the two
    [Date.now()] calls return (the first only runs when the original
    [createdAt] is missing or falsy).  The result is the note handed to
    [onSave], or [None] when the guard skips the save. *)
Definition autoSave (generated : jsstring) (nowCreated now : Z) (st : State)
  : option Note :=
  match blocks st, truthy_string (title st), note st with
  | [], false, None => None
  | _, _, _ =>
      Some
        (Note.mk
           (match note st with
            | Some n => or_string (Note.id n) generated
            | None => generated
            end)
           (or_string (title st) [])
           (match note st with
            | Some n => or_number (Note.createdAt n) nowCreated
            | None => nowCreated
            end)
           now
           (blocks st)
           (isPinned st)
           (Some (isHidden st))
           (Some (currentTheme st)))
  end.

Definition addBlock (generated : jsstring) (type : BlockType)
  (content : jsstring) (st : State) : State :=
  setBlocks
    (blocks st ++ [Block.mk generated type content None None (Some [])]) st.

Definition updateBlock (id content : jsstring) (st : State) : State :=
  setBlocks
    (map (fun b => if streq (Block.id b) id
                   then Block.with_content b content else b)
       (blocks st)) st.

Definition updateBlockDrawings (id : jsstring) (drawings : list DrawingPath)
  (st : State) : State :=
  setBlocks
    (map (fun b => if streq (Block.id b) id
                   then Block.with_drawings b drawings else b)
       (blocks st)) st.

Definition deleteBlock (id : jsstring) (st : State) : State :=
  match findIndex (fun b => streq (Block.id b) id) (blocks st) with
  | None => st
  | Some index =>
      match nth_error (blocks st) index with
      | Some b =>
          setBlocks
            (filter (fun b => negb (streq (Block.id b) id)) (blocks st))
            (setDeletedBlock (Some (b, index)) st)
      | None => st (* not reached: [findIndex] returns a valid index *)
      end
  end.

(** The callback of the 4 second timer armed by [deleteBlock id]. *)
Definition expireDeletedBlock (id : jsstring) (st : State) : State :=
  match deletedBlock st with
  | Some (b, _) =>
      if streq (Block.id b) id then setDeletedBlock None st else st
  | None => st
  end.

Definition restoreBlock (st : State) : State :=
  match deletedBlock st with
  | Some (b, index) =>
      setDeletedBlock None
        (setBlocks (splice index 0 [b] (blocks st)) st)
  | None => st
  end.

Definition handleDragStart (position : nat) (st : State) : State :=
  setDragItem (Some position) st.

(** [None] marks the one case that leaves the type [Block[]]: a tracked
    index past the end makes [newBlocks[dragIndex]] undefined, and the
    second splice would store that undefined in the array. *)
Definition handleDragEnter (position : nat) (st : State) : option State :=
  match dragItem st with
  | None => Some st
  | Some dragIndex =>
      let st1 := setDragOverItem (Some position) st in
      if dragIndex =? position then Some st1
      else
        match nth_error (blocks st) dragIndex with
        | Some draggedBlock =>
            let newBlocks :=
              splice position 0 [draggedBlock]
                (splice dragIndex 1 [] (blocks st)) in
            Some (setDragItem (Some position) (setBlocks newBlocks st1))
        | None => None
        end
  end.

Definition handleDragEnd (st : State) : State :=
  setDragOverItem None (setDragItem None st).

(** The direction of an explicit move: -1 or 1. *)
Inductive Direction : Type := towardsStart | towardsEnd.

Definition offset (direction : Direction) : Z :=
  match direction with
  | towardsStart => (-1)%Z
  | towardsEnd => 1%Z
  end.

(** [None] marks the case that leaves the type [Block[]]: an [index] past
    the end with its neighbour inside would swap an undefined into the
    array. *)
Definition moveBlock (index : nat) (direction : Direction) (st : State)
  : option State :=
  let newIndex := (Z.of_nat index + offset direction)%Z in
  if (newIndex <? 0)%Z || (Z.of_nat (List.length (blocks st)) <=? newIndex)%Z
  then Some st
  else
    match nth_error (blocks st) index,
          nth_error (blocks st) (Z.to_nat newIndex) with
    | Some temp, Some neighbour =>
        Some (setBlocks
                (assign (Z.to_nat newIndex) temp
                   (assign index neighbour (blocks st)))
                st)
    | _, _ => None
    end.

End Editor.

(** ** components/DrawingCanvas.tsx *)

Module DrawingCanvas.

Inductive Tool : Type := pen | eraser.

(** [NEON_COLORS[0]] of constants.ts. *)
Definition NEON_COLORS_0 : jsstring := str "#22d3ee".

Record State : Type := mkState {
  paths : list DrawingPath;
  isDrawing : bool;
  currentPoints : list Point;
  selectedColor : jsstring;
  tool : Tool;
  brushSize : Z
}.

Definition mount (initialPaths : list DrawingPath) : State :=
  mkState initialPaths false [] NEON_COLORS_0 pen 3.

(** [onButton]: the event's target is a BUTTON element. *)
Definition startDrawing (onButton : bool) (point : Point) (st : State)
  : State :=
  if onButton then st
  else mkState (paths st) true [point] (selectedColor st) (tool st)
         (brushSize st).

Definition draw (point : Point) (st : State) : State :=
  if isDrawing st
  then mkState (paths st) true (currentPoints st ++ [point])
         (selectedColor st) (tool st) (brushSize st)
  else st.

Definition stopDrawing (st : State) : State :=
  if isDrawing st then
    mkState
      (if 1 <? List.length (currentPoints st)
       then paths st ++
            [DrawingPath.mk (currentPoints st)
               (match tool st with
                | eraser => str "eraser"
                | pen => selectedColor st
                end)
               (brushSize st)]
       else paths st)
      false [] (selectedColor st) (tool st) (brushSize st)
  else st.

(** The undo button: [paths.slice(0, -1)]. *)
Definition undo (st : State) : State :=
  mkState (removelast (paths st)) (isDrawing st) (currentPoints st)
    (selectedColor st) (tool st) (brushSize st).

(** *** The 2D context *)

Inductive CompositeOperation : Type := source_over | destination_out.

Inductive LineStyle : Type := butt | miter | round.

(** The drawing state of a [CanvasRenderingContext2D] that [renderCanvas]
    touches. *)
Record Context : Type := mkContext {
  globalCompositeOperation : CompositeOperation;
  strokeStyle : jsstring;
  lineWidth : Z;
  shadowBlur : Z;
  shadowColor : jsstring;
  lineCap : LineStyle;
  lineJoin : LineStyle
}.

Section Canvas.

(** The rasteriser is the browser's.  [covers ctx pts px] says whether
    stroking the polyline [pts] under the drawing state [ctx] (line
    width, caps, joins, glow) touches pixel [px]; [isColor] is the CSS
    colour parser.  Paint is opaque, as the palette's colours are: a
    touched pixel takes the stroke's colour under [source_over] and
    becomes transparent under [destination_out]. *)
Variable Pixel : Type.
Variable covers : Context -> list Point -> Pixel -> bool.
Variable isColor : jsstring -> bool.

(** A bitmap gives each pixel its colour, [None] for transparent. *)
Definition Bitmap : Type := Pixel -> option jsstring.

Definition clearRect : Bitmap := fun _ => None.

(** The setters ignore values the context does not accept. *)
Definition set_strokeStyle (c : jsstring) (ctx : Context) : Context :=
  if isColor c
  then mkContext (globalCompositeOperation ctx) c (lineWidth ctx)
         (shadowBlur ctx) (shadowColor ctx) (lineCap ctx) (lineJoin ctx)
  else ctx.

Definition set_shadowColor (c : jsstring) (ctx : Context) : Context :=
  if isColor c
  then mkContext (globalCompositeOperation ctx) (strokeStyle ctx)
         (lineWidth ctx) (shadowBlur ctx) c (lineCap ctx) (lineJoin ctx)
  else ctx.

Definition set_lineWidth (w : Z) (ctx : Context) : Context :=
  if (0 <? w)%Z
  then mkContext (globalCompositeOperation ctx) (strokeStyle ctx) w
         (shadowBlur ctx) (shadowColor ctx) (lineCap ctx) (lineJoin ctx)
  else ctx.

Definition set_shadowBlur (b : Z) (ctx : Context) : Context :=
  if (0 <=? b)%Z
  then mkContext (globalCompositeOperation ctx) (strokeStyle ctx)
         (lineWidth ctx) b (shadowColor ctx) (lineCap ctx) (lineJoin ctx)
  else ctx.

Definition set_globalCompositeOperation (op : CompositeOperation)
  (ctx : Context) : Context :=
  mkContext op (strokeStyle ctx) (lineWidth ctx) (shadowBlur ctx)
    (shadowColor ctx) (lineCap ctx) (lineJoin ctx).

Definition set_round (ctx : Context) : Context :=
  mkContext (globalCompositeOperation ctx) (strokeStyle ctx)
    (lineWidth ctx) (shadowBlur ctx) (shadowColor ctx) round round.

(** [beginPath(); moveTo(pts[0]); lineTo(pts[i]) ...; stroke()] *)
Definition stroke (ctx : Context) (pts : list Point) (bm : Bitmap)
  : Bitmap :=
  fun px =>
    if covers ctx pts px then
      match globalCompositeOperation ctx with
      | source_over => Some (strokeStyle ctx)
      | destination_out => None
      end
    else bm px.

(** The drawing state under which the body of the [forEach] strokes
    [path]. *)
Definition pathContext (path : DrawingPath) (ctx : Context) : Context :=
  if streq (DrawingPath.color path) (str "eraser") then
    set_lineWidth (DrawingPath.width path * 4)
      (set_globalCompositeOperation destination_out ctx)
  else
    set_lineWidth (DrawingPath.width path)
      (set_shadowColor (DrawingPath.color path)
         (set_shadowBlur 8
            (set_strokeStyle (DrawingPath.color path)
               (set_globalCompositeOperation source_over ctx)))).

(** One iteration of [paths.forEach]. *)
Definition renderPath (path : DrawingPath) (s : Context * Bitmap)
  : Context * Bitmap :=
  if List.length (DrawingPath.points path) <? 2 then s
  else
    let ctx := pathContext path (fst s) in
    (set_globalCompositeOperation source_over (set_shadowBlur 0 ctx),
     stroke ctx (DrawingPath.points path) (snd s)).

(** [paths.forEach(path => ...)] *)
Definition forEachPath (paths : list DrawingPath) (s : Context * Bitmap)
  : Context * Bitmap :=
  fold_left (fun s path => renderPath path s) paths s.

(** On a mounted canvas with a 2D context (the function returns at once
    when there is none): the canvas is cleared, the caps and joins are set,
    the paths are replayed. *)
Definition renderCanvas (paths : list DrawingPath) (s : Context * Bitmap)
  : Context * Bitmap :=
  forEachPath paths (set_round (fst s), clearRect).

End Canvas.

(** The save button hands the path list to [onSave]. *)
Definition handleSave (st : State) : list DrawingPath := paths st.

(** The buttons of the tool bar: a colour of the palette
    ([setSelectedColor(color); setTool('pen')]), the pen and the eraser. *)
Definition pickColor (color : jsstring) (st : State) : State :=
  mkState (paths st) (isDrawing st) (currentPoints st) color pen
    (brushSize st).

Definition pickPen (st : State) : State :=
  mkState (paths st) (isDrawing st) (currentPoints st) (selectedColor st)
    pen (brushSize st).

Definition pickEraser (st : State) : State :=
  mkState (paths st) (isDrawing st) (currentPoints st) (selectedColor st)
    eraser (brushSize st).

End DrawingCanvas.

(** ** utils.ts *)

Module Utils.

(** The cover of a note card: the content of the first image or video
    block, [None] for null. *)
Definition getFirstImage (blocks : list Block) : option jsstring :=
  match find (fun b => BlockType_eqb (Block.type b) image
                       || BlockType_eqb (Block.type b) video) blocks with
  | Some imgBlock => Some (Block.content imgBlock)
  | None => None
  end.

(** The preview line of a note card. *)
Definition getPreviewText (blocks : list Block) : jsstring :=
  match find (fun b => BlockType_eqb (Block.type b) text
                       && (0 <? List.length (trim (Block.content b))))
          blocks with
  | Some textBlock =>
      firstn 60 (Block.content textBlock)
      ++ (if 60 <? List.length (Block.content textBlock)
          then str "..." else [])
  | None => str "New Frame"
  end.

End Utils.

(** ** components/BlockRender.tsx: the drawing overlay of a media block *)

Module BlockRender.

(** [block.drawings || []], the paths the drawing canvas starts from. *)
Definition initialPaths (block : Block) : list DrawingPath :=
  match Block.drawings block with
  | Some ds => ds
  | None => []
  end.

Definition enterDrawingMode (block : Block) : DrawingCanvas.State :=
  DrawingCanvas.mount (initialPaths block).

(** The canvas's [onSave]: [onUpdateDrawings(block.id, paths)], which the
    editor binds to [updateBlockDrawings]. *)
Definition onSave (block : Block) (paths : list DrawingPath)
  (ed : Editor.State) : Editor.State :=
  Editor.updateBlockDrawings (Block.id block) paths ed.

Section Overlay.

Variable Pixel : Type.
Variable covers : DrawingCanvas.Context -> list Point -> Pixel -> bool.
Variable isColor : jsstring -> bool.

(** The drawing state under which the read-only overlay strokes [path]. *)
Definition overlayContext (path : DrawingPath) (ctx : DrawingCanvas.Context)
  : DrawingCanvas.Context :=
  if streq (DrawingPath.color path) (str "eraser") then
    DrawingCanvas.set_lineWidth (DrawingPath.width path * 2)
      (DrawingCanvas.set_globalCompositeOperation
         DrawingCanvas.destination_out ctx)
  else
    DrawingCanvas.set_shadowColor isColor (DrawingPath.color path)
      (DrawingCanvas.set_shadowBlur 4
         (DrawingCanvas.set_lineWidth (DrawingPath.width path)
            (DrawingCanvas.set_strokeStyle isColor (DrawingPath.color path)
               (DrawingCanvas.set_globalCompositeOperation
                  DrawingCanvas.source_over ctx)))).

Definition overlayPath (path : DrawingPath)
  (s : DrawingCanvas.Context * DrawingCanvas.Bitmap Pixel)
  : DrawingCanvas.Context * DrawingCanvas.Bitmap Pixel :=
  if List.length (DrawingPath.points path) <? 2 then s
  else
    let ctx := overlayContext path (fst s) in
    (DrawingCanvas.set_globalCompositeOperation DrawingCanvas.source_over
       (DrawingCanvas.set_shadowBlur 0 ctx),
     DrawingCanvas.stroke covers ctx (DrawingPath.points path) (snd s)).

(** The effect that draws the stored paths over an image or a video.  It
    runs for a media block that has drawings and is not being drawn on;
    [None] says that it does not run.  The canvas is mounted and has a 2D
    context; [s] is the canvas once the effect has set its size and
    scale. *)
Definition renderDrawings (block : Block) (isDrawingMode : bool)
  (s : DrawingCanvas.Context * DrawingCanvas.Bitmap Pixel)
  : option (DrawingCanvas.Context * DrawingCanvas.Bitmap Pixel) :=
  match Block.type block, Block.drawings block, isDrawingMode with
  | (image | video), Some drawings, false =>
      Some (fold_left (fun s path => overlayPath path s) drawings
              (DrawingCanvas.set_round (fst s),
               DrawingCanvas.clearRect (Pixel := Pixel)))
  | _, _, _ => None
  end.

End Overlay.

End BlockRender.

(** ** App.tsx: the editor as the application mounts it

    [<Editor note={activeNote} onSave={handleSaveNote} ... />]: the
    editor's [note] prop is the application's [activeNote] at every render,
    and its state cells live on across renders. *)

Module Session.

Record State : Type := mkState {
  app : App.State;
  editor : Editor.State
}.

Definition createNote (theme : Theme) (a : App.State) : State :=
  let a' := App.handleCreateNote a in
  mkState a' (Editor.mount (App.activeNote a') theme).

Definition selectNote (note : Note) (theme : Theme) (a : App.State)
  : State :=
  let a' := App.handleSelectNote note a in
  mkState a' (Editor.mount (App.activeNote a') theme).

(** The auto-save timer fires: the commit, if the guard lets it through,
    goes to [handleSaveNote], and the editor is rendered again with the
    [activeNote] that results. *)
Definition autoSaveFires (generated : jsstring) (nowCreated now : Z)
  (s : State) : State :=
  match Editor.autoSave generated nowCreated now (editor s) with
  | Some updatedNote =>
      let a' := App.handleSaveNote updatedNote (app s) in
      mkState a' (Editor.setNote (App.activeNote a') (editor s))
  | None => s
  end.

End Session.

(* ================================================================== *)
(** * Part II: the vocabulary of the properties *)
(* ================================================================== *)

(** ** The filter of the list view *)

(** [q] occurs in [s]. *)
Definition occursIn (q s : jsstring) : Prop :=
  exists pre post, s = pre ++ q ++ post.

(** A blank string: empty, or white space only. *)
Definition blank (q : jsstring) : Prop :=
  forall c, In c q -> isWhiteSpace c = true.

(** The hidden view keeps the notes whose flag is true, the default view the
    others, a note without the flag among them. *)
Definition shownIn (showHidden : bool) (n : Note) : Prop :=
  if showHidden then Note.isHidden n = Some true
  else Note.isHidden n <> Some true.

(** The query is blank, or its lower-casing occurs in the lower-cased title
    or in the lower-cased content of a text block. *)
Definition answers (toLowerCase : jsstring -> jsstring)
  (searchQuery : jsstring) (n : Note) : Prop :=
  blank searchQuery
  \/ occursIn (toLowerCase searchQuery) (toLowerCase (Note.title n))
  \/ exists b,
      In b (Note.blocks n) /\ Block.type b = text
      /\ occursIn (toLowerCase searchQuery) (toLowerCase (Block.content b)).

(** ** The order of the list view *)

(** Under the comparator, [a] may stand before [b]. *)
Definition mayPrecede (A : Type) (compareFn : A -> A -> Z) (a b : A) : Prop :=
  (compareFn a b <= 0)%Z.

(** Two notes tie when they agree on the pin and on [updatedAt]. *)
Definition tie (a b : Note) : bool :=
  Bool.eqb (Note.isPinned a) (Note.isPinned b)
  && (Note.updatedAt a =? Note.updatedAt b)%Z.

(** ** Reordering by drag *)

(** The move the specification names: take the element at [from] out, then
    put it in at [to]. *)
Definition moveElement (A : Type) (l : list A) (from to : nat) : list A :=
  match nth_error l from with
  | Some a =>
      let without := firstn from l ++ skipn (S from) l in
      firstn to without ++ a :: skipn to without
  | None => l
  end.

(** The left fold of the moves over the targets of a gesture: the list and
    the index that the dragged block has reached. *)
Fixpoint dragMoves (A : Type) (targets : list nat) (l : list A) (source : nat)
  : list A * nat :=
  match targets with
  | [] => (l, source)
  | t :: rest =>
      if source =? t then dragMoves rest l source
      else dragMoves rest (moveElement l source t) t
  end.

(** The drag-enter events of one gesture, handled one after the other. *)
Fixpoint dragThrough (targets : list nat) (st : Editor.State)
  : option Editor.State :=
  match targets with
  | [] => Some st
  | t :: rest =>
      match Editor.handleDragEnter t st with
      | Some st' => dragThrough rest st'
      | None => None
      end
  end.

(** ** The replay of the paths *)

(** A path with two points or more is stroked; a path whose colour is the
    sentinel erases. *)
Definition renderable (p : DrawingPath) : bool :=
  2 <=? List.length (DrawingPath.points p).

Definition erasing (p : DrawingPath) : bool :=
  streq (DrawingPath.color p) (str "eraser").

(** The drawing state that the loop body leaves behind after a stroke. *)
Definition afterStroke (ctx : DrawingCanvas.Context) : DrawingCanvas.Context :=
  DrawingCanvas.set_globalCompositeOperation DrawingCanvas.source_over
    (DrawingCanvas.set_shadowBlur 0 ctx).

(** The strokes that a replay of [paths] issues from the drawing state
    [ctx], in the order it issues them: the state of each stroke and its
    polyline. *)
Fixpoint strokes (isColor : jsstring -> bool) (paths : list DrawingPath)
  (ctx : DrawingCanvas.Context)
  : list (DrawingCanvas.Context * list Point) :=
  match paths with
  | [] => []
  | p :: rest =>
      if renderable p then
        (DrawingCanvas.pathContext isColor p ctx, DrawingPath.points p)
        :: strokes isColor rest
             (afterStroke (DrawingCanvas.pathContext isColor p ctx))
      else strokes isColor rest ctx
  end.

(** Painting one stroke, and a stroke that leaves a pixel alone. *)
Definition paint (Pixel : Type)
  (covers : DrawingCanvas.Context -> list Point -> Pixel -> bool)
  (bm : DrawingCanvas.Bitmap Pixel)
  (s : DrawingCanvas.Context * list Point) : DrawingCanvas.Bitmap Pixel :=
  DrawingCanvas.stroke covers (fst s) (snd s) bm.

Definition misses (Pixel : Type)
  (covers : DrawingCanvas.Context -> list Point -> Pixel -> bool)
  (px : Pixel) (s : DrawingCanvas.Context * list Point) : Prop :=
  covers (fst s) (snd s) px = false.

(** ** Saving and loading *)

(** A collection is valid when every double in it is a finite number: these
    are the numbers that have a JSON literal. *)
Definition finite (f : spec_float) : bool :=
  match f with
  | S754_zero _ | S754_finite _ _ _ => true
  | S754_infinity _ | S754_nan => false
  end.

Definition finiteIfSet (o : option spec_float) : bool :=
  match o with
  | Some f => finite f
  | None => true
  end.

Definition validPoint (p : Point) : bool :=
  finite (Point.x p) && finite (Point.y p).

Definition validPath (d : DrawingPath) : bool :=
  forallb validPoint (DrawingPath.points d).

Definition validBlock (b : Block) : bool :=
  finiteIfSet (Block.width b) && finiteIfSet (Block.height b)
  && match Block.drawings b with
     | Some ds => forallb validPath ds
     | None => true
     end.

Definition validNote (n : Note) : bool := forallb validBlock (Note.blocks n).

Definition validNotes (notes : list Note) : bool := forallb validNote notes.

(** Equality field for field, each field compared as [===] compares it: on
    doubles that is IEEE equality, for which the two zeros are equal. *)
Fixpoint sameList (A : Type) (same : A -> A -> bool) (l1 l2 : list A) : bool :=
  match l1, l2 with
  | [], [] => true
  | a :: l1', b :: l2' => same a b && sameList same l1' l2'
  | _, _ => false
  end.

Definition sameOption (A : Type) (same : A -> A -> bool) (o1 o2 : option A)
  : bool :=
  match o1, o2 with
  | None, None => true
  | Some a, Some b => same a b
  | _, _ => false
  end.

Definition samePoint (p q : Point) : bool :=
  SFeqb (Point.x p) (Point.x q) && SFeqb (Point.y p) (Point.y q).

Definition samePath (d e : DrawingPath) : bool :=
  sameList samePoint (DrawingPath.points d) (DrawingPath.points e)
  && streq (DrawingPath.color d) (DrawingPath.color e)
  && (DrawingPath.width d =? DrawingPath.width e)%Z.

Definition sameBlock (b c : Block) : bool :=
  streq (Block.id b) (Block.id c)
  && BlockType_eqb (Block.type b) (Block.type c)
  && streq (Block.content b) (Block.content c)
  && sameOption SFeqb (Block.width b) (Block.width c)
  && sameOption SFeqb (Block.height b) (Block.height c)
  && sameOption (sameList samePath) (Block.drawings b) (Block.drawings c).

Definition sameNote (n m : Note) : bool :=
  streq (Note.id n) (Note.id m)
  && streq (Note.title n) (Note.title m)
  && (Note.createdAt n =? Note.createdAt m)%Z
  && (Note.updatedAt n =? Note.updatedAt m)%Z
  && sameList sameBlock (Note.blocks n) (Note.blocks m)
  && Bool.eqb (Note.isPinned n) (Note.isPinned m)
  && sameOption Bool.eqb (Note.isHidden n) (Note.isHidden m)
  && sameOption Theme_eqb (Note.theme n) (Note.theme m).

Definition sameNotes (l1 l2 : list Note) : bool := sameList sameNote l1 l2.

(** What a value becomes on its way through the document: -0 comes back
    as 0, everything else as itself. *)
Definition reread (f : spec_float) : spec_float :=
  match f with
  | S754_zero _ => S754_zero false
  | _ => f
  end.

Definition rereadPoint (p : Point) : Point :=
  Point.mk (reread (Point.x p)) (reread (Point.y p)).

Definition rereadPath (d : DrawingPath) : DrawingPath :=
  DrawingPath.mk (map rereadPoint (DrawingPath.points d))
    (DrawingPath.color d) (DrawingPath.width d).

Definition rereadBlock (b : Block) : Block :=
  Block.mk (Block.id b) (Block.type b) (Block.content b)
    (option_map reread (Block.width b)) (option_map reread (Block.height b))
    (option_map (map rereadPath) (Block.drawings b)).

Definition rereadNote (n : Note) : Note :=
  Note.mk (Note.id n) (Note.title n) (Note.createdAt n) (Note.updatedAt n)
    (map rereadBlock (Note.blocks n)) (Note.isPinned n) (Note.isHidden n)
    (Note.theme n).

(** ** Sample notes, blocks, paths and states *)

(** A double with an integral value, for examples. *)
Definition whole (n : positive) : spec_float := S754_finite false n 0.

Definition blockA : Block :=
  Block.mk (str "a") text (str "Paris was great") None None (Some []).
Definition blockB : Block :=
  Block.mk (str "b") image (str "data:image/png;base64,AAAA") None None
    (Some []).
Definition blockC : Block :=
  Block.mk (str "c") text (str "Louvre") None None (Some []).
Definition blockD : Block :=
  Block.mk (str "d") video (str "data:video/mp4;base64,AAAA") None None None.

Definition tripNote : Note :=
  Note.mk (str "n1") (str "Trip") 1000 1000
    [Block.mk (str "b1") text (str "Paris was great") None None (Some [])]
    false (Some false) (Some dark).

Definition tripNoteEdited : Note :=
  Note.mk (str "n1") (str "Trip to Paris") 1000 2000
    [Block.mk (str "b1") text (str "Paris was great") None None (Some [])]
    true (Some false) (Some dark).

Definition otherNote : Note :=
  Note.mk (str "n2") (str "beta") 500 700 [] false None None.

Definition alphaNote : Note :=
  Note.mk (str "n3") (str "Alpha") 900 900 [] false (Some true) None.

Definition gammaNote : Note :=
  Note.mk (str "n4") (str "Gamma") 800 950 [blockC] true None None.

Definition sketchNote : Note :=
  Note.mk (str "n5") (str "Sketch") 1200 1300
    [Block.mk (str "b9") image (str "data:image/png;base64,AAAA")
       (Some (whole 320)) None
       (Some [DrawingPath.mk
                [Point.mk (S754_zero true) (whole 4);
                 Point.mk (S754_finite false 5 (-1)) (whole 7)]
                (str "#22d3ee") 3;
              DrawingPath.mk
                [Point.mk (whole 1) (whole 1); Point.mk (whole 2) (whole 2)]
                (str "eraser") 3])]
    true None (Some royal).

Definition homeState (notes : list Note) : App.State :=
  App.mkState App.home notes None None None.

Definition editorOf (blocks : list Block) : Editor.State :=
  Editor.mkState None dark blocks (str "Trip") false false None None None.

Definition emptyStore : App.Storage := App.mkStorage App.Absent App.Absent.

Definition strokeInProgress : DrawingCanvas.State :=
  DrawingCanvas.draw (Point.mk (whole 12) (whole 9))
    (DrawingCanvas.startDrawing false (Point.mk (whole 10) (whole 10))
       (DrawingCanvas.mount [])).

Definition pathA : DrawingPath :=
  DrawingPath.mk [Point.mk (whole 1) (whole 1); Point.mk (whole 2) (whole 2)]
    (str "#22d3ee") 3.
Definition pathB : DrawingPath :=
  DrawingPath.mk [Point.mk (whole 1) (whole 1); Point.mk (whole 2) (whole 2)]
    (str "eraser") 3.
Definition pathC : DrawingPath :=
  DrawingPath.mk [Point.mk (whole 2) (whole 2); Point.mk (whole 3) (whole 3)]
    (str "#e879f9") 3.
Definition tapPath : DrawingPath :=
  DrawingPath.mk [Point.mk (whole 3) (whole 3)] (str "eraser") 3.

(** A rasteriser for examples: a stroke touches the pixels at its vertices.
    Every string that starts with '#' counts as a colour. *)
Definition vertexCovers (_ : DrawingCanvas.Context) (pts : list Point)
  (pixel : Point) : bool :=
  existsb (samePoint pixel) pts.

Definition hashColor (c : jsstring) : bool := startsWith c (str "#").

Definition blankContext : DrawingCanvas.Context :=
  DrawingCanvas.mkContext DrawingCanvas.source_over (str "#000000") 1 0
    (str "#000000") DrawingCanvas.butt DrawingCanvas.miter.

Definition rendered (paths : list DrawingPath) : Point -> option jsstring :=
  snd (DrawingCanvas.renderCanvas vertexCovers hashColor paths
         (blankContext, fun _ => Some (str "#123456"))).

(** ** Further vocabulary *)

(** What the order of the list view looks at in a note. *)
Definition noteKey (n : Note) : bool * Z :=
  (Note.isPinned n, Note.updatedAt n).

(** A note with its hidden flag, or its pin, flipped. *)
Definition hideToggled (n : Note) : Note :=
  Note.mk (Note.id n) (Note.title n) (Note.createdAt n) (Note.updatedAt n)
    (Note.blocks n) (Note.isPinned n) (Some (negb (Home.hidden n)))
    (Note.theme n).

Definition pinToggled (n : Note) : Note :=
  Note.mk (Note.id n) (Note.title n) (Note.createdAt n) (Note.updatedAt n)
    (Note.blocks n) (negb (Note.isPinned n)) (Note.isHidden n)
    (Note.theme n).

(** The ids the editor holds: those of the blocks in the list, and that of
    the block in the undo slot. *)
Definition slotIds (st : Editor.State) : list jsstring :=
  match Editor.deletedBlock st with
  | Some (b, _) => [Block.id b]
  | None => []
  end.

Definition blockIds (st : Editor.State) : list jsstring :=
  map Block.id (Editor.blocks st) ++ slotIds st.

(** A new note in the editor, with one block typed and nothing saved yet. *)
Definition newNoteSession : Session.State :=
  Session.mkState
    (Session.app (Session.createNote dark (homeState [otherNote])))
    (Editor.addBlock (str "b1") text (str "Paris")
       (Session.editor (Session.createNote dark (homeState [otherNote])))).

(** The events of the drawing canvas, as the element binds them:
    mouse-down and touch-start to [startDrawing]; mouse-move and touch-move
    to [draw]; mouse-up, mouse-leave and touch-end to [stopDrawing]; and
    the clicks on the tool bar. *)
Inductive CanvasEvent : Type :=
| pointerDown (onButton : bool) (point : Point)
| pointerMove (point : Point)
| pointerUp
| colorClicked (color : jsstring)
| penClicked
| eraserClicked
| undoClicked.

Definition handleEvent (e : CanvasEvent) (st : DrawingCanvas.State)
  : DrawingCanvas.State :=
  match e with
  | pointerDown onButton point => DrawingCanvas.startDrawing onButton point st
  | pointerMove point => DrawingCanvas.draw point st
  | pointerUp => DrawingCanvas.stopDrawing st
  | colorClicked color => DrawingCanvas.pickColor color st
  | penClicked => DrawingCanvas.pickPen st
  | eraserClicked => DrawingCanvas.pickEraser st
  | undoClicked => DrawingCanvas.undo st
  end.

Definition handleEvents (events : list CanvasEvent)
  (st : DrawingCanvas.State) : DrawingCanvas.State :=
  fold_left (fun st e => handleEvent e st) events st.

(** One stroke with the pointer: down at [p0], through [ps], up. *)
Definition strokeGesture (p0 : Point) (ps : list Point)
  (st : DrawingCanvas.State) : DrawingCanvas.State :=
  DrawingCanvas.stopDrawing
    (fold_left (fun st p => DrawingCanvas.draw p st) ps
       (DrawingCanvas.startDrawing false p0 st)).

(** The colour a stroke is stored under. *)
Definition inkOf (st : DrawingCanvas.State) : jsstring :=
  match DrawingCanvas.tool st with
  | DrawingCanvas.eraser => str "eraser"
  | DrawingCanvas.pen => DrawingCanvas.selectedColor st
  end.

(** The strokes that the read-only overlay issues, as [strokes] gives
    those of the drawing canvas. *)
Fixpoint overlayStrokes (isColor : jsstring -> bool)
  (paths : list DrawingPath) (ctx : DrawingCanvas.Context)
  : list (DrawingCanvas.Context * list Point) :=
  match paths with
  | [] => []
  | p :: rest =>
      if renderable p then
        (BlockRender.overlayContext isColor p ctx, DrawingPath.points p)
        :: overlayStrokes isColor rest
             (afterStroke (BlockRender.overlayContext isColor p ctx))
      else overlayStrokes isColor rest ctx
  end.

(** What of a stroke does not depend on its width and glow: the composite
    operation, the stroke colour and the polyline. *)
Definition inkAndLine (s : DrawingCanvas.Context * list Point)
  : DrawingCanvas.CompositeOperation * jsstring * list Point :=
  (DrawingCanvas.globalCompositeOperation (fst s),
   DrawingCanvas.strokeStyle (fst s), snd s).

(* ================================================================== *)
(** * Part III: the properties *)
(* ================================================================== *)

(** ** Facts about the JavaScript primitives *)

Lemma streq_spec (a b : jsstring) : streq a b = true <-> a = b.
Proof.
  revert b; induction a as [|x a IH]; intros [|y b]; simpl;
    try (split; [discriminate | congruence]); try tauto.
  rewrite andb_true_iff, N.eqb_eq, IH.
  split; [intros [-> ->]; reflexivity | intros H; inversion H; auto].
Qed.

Lemma streq_refl (a : jsstring) : streq a a = true.
Proof. apply streq_spec; reflexivity. Qed.

Lemma streq_neq (a b : jsstring) : streq a b = false <-> a <> b.
Proof.
  rewrite <- streq_spec. destruct (streq a b); split; congruence.
Qed.

Lemma find_none_iff (A : Type) (p : A -> bool) (l : list A) :
  find p l = None <-> forall x, In x l -> p x = false.
Proof.
  split.
  - apply find_none.
  - induction l as [|x l IH]; simpl; intros H; [reflexivity|].
    rewrite (H x (or_introl eq_refl)). apply IH; auto.
Qed.

Lemma filter_all_true (A : Type) (p : A -> bool) (l : list A) :
  (forall x, In x l -> p x = true) -> filter p l = l.
Proof.
  induction l as [|x l IH]; simpl; intros H; [reflexivity|].
  rewrite (H x (or_introl eq_refl)), IH; auto.
Qed.

Lemma map_no_match (A : Type) (p : A -> bool) (f : A -> A) (l : list A) :
  (forall x, In x l -> p x = false) ->
  map (fun x => if p x then f x else x) l = l.
Proof.
  induction l as [|x l IH]; simpl; intros H; [reflexivity|].
  rewrite (H x (or_introl eq_refl)), IH; auto.
Qed.

Lemma findIndex_none (A : Type) (p : A -> bool) (l : list A) :
  (forall x, In x l -> p x = false) -> findIndex p l = None.
Proof.
  induction l as [|x l IH]; simpl; intros H; [reflexivity|].
  rewrite (H x (or_introl eq_refl)), IH; auto.
Qed.

(** The primitives on inputs whose results JavaScript fixes. *)
Example splice_examples :
  splice 1 1 [] [1; 2; 3] = [1; 3]
  /\ splice 1 0 [9] [1; 2; 3] = [1; 9; 2; 3]
  /\ splice 7 0 [9] [1; 2; 3] = [1; 2; 3; 9]
  /\ splice 7 1 [] [1; 2; 3] = [1; 2; 3].
Proof. repeat split. Qed.

Example string_examples :
  trim (str "  a b  ") = str "a b"
  /\ trim (9 :: 10 :: 8232 :: 65279 :: str " ")%N = []
  /\ includes (str "Paris was great") (str "was") = true
  /\ includes (str "Paris") (str "") = true
  /\ includes (str "") (str "P") = false
  /\ includes (str "Paris") (str "paris") = false.
Proof. repeat split. Qed.

Example sort_examples :
  sort Z.sub [3; 1; 2]%Z = [1; 2; 3]%Z
  /\ sort (fun a b => fst a - fst b)%Z [(2, 1); (1, 2); (2, 3); (1, 4)]%Z
     = [(1, 2); (1, 4); (2, 1); (2, 3)]%Z
  /\ findIndex (Z.eqb 2) [3; 2; 2]%Z = Some 1
  /\ findIndex (Z.eqb 5) [3; 2; 2]%Z = None.
Proof. repeat split. Qed.

(** The setters of the editor change one cell only. *)
Lemma setBlocks_same (st : Editor.State) :
  Editor.setBlocks (Editor.blocks st) st = st.
Proof. destruct st; reflexivity. Qed.

(** ** App.tsx: saving and deleting notes *)

(** Case analysis on the [find] of the goal. *)
Ltac destruct_find m E :=
  match goal with
  | |- context [find ?p ?l] => destruct (find p l) as [m|] eqn:E
  end.

Section SaveNote.

Variable updatedNote : Note.
Variable st : App.State.

Lemma handleSaveNote_present :
  (exists n, In n (App.notes st) /\ Note.id n = Note.id updatedNote) ->
  App.notes (App.handleSaveNote updatedNote st)
  = map (fun n => if streq (Note.id n) (Note.id updatedNote)
                  then updatedNote else n) (App.notes st).
Proof.
  intros [n [Hin Hid]]. simpl.
  destruct_find m E; [reflexivity|].
  apply (find_none _ _ E) in Hin. simpl in Hin.
  rewrite Hid, streq_refl in Hin. discriminate.
Qed.

Lemma handleSaveNote_absent :
  (forall n, In n (App.notes st) -> Note.id n <> Note.id updatedNote) ->
  App.notes (App.handleSaveNote updatedNote st)
  = updatedNote :: App.notes st.
Proof.
  intros H. simpl.
  destruct_find m E; [|reflexivity].
  apply find_some in E. destruct E as [Hin Hp].
  apply streq_spec in Hp. elim (H m Hin Hp).
Qed.

End SaveNote.

(** C10.  [handleSaveNote] is an upsert that touches nothing else.  When the
    collection holds a note with the saved note's id, the collection keeps its
    length, the saved note stands at every position whose note has that id,
    and every other position keeps its note; when no note has that id, the
    saved note is put in front of the unchanged collection.  The view, the
    undo slot and its timer are left as they were. *)
Theorem handleSaveNote_upsert (updatedNote : Note) (st : App.State) :
  let prev := App.notes st in
  let next := App.notes (App.handleSaveNote updatedNote st) in
  ((exists n, In n prev /\ Note.id n = Note.id updatedNote) ->
   List.length next = List.length prev /\
   forall i n, nth_error prev i = Some n ->
     (Note.id n = Note.id updatedNote -> nth_error next i = Some updatedNote)
     /\ (Note.id n <> Note.id updatedNote -> nth_error next i = Some n))
  /\ ((forall n, In n prev -> Note.id n <> Note.id updatedNote) ->
      next = updatedNote :: prev)
  /\ App.view (App.handleSaveNote updatedNote st) = App.view st
  /\ App.deletedNote (App.handleSaveNote updatedNote st) = App.deletedNote st
  /\ App.undoTimer (App.handleSaveNote updatedNote st) = App.undoTimer st.
Proof.
  intros prev next. split; [|split; [|repeat split]].
  - intros Hex. unfold next, prev in *.
    rewrite (handleSaveNote_present _ _ Hex).
    split; [apply length_map|].
    intros i n Hn. rewrite nth_error_map, Hn. simpl.
    split; intros Hid.
    + apply streq_spec in Hid. rewrite Hid. reflexivity.
    + apply streq_neq in Hid. rewrite Hid. reflexivity.
  - apply handleSaveNote_absent.
Qed.

Lemma handleSaveNote_upsert_witness :
  App.notes
    (App.handleSaveNote tripNoteEdited (homeState [otherNote; tripNote]))
  = [otherNote; tripNoteEdited]
  /\ App.notes (App.handleSaveNote tripNote (homeState [otherNote]))
     = [tripNote; otherNote].
Proof.
  destruct (handleSaveNote_upsert tripNoteEdited
              (homeState [otherNote; tripNote])) as [Hpresent _].
  destruct (handleSaveNote_upsert tripNote (homeState [otherNote]))
    as [_ [Habsent _]].
  split.
  - destruct Hpresent as [_ Hat].
    + exists tripNote. split; [right; left; reflexivity | reflexivity].
    + reflexivity.
  - apply Habsent. intros n [<- | []]. discriminate.
Defined.

(** C9.  An id that matches nothing makes update-content, update-drawings and
    delete-block return the editor state they were given, and makes the
    note deletion return the application state it was given.  The handlers
    are total functions: none of these calls can raise. *)
Theorem absent_id_is_noop (id : jsstring) :
  (forall (st : Editor.State) (content : jsstring)
          (drawings : list DrawingPath),
      (forall b, In b (Editor.blocks st) -> Block.id b <> id) ->
      Editor.updateBlock id content st = st
      /\ Editor.updateBlockDrawings id drawings st = st
      /\ Editor.deleteBlock id st = st)
  /\ (forall (st : App.State) (timer : nat),
      (forall n, In n (App.notes st) -> Note.id n <> id) ->
      App.handleDeleteNote id timer st = st).
Proof.
  split.
  - intros st content drawings H.
    assert (Hno : forall b, In b (Editor.blocks st) ->
                            streq (Block.id b) id = false).
    { intros b Hb. apply streq_neq. auto. }
    unfold Editor.updateBlock, Editor.updateBlockDrawings, Editor.deleteBlock.
    rewrite !(map_no_match (fun b => streq (Block.id b) id)) by exact Hno.
    rewrite (findIndex_none _ _ Hno), setBlocks_same. auto.
  - intros st timer H. unfold App.handleDeleteNote.
    replace (find _ (App.notes st)) with (@None Note); [reflexivity|].
    symmetry. apply find_none_iff. intros n Hn. apply streq_neq. auto.
Qed.

Lemma absent_id_is_noop_witness :
  Editor.updateBlock (str "zz") (str "new") (editorOf [blockA; blockB])
  = editorOf [blockA; blockB]
  /\ Editor.deleteBlock (str "zz") (editorOf [blockA; blockB])
     = editorOf [blockA; blockB]
  /\ App.handleDeleteNote (str "zz") 1 (homeState [otherNote; tripNote])
     = homeState [otherNote; tripNote].
Proof.
  destruct (absent_id_is_noop (str "zz")) as [Hblocks Hnotes].
  destruct (Hblocks (editorOf [blockA; blockB]) (str "new") [])
    as [Hu [_ Hd]].
  { intros b [<- | [<- | []]]; discriminate. }
  split; [exact Hu | split; [exact Hd |]].
  apply Hnotes. intros n [<- | [<- | []]]; discriminate.
Defined.

(** ** DrawingCanvas.tsx: committing a stroke *)

(** C6.  When a stroke is in progress, releasing the pointer appends one path
    to the end of the list if the buffer holds two points or more (its points
    are the buffer, its colour is the selected colour under the pen and the
    string 'eraser' under the eraser, its width is the brush size), leaves the
    path list alone if the buffer holds fewer, and in both cases empties the
    buffer and ends the stroke. *)
Theorem stopDrawing_commits_stroke (st : DrawingCanvas.State) :
  DrawingCanvas.isDrawing st = true ->
  let st' := DrawingCanvas.stopDrawing st in
  (2 <= List.length (DrawingCanvas.currentPoints st) ->
   DrawingCanvas.paths st' =
   DrawingCanvas.paths st ++
   [DrawingPath.mk (DrawingCanvas.currentPoints st)
      (match DrawingCanvas.tool st with
       | DrawingCanvas.pen => DrawingCanvas.selectedColor st
       | DrawingCanvas.eraser => str "eraser"
       end)
      (DrawingCanvas.brushSize st)])
  /\ (List.length (DrawingCanvas.currentPoints st) < 2 ->
      DrawingCanvas.paths st' = DrawingCanvas.paths st)
  /\ DrawingCanvas.currentPoints st' = []
  /\ DrawingCanvas.isDrawing st' = false.
Proof.
  intros Hd st'. subst st'. unfold DrawingCanvas.stopDrawing.
  rewrite Hd. simpl. repeat split.
  - intros Hlen. apply Nat.ltb_lt in Hlen. rewrite Hlen.
    destruct (DrawingCanvas.tool st); reflexivity.
  - intros Hlen.
    destruct (1 <? List.length (DrawingCanvas.currentPoints st)) eqn:E;
      [apply Nat.ltb_lt in E; lia | reflexivity].
Qed.

Lemma stopDrawing_commits_stroke_witness :
  DrawingCanvas.paths (DrawingCanvas.stopDrawing strokeInProgress)
  = [DrawingPath.mk
       [Point.mk (whole 10) (whole 10); Point.mk (whole 12) (whole 9)]
       (str "#22d3ee") 3]
  /\ DrawingCanvas.currentPoints (DrawingCanvas.stopDrawing strokeInProgress)
     = [].
Proof.
  destruct (stopDrawing_commits_stroke strokeInProgress eq_refl)
    as [Hcommit [_ [Hbuf _]]].
  split; [apply Hcommit; simpl; lia | exact Hbuf].
Defined.

(** A release with no stroke in progress (the pointer leaving the canvas,
    say) changes nothing. *)
Lemma stopDrawing_idle (st : DrawingCanvas.State) :
  DrawingCanvas.isDrawing st = false -> DrawingCanvas.stopDrawing st = st.
Proof. intros H. unfold DrawingCanvas.stopDrawing. rewrite H. reflexivity. Qed.

(** ** Editor.tsx: the auto-save commit *)

Lemma or_string_truthy (a b : jsstring) : a <> [] -> or_string a b = a.
Proof. destruct a; [congruence | reflexivity]. Qed.

Lemma or_number_truthy (a b : Z) : a <> 0%Z -> or_number a b = a.
Proof.
  intros H. unfold or_number, truthy_number.
  destruct (Z.eqb_spec a 0); [contradiction | reflexivity].
Qed.

Lemma or_string_empty (a : jsstring) : or_string a [] = a.
Proof. destruct a; reflexivity. Qed.

(** The commit on an editor whose note has a truthy id and [createdAt]. *)
Lemma autoSave_persisted (st : Editor.State) (n : Note) (generated : jsstring)
  (nowCreated now : Z) :
  Editor.note st = Some n -> Note.id n <> [] -> Note.createdAt n <> 0%Z ->
  Editor.autoSave generated nowCreated now st =
  Some (Note.mk (Note.id n) (Editor.title st) (Note.createdAt n) now
          (Editor.blocks st) (Editor.isPinned st) (Some (Editor.isHidden st))
          (Some (Editor.currentTheme st))).
Proof.
  intros Hn Hid Hc. unfold Editor.autoSave. rewrite Hn.
  rewrite or_string_truthy, or_number_truthy, or_string_empty by assumption.
  destruct (Editor.blocks st), (truthy_string (Editor.title st)); reflexivity.
Qed.

(** What the commit computes from the editor's [note] prop.  For an editor
    whose [note] is a note with an id that is not empty and a [createdAt]
    that is not 0, the commit keeps the note's id and [createdAt], takes the
    editor's current blocks and sets [updatedAt] to the commit time, and
    so does a further commit once the prop is the note just committed.
    For an editor whose [note] is null, a commit that the empty-note guard
    lets through takes the generated id and the current time as
    [createdAt]. *)
Theorem autoSave_commit (st : Editor.State) (generated : jsstring)
  (nowCreated now : Z) :
  (forall n,
      Editor.note st = Some n -> Note.id n <> [] -> Note.createdAt n <> 0%Z ->
      exists committed,
        Editor.autoSave generated nowCreated now st = Some committed
        /\ Note.id committed = Note.id n
        /\ Note.createdAt committed = Note.createdAt n
        /\ Note.updatedAt committed = now
        /\ Note.blocks committed = Editor.blocks st
        /\ forall generated' nowCreated' now',
            exists again,
              Editor.autoSave generated' nowCreated' now'
                (Editor.setNote (Some committed) st) = Some again
              /\ Note.id again = Note.id n
              /\ Note.createdAt again = Note.createdAt n
              /\ Note.updatedAt again = now'
              /\ Note.blocks again = Note.blocks committed)
  /\ (forall n theme,
        Note.id n <> [] -> Note.createdAt n <> 0%Z ->
        exists committed,
          Editor.autoSave generated nowCreated now
            (Editor.mount (Some n) theme) = Some committed
          /\ Note.id committed = Note.id n
          /\ Note.createdAt committed = Note.createdAt n
          /\ Note.updatedAt committed = now
          /\ Note.blocks committed = Note.blocks n
          /\ Note.title committed = Note.title n
          /\ Note.isPinned committed = Note.isPinned n)
  /\ (Editor.note st = None ->
      Editor.blocks st <> [] \/ Editor.title st <> [] ->
      exists committed,
        Editor.autoSave generated nowCreated now st = Some committed
        /\ Note.id committed = generated
        /\ Note.createdAt committed = nowCreated
        /\ Note.updatedAt committed = now
        /\ Note.blocks committed = Editor.blocks st).
Proof.
  split; [|split].
  - intros n Hn Hid Hc.
    eexists. split; [apply autoSave_persisted; eassumption|].
    simpl. repeat split.
    intros g' t' u'. eexists. split.
    + apply autoSave_persisted;
        [destruct st; reflexivity | exact Hid | exact Hc].
    + simpl. repeat split.
  - intros n theme Hid Hc. eexists. split.
    + apply autoSave_persisted; [reflexivity | exact Hid | exact Hc].
    + simpl. repeat split.
  - intros Hn Hguard. unfold Editor.autoSave. rewrite Hn, or_string_empty.
    destruct (Editor.blocks st) as [|b bs] eqn:Eb.
    + destruct (Editor.title st) as [|c cs] eqn:Et.
      * destruct Hguard; congruence.
      * eexists. split; [reflexivity | simpl; auto].
    + destruct (truthy_string (Editor.title st));
        (eexists; split; [reflexivity | simpl; auto]).
Qed.

Lemma autoSave_commit_witness :
  (exists committed,
      Editor.autoSave (str "fresh") 5000 5000
        (Editor.mount (Some tripNote) dark) = Some committed
      /\ Note.id committed = str "n1"
      /\ Note.createdAt committed = 1000%Z
      /\ Note.updatedAt committed = 5000%Z)
  /\ (exists committed,
      Editor.autoSave (str "fresh") 5000 5001
        (Editor.addBlock (str "b1") text [] (Editor.mount None dark))
      = Some committed
      /\ Note.id committed = str "fresh"
      /\ Note.createdAt committed = 5000%Z
      /\ Note.updatedAt committed = 5001%Z).
Proof.
  split.
  - destruct (autoSave_commit (Editor.mount (Some tripNote) dark)
                (str "fresh") 5000 5000) as [Hpersisted _].
    destruct (Hpersisted tripNote eq_refl) as [c [Hs [Hi [Hc [Hu _]]]]].
    + discriminate.
    + discriminate.
    + exists c. auto.
  - destruct (autoSave_commit
                (Editor.addBlock (str "b1") text [] (Editor.mount None dark))
                (str "fresh") 5000 5001) as [_ [_ Hfirst]].
    destruct (Hfirst eq_refl) as [c [Hs [Hi [Hc [Hu _]]]]].
    + left. discriminate.
    + exists c. auto.
Defined.

(** C8.  A note that was created in the editor does not keep its id and
    [createdAt] from one commit to the next.  Its first commit stores it,
    under the generated id and with the commit time as [createdAt];
    [handleSaveNote] syncs [activeNote] only when it
    already has the saved id, so the editor's [note] prop stays null, and
    the next commit of the same, unchanged editor takes a newly generated
    id and a new [createdAt] and is stored as a second note in front of the
    first, with the same title and blocks. *)
Theorem new_note_saved_twice_changes_identity :
  let once := Session.autoSaveFires (str "g1") 5000 5000 newNoteSession in
  let twice := Session.autoSaveFires (str "g2") 6000 6000 once in
  exists first second,
    App.notes (Session.app once) = [first; otherNote]
    /\ Session.editor once = Session.editor newNoteSession
    /\ App.notes (Session.app twice) = [second; first; otherNote]
    /\ Note.id first = str "g1" /\ Note.createdAt first = 5000%Z
    /\ Note.id second = str "g2" /\ Note.createdAt second = 6000%Z
    /\ Note.id second <> Note.id first
    /\ Note.createdAt second <> Note.createdAt first
    /\ Note.title second = Note.title first
    /\ Note.blocks second = Note.blocks first.
Proof.
  cbv zeta. do 2 eexists.
  split; [reflexivity|]. split; [reflexivity|]. split; [reflexivity|].
  repeat split; discriminate.
Qed.

(** ** Editor.tsx: deleting a block and undoing it *)

Section UniqueIds.

Variable A : Type.
Variable key : A -> jsstring.

(** In a list whose keys are pairwise distinct, looking a key up finds the
    one element that carries it, and filtering the key out removes that
    element only. *)
Lemma unique_key_lookup (l : list A) (i : nat) (a : A) :
  NoDup (map key l) -> nth_error l i = Some a ->
  findIndex (fun b => streq (key b) (key a)) l = Some i
  /\ filter (fun b => negb (streq (key b) (key a))) l
     = firstn i l ++ skipn (S i) l.
Proof.
  revert i. induction l as [|x l IH]; intros [|i] Hnd Hi; simpl in *;
    try discriminate; inversion Hnd as [|? ? Hnotin Hnd']; subst.
  - injection Hi as ->. rewrite streq_refl. simpl. split; [reflexivity|].
    apply filter_all_true. intros b Hb. apply negb_true_iff, streq_neq.
    intros Heq. apply Hnotin. rewrite <- Heq. apply in_map, Hb.
  - assert (Hx : streq (key x) (key a) = false).
    { apply streq_neq. intros Heq. apply Hnotin. rewrite Heq.
      apply in_map. eapply nth_error_In, Hi. }
    rewrite Hx. simpl. destruct (IH i Hnd' Hi) as [-> ->]. auto.
Qed.

End UniqueIds.

Lemma splice_insert_back (A : Type) (l : list A) (i : nat) (a : A) :
  nth_error l i = Some a ->
  splice i 0 [a] (firstn i l ++ skipn (S i) l) = l.
Proof.
  intros Hi. unfold splice.
  assert (Hlen : i < List.length l) by (apply nth_error_Some; congruence).
  assert (Hfl : List.length (firstn i l) = i)
    by (rewrite length_firstn; lia).
  rewrite Nat.add_0_r.
  rewrite firstn_app, skipn_app, Hfl, Nat.sub_diag. simpl.
  rewrite firstn_firstn, Nat.min_id, app_nil_r.
  rewrite skipn_all2 by lia. simpl.
  rewrite <- (firstn_skipn i l) at 3.
  f_equal. clear Hfl.
  revert i Hi Hlen. induction l as [|x l IH]; intros [|i] Hi Hlen;
    simpl in *; try discriminate; try lia.
  - congruence.
  - apply IH; [exact Hi | lia].
Qed.

Lemma splice_insert_clamped (A : Type) (l : list A) (i : nat) (a : A) :
  List.length l <= i -> splice i 0 [a] l = l ++ [a].
Proof.
  intros H. unfold splice.
  rewrite firstn_all2, skipn_all2 by lia. reflexivity.
Qed.

(** C5.  In a block list with pairwise distinct ids, deleting the id of the
    block at index [i] removes that block and nothing else and fills the undo
    slot with the block and [i].  Undo on a filled slot splices the recorded
    block in at the recorded index of whatever the list is by then (at the
    end when the list has become shorter than the index) and empties the
    slot.  Undo straight after the delete gives back the original list. *)
Theorem deleteBlock_then_restoreBlock (st : Editor.State) (i : nat)
  (b : Block) :
  NoDup (map Block.id (Editor.blocks st)) ->
  nth_error (Editor.blocks st) i = Some b ->
  let deleted := Editor.deleteBlock (Block.id b) st in
  Editor.blocks deleted
  = firstn i (Editor.blocks st) ++ skipn (S i) (Editor.blocks st)
  /\ Editor.deletedBlock deleted = Some (b, i)
  /\ (forall later,
        Editor.deletedBlock later = Some (b, i) ->
        Editor.blocks (Editor.restoreBlock later)
        = firstn i (Editor.blocks later) ++ b :: skipn i (Editor.blocks later)
        /\ (List.length (Editor.blocks later) <= i ->
            Editor.blocks (Editor.restoreBlock later)
            = Editor.blocks later ++ [b])
        /\ Editor.deletedBlock (Editor.restoreBlock later) = None)
  /\ Editor.blocks (Editor.restoreBlock deleted) = Editor.blocks st
  /\ Editor.deletedBlock (Editor.restoreBlock deleted) = None.
Proof.
  intros Hnd Hi deleted.
  destruct (unique_key_lookup Block.id _ _ Hnd Hi) as [Hfind Hfilter].
  assert (Hdel : deleted =
                 Editor.setBlocks
                   (firstn i (Editor.blocks st)
                    ++ skipn (S i) (Editor.blocks st))
                   (Editor.setDeletedBlock (Some (b, i)) st)).
  { unfold deleted, Editor.deleteBlock. rewrite Hfind, Hi, Hfilter.
    reflexivity. }
  rewrite Hdel. simpl. split; [reflexivity|]. split; [reflexivity|].
  split; [|split; [apply splice_insert_back, Hi | reflexivity]].
  intros later Hslot. unfold Editor.restoreBlock. rewrite Hslot. simpl.
  split; [|split; [|reflexivity]].
  - unfold splice. rewrite Nat.add_0_r. reflexivity.
  - apply splice_insert_clamped.
Qed.

Lemma deleteBlock_then_restoreBlock_witness :
  Editor.blocks
    (Editor.deleteBlock (str "b") (editorOf [blockA; blockB; blockC]))
  = [blockA; blockC]
  /\ Editor.blocks
       (Editor.restoreBlock
          (Editor.deleteBlock (str "b") (editorOf [blockA; blockB; blockC])))
     = [blockA; blockB; blockC].
Proof.
  assert (Hnd : NoDup (map Block.id [blockA; blockB; blockC])).
  { repeat constructor; simpl; intuition discriminate. }
  destruct (deleteBlock_then_restoreBlock
              (editorOf [blockA; blockB; blockC]) 1 Hnd eq_refl)
    as [Hdel [_ [_ [Hundo _]]]].
  split; [exact Hdel | exact Hundo].
Defined.

(** Once the 4 second timer of the delete has fired, the slot is empty and
    undo does nothing: the block stays out. *)
Lemma restoreBlock_after_expiry (st : Editor.State) (i : nat) (b : Block) :
  NoDup (map Block.id (Editor.blocks st)) ->
  nth_error (Editor.blocks st) i = Some b ->
  let expired :=
    Editor.expireDeletedBlock (Block.id b)
      (Editor.deleteBlock (Block.id b) st) in
  Editor.deletedBlock expired = None
  /\ Editor.restoreBlock expired = expired
  /\ Editor.blocks expired
     = firstn i (Editor.blocks st) ++ skipn (S i) (Editor.blocks st).
Proof.
  intros Hnd Hi.
  destruct (unique_key_lookup Block.id _ _ Hnd Hi) as [Hfind Hfilter].
  unfold Editor.deleteBlock. rewrite Hfind, Hi, Hfilter.
  unfold Editor.expireDeletedBlock. simpl. rewrite streq_refl. simpl.
  repeat split.
Qed.

(** ** Editor.tsx: reordering by drag *)

Lemma moveElement_length (A : Type) (l : list A) (from to : nat) :
  List.length (moveElement l from to) = List.length l.
Proof.
  unfold moveElement. destruct (nth_error l from) as [a|] eqn:E; [|reflexivity].
  assert (Hlen : from < List.length l) by (apply nth_error_Some; congruence).
  cbv zeta.
  assert (Hw : List.length (firstn from l ++ skipn (S from) l)
               = List.length l - 1).
  { rewrite length_app, length_firstn, length_skipn. lia. }
  generalize dependent (firstn from l ++ skipn (S from) l). intros w Hw.
  rewrite length_app. simpl.
  rewrite Nat.add_succ_r, <- length_app, firstn_skipn. lia.
Qed.

Lemma moveElement_lands (A : Type) (l : list A) (from to : nat) (a : A) :
  nth_error l from = Some a -> to < List.length l ->
  nth_error (moveElement l from to) to = Some a.
Proof.
  intros Ha Hto. unfold moveElement. rewrite Ha. cbv zeta.
  assert (Hlen : from < List.length l) by (apply nth_error_Some; congruence).
  assert (Hw : List.length (firstn from l ++ skipn (S from) l)
               = List.length l - 1).
  { rewrite length_app, length_firstn, length_skipn. lia. }
  rewrite nth_error_app2; rewrite length_firstn, Hw.
  - replace (to - Nat.min to (List.length l - 1)) with 0 by lia. reflexivity.
  - lia.
Qed.

Lemma moveElement_permutation (A : Type) (l : list A) (from to : nat) :
  Permutation (moveElement l from to) l.
Proof.
  unfold moveElement. destruct (nth_error l from) as [a|] eqn:E;
    [|apply Permutation_refl].
  cbv zeta. rewrite <- Permutation_middle, firstn_skipn.
  apply nth_error_split in E. destruct E as [l1 [l2 [-> Hl1]]].
  rewrite firstn_app, skipn_app, Hl1. subst from.
  rewrite Nat.sub_diag, firstn_all, firstn_O, app_nil_r.
  rewrite skipn_all2 by (simpl; lia).
  replace (S (List.length l1) - List.length l1) with 1 by lia. simpl.
  apply Permutation_middle.
Qed.

(** One drag-enter with both indices inside the list. *)
Lemma handleDragEnter_step (st : Editor.State) (source target : nat) :
  Editor.dragItem st = Some source ->
  source < List.length (Editor.blocks st) ->
  exists st',
    Editor.handleDragEnter target st = Some st'
    /\ Editor.blocks st'
       = (if source =? target then Editor.blocks st
          else moveElement (Editor.blocks st) source target)
    /\ Editor.dragItem st' = Some target.
Proof.
  intros Hs Hlen. unfold Editor.handleDragEnter. rewrite Hs.
  destruct (Nat.eqb_spec source target) as [->|Hne].
  - eexists. split; [reflexivity|]. simpl. auto.
  - destruct (nth_error (Editor.blocks st) source) as [a|] eqn:E.
    + eexists. split; [reflexivity|]. simpl. split; [|reflexivity].
      unfold moveElement, splice. rewrite E. cbv zeta.
      rewrite Nat.add_0_r, Nat.add_1_r. reflexivity.
    + apply nth_error_None in E. lia.
Qed.

(** C4.  A gesture that starts on the block at index [i] and enters the
    regions of the blocks at [targets], all of them indices of the list,
    handles every drag-enter (none leaves the list type), and ends with the
    list and the tracked index that the left fold of the moves gives: a
    target other than the tracked index moves the block there at once and
    becomes the tracked index, a target equal to it changes nothing. *)
Theorem drag_gesture_is_fold_of_moves (st : Editor.State) (i : nat)
  (targets : list nat) :
  i < List.length (Editor.blocks st) ->
  Forall (fun t => t < List.length (Editor.blocks st)) targets ->
  exists st',
    dragThrough targets (Editor.handleDragStart i st) = Some st'
    /\ Editor.blocks st' = fst (dragMoves targets (Editor.blocks st) i)
    /\ Editor.dragItem st'
       = Some (snd (dragMoves targets (Editor.blocks st) i)).
Proof.
  intros Hi Ht.
  assert (Hgen : forall ts s st0,
             Editor.dragItem st0 = Some s ->
             s < List.length (Editor.blocks st0) ->
             Forall (fun t => t < List.length (Editor.blocks st0)) ts ->
             exists st',
               dragThrough ts st0 = Some st'
               /\ Editor.blocks st' = fst (dragMoves ts (Editor.blocks st0) s)
               /\ Editor.dragItem st'
                  = Some (snd (dragMoves ts (Editor.blocks st0) s))).
  { induction ts as [|t ts IH]; intros s st0 Hs Hlen Hts.
    - exists st0. simpl. auto.
    - inversion Hts as [|? ? Htlen Hts']; subst.
      destruct (handleDragEnter_step st0 t Hs Hlen) as [st1 [He [Hb Hd]]].
      simpl. rewrite He.
      assert (Hsame : List.length (Editor.blocks st1)
                      = List.length (Editor.blocks st0)).
      { rewrite Hb. destruct (s =? t); [reflexivity|].
        apply moveElement_length. }
      destruct (IH t st1 Hd) as [st' [Hrun [Hbl Hdi]]].
      + rewrite Hsame. exact Htlen.
      + rewrite Hsame. exact Hts'.
      + exists st'. split; [exact Hrun|].
        rewrite Hbl, Hdi, Hb.
        destruct (Nat.eqb_spec s t) as [->|Hne]; auto. }
  apply (Hgen targets i (Editor.handleDragStart i st)); auto.
Qed.

Lemma drag_gesture_is_fold_of_moves_witness :
  exists st',
    dragThrough [1; 1; 3; 2]
      (Editor.handleDragStart 0 (editorOf [blockA; blockB; blockC; blockD]))
    = Some st'
    /\ Editor.blocks st' = [blockB; blockC; blockA; blockD]
    /\ Editor.dragItem st' = Some 2.
Proof.
  apply (drag_gesture_is_fold_of_moves
           (editorOf [blockA; blockB; blockC; blockD]) (i := 0)
           (targets := [1; 1; 3; 2])).
  - simpl. lia.
  - repeat constructor; simpl; lia.
Defined.

(** ** Home.tsx: the filter of the list view *)

Lemma startsWith_spec (s q : jsstring) :
  startsWith s q = true <-> exists post, s = q ++ post.
Proof.
  revert s. induction q as [|c q IH]; intros s; simpl.
  - split; [intros _; exists s; reflexivity | reflexivity].
  - destruct s as [|d s].
    + split; [discriminate | intros [post H]; discriminate].
    + rewrite andb_true_iff, N.eqb_eq, IH. split.
      * intros [-> [post ->]]. exists post. reflexivity.
      * intros [post H]. injection H as -> ->. split; [reflexivity|].
        exists post. reflexivity.
Qed.

Lemma includes_spec (s q : jsstring) :
  includes s q = true <-> occursIn q s.
Proof.
  unfold occursIn. induction s as [|d s IH].
  - simpl. rewrite orb_false_r, startsWith_spec. split.
    + intros [post H]. exists [], post. exact H.
    + intros [pre [post H]]. destruct pre; [|discriminate].
      exists post. exact H.
  - cbn [includes]. rewrite orb_true_iff, startsWith_spec, IH. split.
    + intros [[post H] | [pre [post H]]].
      * exists [], post. exact H.
      * exists (d :: pre), post. rewrite H. reflexivity.
    + intros [[|e pre] [post H]].
      * left. exists post. exact H.
      * right. injection H as _ H. exists pre, post. exact H.
Qed.

Lemma trimStart_nil (s : jsstring) : trimStart s = [] <-> blank s.
Proof.
  unfold blank. induction s as [|c s IH]; simpl.
  - split; [intros _ ? [] | reflexivity].
  - destruct (isWhiteSpace c) eqn:E.
    + rewrite IH. split.
      * intros H d [<- | Hd]; auto.
      * intros H d Hd. apply H. right. exact Hd.
    + split; [discriminate|]. intros H.
      rewrite (H c (or_introl eq_refl)) in E. discriminate.
Qed.

Lemma trimStart_head (s : jsstring) (c : N) (rest : jsstring) :
  trimStart s = c :: rest -> isWhiteSpace c = false.
Proof.
  induction s as [|d s IH]; simpl; [discriminate|].
  destruct (isWhiteSpace d) eqn:E; [exact IH|].
  intros H. injection H as <- _. exact E.
Qed.

Lemma trim_blank (s : jsstring) : truthy_string (trim s) = false <-> blank s.
Proof.
  assert (Hnil : forall t : jsstring, truthy_string t = false <-> t = []).
  { intros [|? ?]; simpl; split; congruence. }
  rewrite Hnil. unfold trim, trimEnd. split.
  - intros H. apply (f_equal (@rev N)) in H. rewrite rev_involutive in H.
    simpl in H. apply trimStart_nil in H.
    destruct (trimStart s) as [|c rest] eqn:E.
    + apply trimStart_nil. exact E.
    + apply trimStart_head in E.
      rewrite (H c) in E; [discriminate|].
      apply in_rev. rewrite rev_involutive. left. reflexivity.
  - intros H. apply trimStart_nil in H. rewrite H. reflexivity.
Qed.

Section FilterSpec.

Variable toLowerCase : jsstring -> jsstring.

Lemma matchesVisibility_spec (showHidden : bool) (n : Note) :
  Home.matchesVisibility showHidden n = true <-> shownIn showHidden n.
Proof.
  unfold Home.matchesVisibility, shownIn, Home.hidden.
  destruct showHidden, (Note.isHidden n) as [[|]|]; simpl;
    split; congruence.
Qed.

Lemma matchesSearch_spec (searchQuery : jsstring) (n : Note) :
  Home.matchesSearch toLowerCase searchQuery n = true
  <-> answers toLowerCase searchQuery n.
Proof.
  unfold Home.matchesSearch, answers.
  destruct (truthy_string (trim searchQuery)) eqn:E.
  - assert (Hnb : ~ blank searchQuery).
    { intros Hb. apply trim_blank in Hb. congruence. }
    rewrite orb_true_iff, includes_spec, existsb_exists. split.
    + intros [H | [b [Hin Hb]]]; [auto|].
      apply andb_true_iff in Hb. destruct Hb as [Ht Hc].
      right. right. exists b. rewrite <- includes_spec.
      destruct (Block.type b); try discriminate. auto.
    + intros [Hb | [H | [b [Hin [Ht Hc]]]]]; [contradiction | auto |].
      right. exists b. rewrite Ht. simpl. rewrite includes_spec. auto.
  - split; [|reflexivity]. intros _. left. apply trim_blank. exact E.
Qed.

End FilterSpec.

Lemma filter_partition (A : Type) (p q : A -> bool) (l : list A) :
  (forall a, q a = negb (p a)) ->
  Permutation (filter p l ++ filter q l) l.
Proof.
  intros H. induction l as [|a l IH]; simpl; [constructor|].
  rewrite H. destruct (p a); simpl.
  - constructor. exact IH.
  - rewrite <- Permutation_middle. constructor. exact IH.
Qed.

(** C2.  The list view is the input list filtered, in input order, by a test
    that holds of a note exactly when its hidden flag matches the mode and
    the query is blank or, lower-cased, occurs in the lower-cased title or
    in the lower-cased content of a text block.  Under a blank query the two
    modes split the collection: the two views together are a rearrangement
    of it and no note is in both. *)
Theorem filteredNotes_retains (toLowerCase : jsstring -> jsstring)
  (notes : list Note) (searchQuery : jsstring) :
  (forall showHidden,
      exists keep,
        Home.filteredNotes toLowerCase notes showHidden searchQuery
        = filter keep notes
        /\ (forall n, keep n = true <->
                      shownIn showHidden n /\ answers toLowerCase searchQuery n)
        /\ (forall n,
              In n (Home.filteredNotes toLowerCase notes showHidden searchQuery)
              <-> In n notes /\ shownIn showHidden n
                  /\ answers toLowerCase searchQuery n))
  /\ (blank searchQuery ->
      Permutation
        (Home.filteredNotes toLowerCase notes true searchQuery
         ++ Home.filteredNotes toLowerCase notes false searchQuery) notes
      /\ forall n,
          ~ (In n (Home.filteredNotes toLowerCase notes true searchQuery)
             /\ In n (Home.filteredNotes toLowerCase notes false searchQuery))).
Proof.
  assert (Hkeep : forall showHidden n,
             Home.matchesVisibility showHidden n
             && Home.matchesSearch toLowerCase searchQuery n = true
             <-> shownIn showHidden n /\ answers toLowerCase searchQuery n).
  { intros h n.
    rewrite andb_true_iff, matchesVisibility_spec, matchesSearch_spec.
    tauto. }
  split.
  - intros showHidden. eexists. split; [reflexivity|]. split.
    + apply Hkeep.
    + intros n. unfold Home.filteredNotes. rewrite filter_In, Hkeep. tauto.
  - intros Hblank. split.
    + apply filter_partition. intros n.
      assert (Hs : Home.matchesSearch toLowerCase searchQuery n = true).
      { apply matchesSearch_spec. left. exact Hblank. }
      rewrite Hs, !andb_true_r. reflexivity.
    + intros n [Hh Hd]. unfold Home.filteredNotes in Hh, Hd.
      apply filter_In in Hh, Hd. destruct Hh as [_ Hh], Hd as [_ Hd].
      apply Hkeep in Hh, Hd. destruct Hh as [Hh _], Hd as [Hd _].
      exact (Hd Hh).
Qed.

(** The specification's example (titles Alpha, beta, Gamma and the query
    "B"), and the split of the same notes under a blank query. *)
Lemma filteredNotes_retains_witness :
  Home.filteredNotes Home.asciiLowerCase [otherNote; gammaNote] false (str "B")
  = [otherNote]
  /\ Permutation
       (Home.filteredNotes Home.asciiLowerCase
          [alphaNote; otherNote; gammaNote] true (str "  ")
        ++ Home.filteredNotes Home.asciiLowerCase
             [alphaNote; otherNote; gammaNote] false (str "  "))
       [alphaNote; otherNote; gammaNote].
Proof.
  split; [reflexivity|].
  apply (filteredNotes_retains Home.asciiLowerCase
           [alphaNote; otherNote; gammaNote] (str "  ")).
  intros c [<- | [<- | []]]; reflexivity.
Defined.

(** ** Home.tsx: the order of the list view *)

Section StableSort.

Variable A : Type.
Variable compareFn : A -> A -> Z.

Lemma sort_insert_permutation (a : A) (l : list A) :
  Permutation (sort_insert compareFn a l) (a :: l).
Proof.
  induction l as [|b l IH]; simpl; [apply Permutation_refl|].
  destruct (compareFn a b <=? 0)%Z; [apply Permutation_refl|].
  rewrite IH. apply perm_swap.
Qed.

Lemma sort_permutation (l : list A) : Permutation (sort compareFn l) l.
Proof.
  induction l as [|a l IH]; simpl; [constructor|].
  rewrite sort_insert_permutation. constructor. exact IH.
Qed.

(** Insertion keeps, in their order, the elements selected by a test whose
    elements may all precede one another: the inserted element is never
    carried past one of them. *)
Lemma sort_insert_filter (p : A -> bool) (a : A) (l : list A) :
  (forall b, p a = true -> p b = true -> mayPrecede compareFn a b) ->
  filter p (sort_insert compareFn a l) = filter p (a :: l).
Proof.
  intros Hp. induction l as [|b l IH]; simpl; [reflexivity|].
  destruct (Z.leb_spec (compareFn a b) 0) as [Hle|Hgt]; [reflexivity|].
  simpl in *. rewrite IH.
  destruct (p a) eqn:Ea, (p b) eqn:Eb; try reflexivity.
  specialize (Hp b eq_refl Eb). unfold mayPrecede in Hp. lia.
Qed.

Lemma sort_stable (p : A -> bool) (l : list A) :
  (forall a b, p a = true -> p b = true -> mayPrecede compareFn a b) ->
  filter p (sort compareFn l) = filter p l.
Proof.
  intros Hp. induction l as [|a l IH]; simpl; [reflexivity|].
  rewrite sort_insert_filter by (intros b; apply Hp).
  simpl. rewrite IH. reflexivity.
Qed.

Hypothesis total :
  forall a b, mayPrecede compareFn a b \/ mayPrecede compareFn b a.
Hypothesis transitive :
  forall a b c,
    mayPrecede compareFn a b -> mayPrecede compareFn b c ->
    mayPrecede compareFn a c.

Lemma sort_insert_sorted (a : A) (l : list A) :
  StronglySorted (mayPrecede compareFn) l ->
  StronglySorted (mayPrecede compareFn) (sort_insert compareFn a l).
Proof.
  induction 1 as [|b l Hsorted IH Hall]; simpl.
  - repeat constructor.
  - destruct (Z.leb_spec (compareFn a b) 0) as [Hle|Hgt].
    + constructor; [constructor; assumption|].
      constructor; [exact Hle|].
      eapply Forall_impl; [|exact Hall].
      intros c Hbc. eapply transitive; eassumption.
    + constructor; [exact IH|].
      eapply Permutation_Forall;
        [apply Permutation_sym, sort_insert_permutation|].
      constructor; [|exact Hall].
      destruct (total a b) as [Hab|Hba]; [|exact Hba].
      unfold mayPrecede in Hab. lia.
Qed.

Lemma sort_sorted (l : list A) :
  StronglySorted (mayPrecede compareFn) (sort compareFn l).
Proof.
  induction l as [|a l IH]; simpl; [constructor|].
  apply sort_insert_sorted, IH.
Qed.

(** The sort is the only arrangement that is ordered and stable: two ordered
    lists that agree on every class of ties are one list. *)
Lemma sorted_stable_unique (tie : A -> A -> bool) (l1 l2 : list A) :
  (forall a, tie a a = true) ->
  (forall a b,
      mayPrecede compareFn a b -> mayPrecede compareFn b a ->
      tie a b = true) ->
  StronglySorted (mayPrecede compareFn) l1 ->
  StronglySorted (mayPrecede compareFn) l2 ->
  (forall a, filter (tie a) l1 = filter (tie a) l2) ->
  l1 = l2.
Proof.
  intros Hrefl Hanti Hs1. revert l2.
  induction Hs1 as [|a l1 Hs1 IH Hall1]; intros l2 Hs2 Hf.
  - destruct l2 as [|b l2]; [reflexivity|].
    specialize (Hf b). simpl in Hf. rewrite Hrefl in Hf. discriminate.
  - destruct Hs2 as [|b l2 Hs2 Hall2].
    + specialize (Hf a). simpl in Hf. rewrite Hrefl in Hf. discriminate.
    + assert (Hab : tie a b = true).
      { apply Hanti.
        - assert (Hin : In b (a :: l1)).
          { apply (proj1 (filter_In (tie b) b (a :: l1))).
            rewrite Hf. simpl. rewrite Hrefl. left. reflexivity. }
          destruct Hin as [<- | Hin].
          + destruct (total a a); assumption.
          + rewrite Forall_forall in Hall1. apply Hall1, Hin.
        - assert (Hin : In a (b :: l2)).
          { apply (proj1 (filter_In (tie a) a (b :: l2))).
            rewrite <- Hf. simpl. rewrite Hrefl. left. reflexivity. }
          destruct Hin as [<- | Hin].
          + destruct (total b b); assumption.
          + rewrite Forall_forall in Hall2. apply Hall2, Hin. }
      assert (Heq : a = b).
      { specialize (Hf a). simpl in Hf. rewrite Hrefl, Hab in Hf.
        congruence. }
      subst b. f_equal. apply IH; [exact Hs2|].
      intros c. specialize (Hf c). simpl in Hf.
      destruct (tie c a); congruence.
Qed.

End StableSort.

Lemma StronglySorted_nth_error (A : Type) (R : A -> A -> Prop) (l : list A) :
  StronglySorted R l ->
  forall i j a b,
    i < j -> nth_error l i = Some a -> nth_error l j = Some b -> R a b.
Proof.
  induction 1 as [|x l Hs IH Hall]; intros i j a b Hij Hi Hj.
  - destruct i; discriminate.
  - destruct j as [|j]; [lia|]. simpl in Hj. destruct i as [|i]; simpl in Hi.
    + injection Hi as <-. rewrite Forall_forall in Hall.
      eapply Hall, nth_error_In, Hj.
    + apply (IH i j); [lia | assumption | assumption].
Qed.

Lemma compareNotes_spec (a b : Note) :
  mayPrecede Home.compareNotes a b <->
  (Note.isPinned a = true /\ Note.isPinned b = false)
  \/ (Note.isPinned a = Note.isPinned b
      /\ (Note.updatedAt b <= Note.updatedAt a)%Z).
Proof.
  unfold mayPrecede, Home.compareNotes.
  destruct (Note.isPinned a), (Note.isPinned b); simpl;
    intuition (try discriminate; try lia).
Qed.

Lemma tie_spec (a b : Note) :
  tie a b = true <->
  Note.isPinned a = Note.isPinned b /\ Note.updatedAt a = Note.updatedAt b.
Proof.
  unfold tie. rewrite andb_true_iff, Bool.eqb_true_iff, Z.eqb_eq. tauto.
Qed.

(** C3.  The sorted view is a rearrangement of its input in which, of two
    notes [a] before [b], [b] is pinned only if [a] is and, when they share
    the pin state, [b] is not newer than [a]; the notes that tie with a given
    note on pin state and [updatedAt] stand in their input order.  It is the
    only arrangement of the input with these properties. *)
Theorem sortedNotes_order (notes : list Note) :
  let view := Home.sortedNotes notes in
  Permutation view notes
  /\ (forall i j a b,
        i < j -> nth_error view i = Some a -> nth_error view j = Some b ->
        (Note.isPinned b = true -> Note.isPinned a = true)
        /\ (Note.isPinned a = Note.isPinned b ->
            (Note.updatedAt b <= Note.updatedAt a)%Z))
  /\ (forall n, filter (tie n) view = filter (tie n) notes)
  /\ (forall other,
        StronglySorted (mayPrecede Home.compareNotes) other ->
        (forall n, filter (tie n) other = filter (tie n) notes) ->
        other = view).
Proof.
  assert (Htotal : forall a b, mayPrecede Home.compareNotes a b
                               \/ mayPrecede Home.compareNotes b a).
  { intros a b. rewrite !compareNotes_spec.
    destruct (Note.isPinned a), (Note.isPinned b);
      destruct (Z.le_ge_cases (Note.updatedAt a) (Note.updatedAt b)); auto. }
  assert (Htrans : forall a b c, mayPrecede Home.compareNotes a b ->
                                 mayPrecede Home.compareNotes b c ->
                                 mayPrecede Home.compareNotes a c).
  { intros a b c. rewrite !compareNotes_spec.
    destruct (Note.isPinned a), (Note.isPinned b), (Note.isPinned c);
      intuition (try discriminate; try lia). }
  assert (Hstable : forall n, filter (tie n) (Home.sortedNotes notes)
                              = filter (tie n) notes).
  { intros n. apply sort_stable. intros a b Ha Hb.
    apply tie_spec in Ha, Hb. apply compareNotes_spec. right.
    destruct Ha as [Hpa Hua], Hb as [Hpb Hub]. split; [congruence | lia]. }
  intros view. subst view. split; [apply sort_permutation|].
  split; [|split; [exact Hstable|]].
  - intros i j a b Hij Hi Hj.
    pose proof (StronglySorted_nth_error
                  (sort_sorted Htotal Htrans notes) Hij Hi Hj) as Hab.
    apply compareNotes_spec in Hab.
    destruct Hab as [[Ha Hb] | [Hp Hu]].
    + split; [congruence|]. intros Heq. congruence.
    + split; [congruence | intros _; exact Hu].
  - intros other Hsorted Hties.
    apply (sorted_stable_unique (compareFn := Home.compareNotes) Htotal tie).
    + intros a. apply tie_spec. auto.
    + intros a b Hab Hba. apply compareNotes_spec in Hab, Hba.
      apply tie_spec.
      destruct Hab as [[? ?] | [? ?]], Hba as [[? ?] | [? ?]];
        split; try congruence; lia.
    + exact Hsorted.
    + apply sort_sorted; assumption.
    + intros a. rewrite Hties, Hstable. reflexivity.
Qed.

Example sortedNotes_example :
  Home.sortedNotes [otherNote; tripNote; alphaNote; gammaNote]
  = [gammaNote; tripNote; alphaNote; otherNote].
Proof. reflexivity. Qed.

(** ** DrawingCanvas.tsx: the order of the replay *)

Section Replay.

Variable Pixel : Type.
Variable covers : DrawingCanvas.Context -> list Point -> Pixel -> bool.
Variable isColor : jsstring -> bool.

Local Abbreviation Bitmap := (DrawingCanvas.Bitmap Pixel).
Local Abbreviation pathContext := (DrawingCanvas.pathContext isColor).
Local Abbreviation forEachPath := (DrawingCanvas.forEachPath covers isColor).
Local Abbreviation renderCanvas := (DrawingCanvas.renderCanvas covers isColor).
Local Abbreviation stroke := (DrawingCanvas.stroke covers).

Lemma renderPath_cases (p : DrawingPath)
  (ctx : DrawingCanvas.Context) (bm : Bitmap) :
  DrawingCanvas.renderPath covers isColor p (ctx, bm)
  = if renderable p
    then (afterStroke (pathContext p ctx),
          stroke (pathContext p ctx) (DrawingPath.points p) bm)
    else (ctx, bm).
Proof.
  unfold DrawingCanvas.renderPath, renderable. simpl.
  destruct (List.length (DrawingPath.points p)) as [|[|n]]; reflexivity.
Qed.

Lemma forEachPath_strokes (paths : list DrawingPath)
  (ctx : DrawingCanvas.Context) (bm : Bitmap) :
  snd (forEachPath paths (ctx, bm))
  = fold_left (paint covers) (strokes isColor paths ctx) bm.
Proof.
  revert ctx bm. induction paths as [|p rest IH]; intros ctx bm;
    [reflexivity|].
  unfold DrawingCanvas.forEachPath in *. simpl.
  rewrite renderPath_cases. destruct (renderable p); apply IH.
Qed.

Lemma strokes_app (pre post : list DrawingPath)
  (ctx : DrawingCanvas.Context) (bm : Bitmap) :
  strokes isColor (pre ++ post) ctx
  = strokes isColor pre ctx
    ++ strokes isColor post (fst (forEachPath pre (ctx, bm))).
Proof.
  revert ctx bm. induction pre as [|p pre IH]; intros ctx bm; [reflexivity|].
  unfold DrawingCanvas.forEachPath in *. simpl.
  rewrite renderPath_cases. destruct (renderable p); simpl.
  - f_equal. apply IH.
  - apply IH.
Qed.

Lemma strokes_operations (paths : list DrawingPath)
  (ctx : DrawingCanvas.Context) :
  map (fun s => (DrawingCanvas.globalCompositeOperation (fst s), snd s))
    (strokes isColor paths ctx)
  = map (fun p => (if erasing p then DrawingCanvas.destination_out
                   else DrawingCanvas.source_over, DrawingPath.points p))
      (filter renderable paths).
Proof.
  revert ctx. induction paths as [|p rest IH]; intros ctx; [reflexivity|].
  simpl. destruct (renderable p); [|apply IH].
  simpl. rewrite IH. f_equal. f_equal.
  unfold DrawingCanvas.pathContext, erasing.
  destruct (streq (DrawingPath.color p) (str "eraser")).
  - unfold DrawingCanvas.set_lineWidth.
    destruct (0 <? _)%Z; reflexivity.
  - unfold DrawingCanvas.set_lineWidth, DrawingCanvas.set_shadowColor,
      DrawingCanvas.set_shadowBlur, DrawingCanvas.set_strokeStyle.
    destruct (0 <? _)%Z, (isColor (DrawingPath.color p)); reflexivity.
Qed.

Lemma pathContext_pen_colour (p : DrawingPath) (ctx : DrawingCanvas.Context) :
  erasing p = false -> isColor (DrawingPath.color p) = true ->
  DrawingCanvas.strokeStyle (pathContext p ctx) = DrawingPath.color p.
Proof.
  unfold erasing, DrawingCanvas.pathContext. intros -> Hc.
  unfold DrawingCanvas.set_lineWidth, DrawingCanvas.set_shadowColor,
    DrawingCanvas.set_shadowBlur, DrawingCanvas.set_strokeStyle.
  rewrite Hc. destruct (0 <? _)%Z; reflexivity.
Qed.

Lemma paint_missing (later : list (DrawingCanvas.Context * list Point))
  (bm : Bitmap) (px : Pixel) :
  Forall (misses covers px) later ->
  fold_left (paint covers) later bm px = bm px.
Proof.
  revert bm. induction later as [|s later IH]; intros bm H; [reflexivity|].
  inversion H as [|? ? Hs Hl]; subst. simpl. rewrite IH by exact Hl.
  unfold paint, DrawingCanvas.stroke. unfold misses in Hs. rewrite Hs.
  reflexivity.
Qed.

(** C7.  [renderCanvas] paints onto a cleared bitmap the strokes of the
    paths with two points or more, one per path and in list order, a path
    with the eraser colour under destination-out and any other under
    source-over.  So, for a stroked path [p] and a pixel that no stroke after
    [p] touches: if [p] is a pen path that touches the pixel, the pixel shows
    the stroke's colour (the path's colour, when that is a colour), whatever
    the paths before [p] did there; if [p] is an eraser path, the pixel is
    transparent where [p] touches it and is what the paths before [p] made
    of it where [p] does not. *)
Theorem renderCanvas_replays_in_order (s : DrawingCanvas.Context * Bitmap) :
  let start := (DrawingCanvas.set_round (fst s),
                DrawingCanvas.clearRect (Pixel := Pixel)) in
  (forall paths,
      snd (renderCanvas paths s)
      = fold_left (paint covers) (strokes isColor paths (fst start))
          (snd start)
      /\ map (fun s => (DrawingCanvas.globalCompositeOperation (fst s), snd s))
           (strokes isColor paths (fst start))
         = map (fun p => (if erasing p then DrawingCanvas.destination_out
                          else DrawingCanvas.source_over,
                          DrawingPath.points p))
             (filter renderable paths))
  /\ (forall pre p post px,
        let ctx := pathContext p (fst (forEachPath pre start)) in
        renderable p = true ->
        Forall (misses covers px) (strokes isColor post (afterStroke ctx)) ->
        (erasing p = false ->
         covers ctx (DrawingPath.points p) px = true ->
         snd (renderCanvas (pre ++ p :: post) s) px
         = Some (DrawingCanvas.strokeStyle ctx)
         /\ (isColor (DrawingPath.color p) = true ->
             DrawingCanvas.strokeStyle ctx = DrawingPath.color p))
        /\ (erasing p = true ->
            snd (renderCanvas (pre ++ p :: post) s) px
            = if covers ctx (DrawingPath.points p) px then None
              else snd (renderCanvas pre s) px)).
Proof.
  intros start. split.
  - intros paths. split.
    + apply forEachPath_strokes.
    + apply strokes_operations.
  - intros pre p post px ctx Hr Hlater. subst start.
    set (ctx0 := DrawingCanvas.set_round (fst s)) in *.
    set (clear := DrawingCanvas.clearRect (Pixel := Pixel)) in *.
    assert (Hpx : snd (renderCanvas (pre ++ p :: post) s) px
                  = stroke ctx (DrawingPath.points p)
                      (snd (renderCanvas pre s)) px).
    { unfold DrawingCanvas.renderCanvas. fold ctx0 clear.
      rewrite forEachPath_strokes.
      rewrite (strokes_app pre (p :: post) ctx0 clear).
      rewrite fold_left_app. simpl. rewrite Hr. simpl.
      rewrite paint_missing by exact Hlater.
      unfold paint. simpl. rewrite <- forEachPath_strokes. reflexivity. }
    assert (Hop : DrawingCanvas.globalCompositeOperation ctx
                  = if erasing p then DrawingCanvas.destination_out
                    else DrawingCanvas.source_over).
    { pose proof (strokes_operations [p]
                    (fst (forEachPath pre (ctx0, clear)))) as H.
      simpl in H. rewrite Hr in H. simpl in H.
      injection H as H. exact H. }
    split.
    + intros Hpen Hcov. split.
      * rewrite Hpx. unfold DrawingCanvas.stroke.
        rewrite Hcov, Hop, Hpen. reflexivity.
      * apply pathContext_pen_colour, Hpen.
    + intros Herase. rewrite Hpx. unfold DrawingCanvas.stroke.
      rewrite Hop, Herase. reflexivity.
Qed.

End Replay.

(** The specification's example: A is erased where B lies over it, C is
    whole although it crosses B; a one-point path does nothing. *)
Lemma renderCanvas_replays_in_order_witness :
  rendered [pathA; pathB; pathC; tapPath] (Point.mk (whole 1) (whole 1)) = None
  /\ rendered [pathA; pathB; pathC; tapPath] (Point.mk (whole 2) (whole 2))
     = Some (str "#e879f9")
  /\ rendered [pathA; pathB; pathC; tapPath] (Point.mk (whole 3) (whole 3))
     = Some (str "#e879f9").
Proof.
  pose proof (renderCanvas_replays_in_order vertexCovers hashColor
                (blankContext, fun _ => Some (str "#123456"))) as [_ H].
  split; [|split].
  - destruct (H [pathA] pathB [pathC; tapPath] (Point.mk (whole 1) (whole 1))
                eq_refl) as [_ He].
    + repeat constructor.
    + exact (He eq_refl).
  - destruct (H [pathA; pathB] pathC [tapPath] (Point.mk (whole 2) (whole 2))
                eq_refl) as [Hp _].
    + repeat constructor.
    + exact (proj1 (Hp eq_refl eq_refl)).
  - destruct (H [pathA; pathB] pathC [tapPath] (Point.mk (whole 3) (whole 3))
                eq_refl) as [Hp _].
    + repeat constructor.
    + exact (proj1 (Hp eq_refl eq_refl)).
Defined.

(** ** App.tsx: saving the collection and loading it back *)

Section Traverse.

Variables A B : Type.
Variable write : A -> JSON.value.
Variable read : JSON.value -> option B.
Variable back : A -> B.
Variable ok : A -> bool.

Hypothesis read_write : forall a, ok a = true -> read (write a) = Some (back a).

Lemma traverse_map (l : list A) :
  forallb ok l = true ->
  JSON.traverse read (map write l) = Some (map back l).
Proof.
  induction l as [|a l IH]; simpl; [reflexivity|].
  intros [Ha Hl]%andb_true_iff.
  rewrite (read_write Ha). simpl. rewrite (IH Hl). reflexivity.
Qed.

End Traverse.

Lemma sameList_map (A : Type) (same : A -> A -> bool) (back : A -> A)
  (ok : A -> bool) (l : list A) :
  (forall a, ok a = true -> same (back a) a = true) ->
  forallb ok l = true -> sameList same (map back l) l = true.
Proof.
  intros H. induction l as [|a l IH]; simpl; [reflexivity|].
  intros [Ha Hl]%andb_true_iff.
  rewrite (H a Ha), (IH Hl). reflexivity.
Qed.

Lemma toDouble_ofDouble (f : spec_float) :
  finite f = true -> JSON.toDouble (JSON.ofDouble f) = Some (reread f).
Proof. destruct f; simpl; congruence. Qed.

Lemma SFeqb_reread (f : spec_float) :
  finite f = true -> SFeqb (reread f) f = true.
Proof.
  destruct f as [s|s| |s m e]; simpl; try discriminate; intros _;
    try reflexivity.
  unfold SFeqb, SFcompare. rewrite Z.compare_refl.
  change (PosDef.Pos.compare_cont Eq m m) with (Pos.compare m m).
  rewrite Pos.compare_refl. destruct s; reflexivity.
Qed.

Lemma toPoint_ofPoint (p : Point) :
  validPoint p = true -> JSON.toPoint (JSON.ofPoint p) = Some (rereadPoint p).
Proof.
  destruct p as [x y]. unfold validPoint. simpl.
  intros [Hx Hy]%andb_true_iff.
  unfold JSON.toPoint, JSON.ofPoint, JSON.required. simpl.
  rewrite (toDouble_ofDouble _ Hx), (toDouble_ofDouble _ Hy). reflexivity.
Qed.

Lemma toDrawingPath_ofDrawingPath (d : DrawingPath) :
  validPath d = true ->
  JSON.toDrawingPath (JSON.ofDrawingPath d) = Some (rereadPath d).
Proof.
  destruct d as [pts c w]. unfold validPath. simpl. intros H.
  unfold JSON.toDrawingPath, JSON.ofDrawingPath, JSON.required. simpl.
  rewrite (@traverse_map _ _ _ _ _ _ toPoint_ofPoint _ H). reflexivity.
Qed.

Lemma toBlock_ofBlock (b : Block) :
  validBlock b = true -> JSON.toBlock (JSON.ofBlock b) = Some (rereadBlock b).
Proof.
  destruct b as [id ty c w h ds]. unfold validBlock. simpl.
  intros [[Hw Hh]%andb_true_iff Hds]%andb_true_iff.
  assert (Hty : JSON.toBlockType (JSON.ofBlockType ty) = Some ty)
    by (destruct ty; reflexivity).
  unfold JSON.toBlock, JSON.ofBlock, JSON.required, JSON.optionally.
  unfold rereadBlock.
  destruct w as [w|], h as [h|], ds as [ds|]; simpl in *;
    rewrite Hty; simpl;
    rewrite ?(toDouble_ofDouble _ Hw), ?(toDouble_ofDouble _ Hh); simpl;
    rewrite ?(@traverse_map _ _ _ _ _ _ toDrawingPath_ofDrawingPath _ Hds);
    reflexivity.
Qed.

Lemma toNote_ofNote (n : Note) :
  validNote n = true -> JSON.toNote (JSON.ofNote n) = Some (rereadNote n).
Proof.
  destruct n as [id title c u bs pinned hidden theme]. unfold validNote.
  simpl. intros H.
  assert (Hth : forall t, JSON.toTheme (JSON.ofTheme t) = Some t)
    by (intros []; reflexivity).
  unfold JSON.toNote, JSON.ofNote, JSON.required, JSON.optionally.
  unfold rereadNote.
  destruct hidden as [hidden|], theme as [theme|]; simpl;
    rewrite (@traverse_map _ _ _ _ _ _ toBlock_ofBlock _ H); simpl;
    rewrite ?Hth; reflexivity.
Qed.

Lemma parse_stringify (notes : list Note) :
  validNotes notes = true ->
  JSON.parse (JSON.stringify notes) = Some (map rereadNote notes).
Proof.
  intros H. unfold JSON.parse, JSON.stringify. simpl.
  apply (@traverse_map _ _ _ _ _ _ toNote_ofNote _ H).
Qed.

Lemma sameOption_refl (A : Type) (same : A -> A -> bool) (o : option A) :
  (forall a, same a a = true) -> sameOption same o o = true.
Proof. intros H. destruct o; simpl; auto. Qed.

Lemma samePoint_reread (p : Point) :
  validPoint p = true -> samePoint (rereadPoint p) p = true.
Proof.
  unfold validPoint, samePoint. simpl. intros [Hx Hy]%andb_true_iff.
  rewrite (SFeqb_reread _ Hx), (SFeqb_reread _ Hy). reflexivity.
Qed.

Lemma samePath_reread (d : DrawingPath) :
  validPath d = true -> samePath (rereadPath d) d = true.
Proof.
  unfold validPath, samePath. simpl. intros H.
  rewrite (sameList_map samePoint rereadPoint validPoint _ samePoint_reread H).
  rewrite streq_refl, Z.eqb_refl. reflexivity.
Qed.

Lemma sameBlock_reread (b : Block) :
  validBlock b = true -> sameBlock (rereadBlock b) b = true.
Proof.
  unfold validBlock, sameBlock. simpl.
  intros [[Hw Hh]%andb_true_iff Hds]%andb_true_iff.
  rewrite !streq_refl.
  assert (Hty : BlockType_eqb (Block.type b) (Block.type b) = true)
    by (destruct (Block.type b); reflexivity).
  rewrite Hty. simpl.
  destruct (Block.width b) as [w|], (Block.height b) as [h|],
    (Block.drawings b) as [ds|]; simpl in *;
    rewrite ?(SFeqb_reread _ Hw), ?(SFeqb_reread _ Hh),
      ?(sameList_map samePath rereadPath validPath _ samePath_reread Hds);
    reflexivity.
Qed.

Lemma sameNote_reread (n : Note) :
  validNote n = true -> sameNote (rereadNote n) n = true.
Proof.
  unfold validNote, sameNote. simpl. intros H.
  rewrite (sameList_map sameBlock rereadBlock validBlock _ sameBlock_reread H).
  rewrite !streq_refl, !Z.eqb_refl, Bool.eqb_reflx. simpl.
  rewrite !sameOption_refl; [reflexivity | intros []; reflexivity |].
  intros a. apply Bool.eqb_reflx.
Qed.

(** C1.  After the save effect has written a valid collection (and, on a
    device, the write to the file went through), the load effect reads back
    a collection that is equal to it field for field; the same holds of
    [JSON.parse] after [JSON.stringify] alone.  The empty collection is
    valid. *)
Theorem save_then_load_roundtrip (notes : list Note) (native written : bool)
  (store : App.Storage) :
  validNotes notes = true ->
  (native = true -> written = true) ->
  exists loaded,
    App.loadData native (App.persistData native written notes store)
    = Some loaded
    /\ JSON.parse (JSON.stringify notes) = Some loaded
    /\ sameNotes loaded notes = true.
Proof.
  intros Hvalid Hwritten. exists (map rereadNote notes).
  pose proof (parse_stringify notes Hvalid) as Hparse.
  split; [|split].
  - unfold App.loadData, App.persistData. simpl.
    destruct native; simpl; [rewrite Hwritten by reflexivity; simpl|];
      exact Hparse.
  - exact Hparse.
  - apply (sameList_map sameNote rereadNote validNote _ sameNote_reread Hvalid).
Qed.

Lemma save_then_load_roundtrip_witness :
  (exists loaded,
      App.loadData true
        (App.persistData true true [tripNote; sketchNote] emptyStore)
      = Some loaded
      /\ JSON.parse (JSON.stringify [tripNote; sketchNote]) = Some loaded
      /\ sameNotes loaded [tripNote; sketchNote] = true)
  /\ (exists loaded,
      App.loadData false (App.persistData false false [] emptyStore)
      = Some loaded
      /\ JSON.parse (JSON.stringify []) = Some loaded
      /\ sameNotes loaded [] = true).
Proof.
  split.
  - apply (save_then_load_roundtrip [tripNote; sketchNote] (native := true)
             (written := true) emptyStore); reflexivity.
  - apply (save_then_load_roundtrip [] (native := false) (written := false)
             emptyStore); [reflexivity | discriminate].
Defined.

(** A coordinate that is not a number does not survive: it is written as
    [null], and what is read back is not a point. *)
Example nan_point_is_lost :
  JSON.ofPoint (Point.mk S754_nan (whole 1))
  = JSON.JObject [("x"%string, JSON.JNull);
                  ("y"%string, JSON.JDouble (whole 1))]
  /\ JSON.toPoint (JSON.ofPoint (Point.mk S754_nan (whole 1))) = None.
Proof. split; reflexivity. Qed.

(** The specification's scenario: a note titled Trip with one text block,
    saved and loaded on the web. *)
Example trip_scenario :
  App.loadData false (App.persistData false false [tripNote] emptyStore)
  = Some [tripNote].
Proof. reflexivity. Qed.

(* ================================================================== *)
(** * Part IV: further properties of the code *)
(* ================================================================== *)

(** ** Writing an element of an array *)

Lemma assign_cons (A : Type) (i : nat) (x y : A) (l : list A) :
  assign (S i) x (y :: l) = y :: assign i x l.
Proof. reflexivity. Qed.

Lemma assign_nth (A : Type) (l : list A) (i : nat) (x : A) :
  i < List.length l -> nth_error (assign i x l) i = Some x.
Proof.
  revert i. induction l as [|y l IH]; intros [|i] H; simpl in H; try lia.
  - reflexivity.
  - rewrite assign_cons. simpl. apply IH. lia.
Qed.

Lemma assign_other (A : Type) (l : list A) (i j : nat) (x : A) :
  i <> j -> nth_error (assign i x l) j = nth_error l j \/ List.length l <= i.
Proof.
  revert i j. induction l as [|y l IH]; intros i j Hij.
  - right. simpl. lia.
  - destruct i as [|i].
    + left. destruct j; [congruence | reflexivity].
    + rewrite assign_cons. destruct j as [|j]; [left; reflexivity|].
      simpl. destruct (IH i j) as [H|H]; [congruence | auto |].
      right. lia.
Qed.

Lemma assign_length (A : Type) (l : list A) (i : nat) (x : A) :
  i < List.length l -> List.length (assign i x l) = List.length l.
Proof.
  revert i. induction l as [|y l IH]; intros [|i] H; simpl in H; try lia.
  - reflexivity.
  - rewrite assign_cons. simpl. rewrite IH; lia.
Qed.

Lemma assign_assign (A : Type) (l : list A) (i : nat) (x y : A) :
  i < List.length l -> assign i y (assign i x l) = assign i y l.
Proof.
  revert i. induction l as [|z l IH]; intros [|i] H; simpl in H; try lia.
  - reflexivity.
  - rewrite !assign_cons. f_equal. apply IH. lia.
Qed.

Lemma assign_same (A : Type) (l : list A) (i : nat) (a : A) :
  nth_error l i = Some a -> assign i a l = l.
Proof.
  revert i. induction l as [|z l IH]; intros [|i] H; simpl in H;
    try discriminate.
  - injection H as ->. reflexivity.
  - rewrite assign_cons. f_equal. apply IH, H.
Qed.

Lemma assign_map (A B : Type) (f : A -> B) (l : list A) (i : nat) (a x : A) :
  nth_error l i = Some a -> f x = f a -> map f (assign i x l) = map f l.
Proof.
  revert i. induction l as [|z l IH]; intros [|i] H Hf; simpl in H;
    try discriminate.
  - injection H as ->. unfold assign. simpl. rewrite Hf. reflexivity.
  - rewrite assign_cons. simpl. f_equal. apply IH; assumption.
Qed.

(** ** Lists with pairwise distinct keys *)

Section DistinctKeys.

Variable A : Type.
Variable key : A -> jsstring.

Lemma unique_key_find (l : list A) (i : nat) (a : A) :
  NoDup (map key l) -> nth_error l i = Some a ->
  find (fun b => streq (key b) (key a)) l = Some a.
Proof.
  revert i. induction l as [|x l IH]; intros [|i] Hnd Hi; simpl in *;
    try discriminate; inversion Hnd as [|? ? Hnotin Hnd']; subst.
  - injection Hi as ->. rewrite streq_refl. reflexivity.
  - assert (Hx : streq (key x) (key a) = false).
    { apply streq_neq. intros Heq. apply Hnotin. rewrite Heq.
      apply in_map. eapply nth_error_In, Hi. }
    rewrite Hx. apply (IH i Hnd' Hi).
Qed.

Lemma unique_key_replace (l : list A) (i : nat) (a x : A) :
  NoDup (map key l) -> nth_error l i = Some a ->
  map (fun b => if streq (key b) (key a) then x else b) l
  = firstn i l ++ x :: skipn (S i) l.
Proof.
  revert i. induction l as [|y l IH]; intros [|i] Hnd Hi; simpl in *;
    try discriminate; inversion Hnd as [|? ? Hnotin Hnd']; subst.
  - injection Hi as ->. rewrite streq_refl. f_equal.
    apply map_no_match. intros b Hb. apply streq_neq.
    intros Heq. apply Hnotin. rewrite <- Heq. apply in_map, Hb.
  - assert (Hy : streq (key y) (key a) = false).
    { apply streq_neq. intros Heq. apply Hnotin. rewrite Heq.
      apply in_map. eapply nth_error_In, Hi. }
    rewrite Hy. f_equal. apply (IH i Hnd' Hi).
Qed.

Lemma remove_at_permutation (l : list A) (i : nat) (a : A) :
  nth_error l i = Some a ->
  Permutation (a :: firstn i l ++ skipn (S i) l) l.
Proof.
  intros Hi. apply nth_error_split in Hi.
  destruct Hi as [l1 [l2 [-> <-]]].
  rewrite firstn_app, skipn_app, Nat.sub_diag, firstn_all, firstn_O.
  rewrite app_nil_r, skipn_all2 by (simpl; lia).
  replace (S (List.length l1) - List.length l1) with 1 by lia. simpl.
  apply Permutation_middle.
Qed.

Lemma remove_at_keys (l : list A) (i : nat) (a : A) :
  NoDup (map key l) -> nth_error l i = Some a ->
  NoDup (map key (firstn i l ++ skipn (S i) l))
  /\ ~ In (key a) (map key (firstn i l ++ skipn (S i) l)).
Proof.
  intros Hnd Hi.
  pose proof (Permutation_map key (remove_at_permutation l i Hi)) as Hp.
  apply Permutation_sym in Hp.
  pose proof (Permutation_NoDup Hp Hnd) as Hnd'. simpl in Hnd'.
  inversion Hnd'; subst. auto.
Qed.

End DistinctKeys.

(** ** App.tsx: deleting a note, undoing, expiry *)

(** The state after [handleDeleteNote] on the id of the note at index [i] of
    a collection with distinct ids. *)
Lemma handleDeleteNote_at (st : App.State) (i : nat) (n : Note)
  (timer : nat) :
  NoDup (map Note.id (App.notes st)) ->
  nth_error (App.notes st) i = Some n ->
  App.handleDeleteNote (Note.id n) timer st
  = App.mkState
      (if App.activeNote_is st (Note.id n) then App.home else App.view st)
      (firstn i (App.notes st) ++ skipn (S i) (App.notes st))
      (if App.activeNote_is st (Note.id n) then None else App.activeNote st)
      (Some n) (Some timer).
Proof.
  intros Hnd Hi. unfold App.handleDeleteNote.
  rewrite (unique_key_find Note.id _ _ Hnd Hi).
  destruct (unique_key_lookup Note.id _ _ Hnd Hi) as [_ ->]. reflexivity.
Qed.

(** X1.  Deleting the note at index [i] of a collection with distinct ids
    takes that note out and leaves the others in place, puts the note in the
    undo slot under the new timer, and, when the note was the one open in
    the editor, closes the editor and returns to the home view; otherwise
    the view and the open note stay. *)
Theorem handleDeleteNote_removes (st : App.State) (i : nat) (n : Note)
  (timer : nat) :
  NoDup (map Note.id (App.notes st)) ->
  nth_error (App.notes st) i = Some n ->
  let st' := App.handleDeleteNote (Note.id n) timer st in
  App.notes st' = firstn i (App.notes st) ++ skipn (S i) (App.notes st)
  /\ (forall m, In m (App.notes st') -> Note.id m <> Note.id n)
  /\ App.deletedNote st' = Some n
  /\ App.undoTimer st' = Some timer
  /\ (forall a, App.activeNote st = Some a -> Note.id a = Note.id n ->
      App.view st' = App.home /\ App.activeNote st' = None)
  /\ ((forall a, App.activeNote st = Some a -> Note.id a <> Note.id n) ->
      App.view st' = App.view st /\ App.activeNote st' = App.activeNote st).
Proof.
  intros Hnd Hi st'. subst st'. rewrite (handleDeleteNote_at _ _ timer Hnd Hi).
  simpl. split; [reflexivity|]. split; [|split; [reflexivity|]].
  - intros m Hm Heq.
    destruct (remove_at_keys Note.id _ _ Hnd Hi) as [_ Hnot].
    apply Hnot. rewrite <- Heq. apply in_map, Hm.
  - split; [reflexivity|]. unfold App.activeNote_is. split.
    + intros a Ha Hid. rewrite Ha, Hid, streq_refl. auto.
    + intros Hother. destruct (App.activeNote st) as [a|]; [|auto].
      specialize (Hother a eq_refl). apply streq_neq in Hother.
      rewrite Hother. auto.
Qed.

Lemma handleDeleteNote_removes_witness :
  App.notes (App.handleDeleteNote (str "n1") 7
               (App.handleSelectNote tripNote
                  (homeState [otherNote; tripNote; alphaNote])))
  = [otherNote; alphaNote]
  /\ App.view (App.handleDeleteNote (str "n1") 7
                 (App.handleSelectNote tripNote
                    (homeState [otherNote; tripNote; alphaNote])))
     = App.home.
Proof.
  assert (Hnd : NoDup (map Note.id [otherNote; tripNote; alphaNote])).
  { repeat constructor; simpl; intuition discriminate. }
  destruct (handleDeleteNote_removes
              (App.handleSelectNote tripNote
                 (homeState [otherNote; tripNote; alphaNote]))
              1 7 Hnd eq_refl) as [Hnotes [_ [_ [_ [Hactive _]]]]].
  split; [exact Hnotes|].
  exact (proj1 (Hactive tripNote eq_refl eq_refl)).
Defined.

(** ** Home.tsx: the order of the view and the order of the store *)

Lemma filter_permutation (A : Type) (p : A -> bool) (l l' : list A) :
  Permutation l l' -> Permutation (filter p l) (filter p l').
Proof.
  induction 1 as [|x l l' _ IH|x y l|l l' l'' _ IH1 _ IH2]; simpl.
  - constructor.
  - destruct (p x); [constructor|]; exact IH.
  - destruct (p x), (p y); try apply Permutation_refl. apply perm_swap.
  - eapply Permutation_trans; eassumption.
Qed.

Lemma tie_key (a b : Note) : tie a b = true <-> noteKey a = noteKey b.
Proof.
  rewrite tie_spec. unfold noteKey. split.
  - intros [-> ->]. reflexivity.
  - intros H. injection H as Hp Hu. auto.
Qed.

Lemma filter_tie_short (a : Note) (l : list Note) :
  NoDup (map noteKey l) -> List.length (filter (tie a) l) <= 1.
Proof.
  induction l as [|x l IH]; simpl; intros Hnd; [lia|].
  inversion Hnd as [|? ? Hnotin Hnd']; subst.
  destruct (tie a x) eqn:E; [|apply IH, Hnd'].
  replace (filter (tie a) l) with (@nil Note); [simpl; lia|].
  symmetry. destruct (filter (tie a) l) as [|y rest] eqn:F; [reflexivity|].
  exfalso. assert (Hy : In y (filter (tie a) l)) by (rewrite F; left; auto).
  apply filter_In in Hy. destruct Hy as [Hin Hty].
  apply Hnotin. apply tie_key in E, Hty. rewrite <- E, Hty.
  apply in_map, Hin.
Qed.

Lemma short_permutation (A : Type) (l l' : list A) :
  List.length l <= 1 -> Permutation l l' -> l = l'.
Proof.
  intros Hlen Hp. destruct l as [|x [|y l]]; simpl in Hlen; try lia.
  - apply Permutation_nil in Hp. auto.
  - apply Permutation_length_1_inv in Hp. auto.
Qed.

Lemma compareNotes_total (a b : Note) :
  mayPrecede Home.compareNotes a b \/ mayPrecede Home.compareNotes b a.
Proof.
  rewrite !compareNotes_spec.
  destruct (Note.isPinned a), (Note.isPinned b);
    destruct (Z.le_ge_cases (Note.updatedAt a) (Note.updatedAt b)); auto.
Qed.

Lemma compareNotes_transitive (a b c : Note) :
  mayPrecede Home.compareNotes a b -> mayPrecede Home.compareNotes b c ->
  mayPrecede Home.compareNotes a c.
Proof.
  rewrite !compareNotes_spec.
  destruct (Note.isPinned a), (Note.isPinned b), (Note.isPinned c);
    intuition (try discriminate; try lia).
Qed.

Lemma sortedNotes_of_permutation (l l' : list Note) :
  NoDup (map noteKey l) -> Permutation l l' ->
  Home.sortedNotes l = Home.sortedNotes l'.
Proof.
  intros Hnd Hp.
  assert (Hstable : forall (k : list Note) n,
             filter (tie n) (Home.sortedNotes k) = filter (tie n) k).
  { intros k n. apply sort_stable. intros a b Ha Hb.
    apply tie_spec in Ha, Hb. apply compareNotes_spec. right.
    destruct Ha as [Hpa Hua], Hb as [Hpb Hub]. split; [congruence | lia]. }
  apply (sorted_stable_unique (compareFn := Home.compareNotes)
           compareNotes_total tie).
  - intros a. apply tie_spec. auto.
  - intros a b Hab Hba. apply compareNotes_spec in Hab, Hba.
    apply tie_spec.
    destruct Hab as [[? ?] | [? ?]], Hba as [[? ?] | [? ?]];
      split; try congruence; lia.
  - apply sort_sorted;
      [exact compareNotes_total | exact compareNotes_transitive].
  - apply sort_sorted;
      [exact compareNotes_total | exact compareNotes_transitive].
  - intros a. rewrite !Hstable.
    apply short_permutation; [apply filter_tie_short, Hnd|].
    apply filter_permutation, Hp.
Qed.

(** X2.  When no two notes agree on both pin state and [updatedAt], the
    sorted view depends on which notes are stored and not on the order they
    are stored in: any rearrangement of the collection sorts to the same
    view. *)
Theorem sortedNotes_ignores_store_order (l l' : list Note) :
  NoDup (map noteKey l) -> Permutation l l' ->
  Home.sortedNotes l = Home.sortedNotes l'.
Proof. apply sortedNotes_of_permutation. Qed.

Lemma sortedNotes_ignores_store_order_witness :
  Home.sortedNotes [otherNote; tripNote; gammaNote]
  = Home.sortedNotes [tripNote; gammaNote; otherNote].
Proof.
  apply sortedNotes_ignores_store_order.
  - repeat constructor; simpl; intuition discriminate.
  - apply (Permutation_cons_append [tripNote; gammaNote]).
Defined.

(** X3.  Undo straight after the delete puts the deleted note at the front
    of the collection, not back at its index: the collection is a
    rearrangement of the original one, the slot and the timer are cleared,
    and, when no two notes tie in the order of the view, the sorted view is
    the one from before the delete. *)
Theorem handleUndoDelete_after_delete (st : App.State) (i : nat) (n : Note)
  (timer : nat) :
  NoDup (map Note.id (App.notes st)) ->
  nth_error (App.notes st) i = Some n ->
  let undone :=
    App.handleUndoDelete (App.handleDeleteNote (Note.id n) timer st) in
  App.notes undone
  = n :: firstn i (App.notes st) ++ skipn (S i) (App.notes st)
  /\ Permutation (App.notes undone) (App.notes st)
  /\ App.deletedNote undone = None
  /\ App.undoTimer undone = None
  /\ (NoDup (map noteKey (App.notes st)) ->
      Home.sortedNotes (App.notes undone) = Home.sortedNotes (App.notes st)).
Proof.
  intros Hnd Hi undone. subst undone.
  rewrite (handleDeleteNote_at _ _ timer Hnd Hi).
  unfold App.handleUndoDelete.
  cbn [App.deletedNote App.notes App.undoTimer App.view App.activeNote].
  pose proof (remove_at_permutation _ _ Hi) as Hp.
  repeat split; try exact Hp.
  intros Hkeys. symmetry.
  apply sortedNotes_of_permutation; [exact Hkeys|].
  apply Permutation_sym, Hp.
Qed.

Lemma handleUndoDelete_after_delete_witness :
  App.notes
    (App.handleUndoDelete
       (App.handleDeleteNote (str "n1") 7
          (homeState [otherNote; tripNote; alphaNote])))
  = [tripNote; otherNote; alphaNote].
Proof.
  assert (Hnd : NoDup (map Note.id [otherNote; tripNote; alphaNote])).
  { repeat constructor; simpl; intuition discriminate. }
  exact (proj1 (handleUndoDelete_after_delete
                  (homeState [otherNote; tripNote; alphaNote]) 1 7 Hnd
                  eq_refl)).
Defined.

(** X4.  Once the timer of a delete has fired, the undo slot is empty: undo
    changes nothing and the deleted note stays out of the collection.  A
    timer other than the pending one changes nothing. *)
Theorem undoTimerFires_ends_undo (st : App.State) (i : nat) (n : Note)
  (timer : nat) :
  NoDup (map Note.id (App.notes st)) ->
  nth_error (App.notes st) i = Some n ->
  let deleted := App.handleDeleteNote (Note.id n) timer st in
  let expired := App.undoTimerFires timer deleted in
  App.deletedNote expired = None
  /\ App.undoTimer expired = None
  /\ App.handleUndoDelete expired = expired
  /\ (forall m, In m (App.notes expired) -> Note.id m <> Note.id n)
  /\ (forall other, other <> timer ->
      App.undoTimerFires other deleted = deleted).
Proof.
  intros Hnd Hi deleted expired. subst expired deleted.
  rewrite (handleDeleteNote_at _ _ timer Hnd Hi).
  unfold App.undoTimerFires.
  cbn [App.deletedNote App.notes App.undoTimer App.view App.activeNote].
  rewrite Nat.eqb_refl.
  split; [reflexivity|]. split; [reflexivity|]. split; [reflexivity|]. split.
  - cbn [App.notes]. intros m Hm Heq.
    destruct (remove_at_keys Note.id _ _ Hnd Hi) as [_ Hnot].
    apply Hnot. rewrite <- Heq. apply in_map, Hm.
  - intros other Hother. apply Nat.eqb_neq in Hother.
    rewrite Nat.eqb_sym, Hother. reflexivity.
Qed.

Lemma undoTimerFires_ends_undo_witness :
  App.deletedNote
    (App.undoTimerFires 7
       (App.handleDeleteNote (str "n1") 7
          (homeState [otherNote; tripNote; alphaNote])))
  = None.
Proof.
  assert (Hnd : NoDup (map Note.id [otherNote; tripNote; alphaNote])).
  { repeat constructor; simpl; intuition discriminate. }
  exact (proj1 (undoTimerFires_ends_undo
                  (homeState [otherNote; tripNote; alphaNote]) 1 7 Hnd
                  eq_refl)).
Defined.

(** X5.  The undo slot holds one note.  After two deletes the slot holds the
    second note only: undo brings the second note back, a further undo does
    nothing, and the first note is in the collection no more. *)
Theorem note_undo_slot_holds_one (st : App.State) (a b : Note)
  (ta tb : nat) :
  NoDup (map Note.id (App.notes st)) ->
  In a (App.notes st) -> In b (App.notes st) -> Note.id a <> Note.id b ->
  let twice :=
    App.handleDeleteNote (Note.id b) tb
      (App.handleDeleteNote (Note.id a) ta st) in
  let undone := App.handleUndoDelete twice in
  App.deletedNote twice = Some b
  /\ In b (App.notes undone)
  /\ (forall m, In m (App.notes undone) -> Note.id m <> Note.id a)
  /\ App.handleUndoDelete undone = undone.
Proof.
  intros Hnd Ha Hb Hab twice undone. subst undone twice.
  destruct (In_nth_error _ _ Ha) as [i Hi].
  rewrite (handleDeleteNote_at _ _ ta Hnd Hi).
  set (st1 := App.mkState _ _ _ _ _).
  destruct (remove_at_keys Note.id _ _ Hnd Hi) as [Hnd1 Hnot1].
  assert (Hb1 : In b (App.notes st1)).
  { pose proof (remove_at_permutation _ _ Hi) as Hp.
    apply Permutation_sym in Hp.
    destruct (Permutation_in _ Hp Hb) as [Heq | Hin]; [|exact Hin].
    subst b. congruence. }
  destruct (In_nth_error _ _ Hb1) as [j Hj].
  assert (Hnd1' : NoDup (map Note.id (App.notes st1))) by exact Hnd1.
  rewrite (handleDeleteNote_at _ _ tb Hnd1' Hj).
  unfold App.handleUndoDelete.
  cbn [App.deletedNote App.notes App.undoTimer App.view App.activeNote].
  split; [reflexivity|]. split; [left; reflexivity|]. split; [|reflexivity].
  intros m [<- | Hm]; [congruence|].
  intros Heq. apply Hnot1. rewrite <- Heq. apply in_map.
  pose proof (remove_at_permutation _ _ Hj) as Hp.
  apply (Permutation_in _ Hp). right. exact Hm.
Qed.

Lemma note_undo_slot_holds_one_witness :
  App.deletedNote
    (App.handleDeleteNote (str "n3") 8
       (App.handleDeleteNote (str "n1") 7
          (homeState [otherNote; tripNote; alphaNote])))
  = Some alphaNote.
Proof.
  assert (Hnd : NoDup (map Note.id [otherNote; tripNote; alphaNote])).
  { repeat constructor; simpl; intuition discriminate. }
  assert (Hids : Note.id tripNote <> Note.id alphaNote) by discriminate.
  exact (proj1 (note_undo_slot_holds_one
                  (homeState [otherNote; tripNote; alphaNote])
                  tripNote alphaNote 7 8 Hnd
                  (or_intror (or_introl eq_refl))
                  (or_intror (or_intror (or_introl eq_refl)))
                  Hids)).
Defined.

(** ** App.tsx and Home.tsx: hiding and pinning from the list *)

Lemma handleToggleHideNote_saves (n : Note) (st : App.State) :
  App.handleToggleHideNote n st = App.handleSaveNote (hideToggled n) st.
Proof. reflexivity. Qed.

Lemma handleTogglePinNote_saves (n : Note) (st : App.State) :
  App.handleTogglePinNote n st = App.handleSaveNote (pinToggled n) st.
Proof. reflexivity. Qed.

(** X6.  Hiding or unhiding the note at index [i] of a collection with
    distinct ids replaces it in place by the note with the flag flipped.
    The flipped note passes the visibility test of a mode exactly when the
    original fails it, so it shows in a view exactly when the original
    matches the search and belongs to the other mode. *)
Theorem handleToggleHideNote_moves_view (st : App.State) (i : nat)
  (n : Note) :
  NoDup (map Note.id (App.notes st)) ->
  nth_error (App.notes st) i = Some n ->
  let toggled := App.notes (App.handleToggleHideNote n st) in
  toggled
  = firstn i (App.notes st) ++ hideToggled n :: skipn (S i) (App.notes st)
  /\ (forall showHidden,
        Home.matchesVisibility showHidden (hideToggled n)
        = negb (Home.matchesVisibility showHidden n))
  /\ (forall toLowerCase showHidden searchQuery,
        In (hideToggled n)
          (Home.filteredNotes toLowerCase toggled showHidden searchQuery)
        <-> Home.matchesVisibility showHidden n = false
            /\ Home.matchesSearch toLowerCase searchQuery n = true).
Proof.
  intros Hnd Hi toggled.
  assert (Hvis : forall h, Home.matchesVisibility h (hideToggled n)
                           = negb (Home.matchesVisibility h n)).
  { intros h. unfold Home.matchesVisibility, hideToggled, Home.hidden.
    simpl. destruct h, (Note.isHidden n) as [[|]|]; reflexivity. }
  assert (Hnotes : toggled
                   = firstn i (App.notes st)
                     ++ hideToggled n :: skipn (S i) (App.notes st)).
  { unfold toggled. rewrite handleToggleHideNote_saves.
    rewrite handleSaveNote_present.
    - apply (unique_key_replace Note.id _ _ (hideToggled n) Hnd Hi).
    - exists n. split; [eapply nth_error_In, Hi | reflexivity]. }
  split; [exact Hnotes|]. split; [exact Hvis|].
  intros lc h q. unfold Home.filteredNotes.
  rewrite filter_In, andb_true_iff, Hvis, negb_true_iff. split.
  - intros [_ H]. exact H.
  - intros H. split; [|exact H].
    rewrite Hnotes. apply in_or_app. right. left. reflexivity.
Qed.

Lemma handleToggleHideNote_moves_view_witness :
  Home.filteredNotes Home.asciiLowerCase
    (App.notes (App.handleToggleHideNote tripNote
                  (homeState [otherNote; tripNote])))
    true []
  = [hideToggled tripNote]
  /\ Home.filteredNotes Home.asciiLowerCase
       (App.notes (App.handleToggleHideNote tripNote
                     (homeState [otherNote; tripNote])))
       false []
     = [otherNote].
Proof.
  assert (Hnd : NoDup (map Note.id [otherNote; tripNote])).
  { repeat constructor; simpl; intuition discriminate. }
  destruct (handleToggleHideNote_moves_view
              (homeState [otherNote; tripNote]) 1 Hnd eq_refl)
    as [Hnotes _].
  rewrite Hnotes. split; reflexivity.
Defined.

(** X7.  Pinning is undone by pinning again: two pin toggles of the note at
    index [i] of a collection with distinct ids give back the collection as
    it was.  Two hide toggles give back a note that is hidden exactly when
    the original was; it is the original itself when the original carried
    the flag. *)
Theorem toggles_twice (st : App.State) (i : nat) (n : Note) :
  NoDup (map Note.id (App.notes st)) ->
  nth_error (App.notes st) i = Some n ->
  App.notes (App.handleTogglePinNote (pinToggled n)
               (App.handleTogglePinNote n st))
  = App.notes st
  /\ App.notes (App.handleToggleHideNote (hideToggled n)
                  (App.handleToggleHideNote n st))
     = firstn i (App.notes st)
       ++ hideToggled (hideToggled n) :: skipn (S i) (App.notes st)
  /\ Home.hidden (hideToggled (hideToggled n)) = Home.hidden n
  /\ (Note.isHidden n <> None -> hideToggled (hideToggled n) = n).
Proof.
  intros Hnd Hi.
  assert (Hlen : i < List.length (App.notes st))
    by (apply nth_error_Some; congruence).
  assert (Hsave : forall x : Note,
             Note.id x = Note.id n ->
             forall st0,
               NoDup (map Note.id (App.notes st0)) ->
               (exists a, nth_error (App.notes st0) i = Some a
                          /\ Note.id a = Note.id n) ->
               App.notes (App.handleSaveNote x st0)
               = assign i x (App.notes st0)).
  { intros x Hx st0 Hnd0 [a [Ha Hida]]. rewrite handleSaveNote_present.
    - rewrite Hx, <- Hida.
      apply (unique_key_replace Note.id _ _ x Hnd0 Ha).
    - exists a. split; [eapply nth_error_In, Ha | congruence]. }
  assert (Hagain : forall x y : Note,
             Note.id x = Note.id n -> Note.id y = Note.id n ->
             App.notes (App.handleSaveNote y (App.handleSaveNote x st))
             = assign i y (App.notes st)).
  { intros x y Hx Hy.
    rewrite (Hsave y Hy); rewrite (Hsave x Hx st Hnd) by eauto.
    - apply assign_assign, Hlen.
    - rewrite (@assign_map _ _ Note.id _ _ _ _ Hi Hx). exact Hnd.
    - exists x. split; [apply assign_nth, Hlen | exact Hx]. }
  split; [|split; [|split]].
  - rewrite !handleTogglePinNote_saves.
    rewrite (Hagain (pinToggled n) (pinToggled (pinToggled n)) eq_refl eq_refl).
    replace (pinToggled (pinToggled n)) with n
      by (destruct n; unfold pinToggled; simpl;
          rewrite negb_involutive; reflexivity).
    apply assign_same, Hi.
  - rewrite !handleToggleHideNote_saves.
    apply (Hagain (hideToggled n) (hideToggled (hideToggled n))
             eq_refl eq_refl).
  - unfold hideToggled, Home.hidden. simpl. apply negb_involutive.
  - intros Hset. destruct n as [id ti c u bs p [h|] th];
      [|simpl in Hset; congruence].
    unfold hideToggled, Home.hidden. simpl.
    rewrite negb_involutive. reflexivity.
Qed.

Lemma toggles_twice_witness :
  App.notes (App.handleTogglePinNote (pinToggled tripNote)
               (App.handleTogglePinNote tripNote
                  (homeState [otherNote; tripNote])))
  = [otherNote; tripNote].
Proof.
  assert (Hnd : NoDup (map Note.id [otherNote; tripNote])).
  { repeat constructor; simpl; intuition discriminate. }
  exact (proj1 (toggles_twice (homeState [otherNote; tripNote]) 1 Hnd
                  eq_refl)).
Defined.

(** ** App.tsx and Editor.tsx: the auto-save of a mounted editor *)

(** X8.  The auto-save skips exactly the editor that has no note, no block
    and an empty title.  So opening the editor on a new note and leaving it
    untouched adds nothing to the collection, while an editor that was
    opened on an existing note always commits, even when the note is
    empty. *)
Theorem autoSave_guard (st : Editor.State) (generated : jsstring)
  (nowCreated now : Z) :
  (Editor.autoSave generated nowCreated now st = None
   <-> Editor.note st = None /\ Editor.blocks st = []
       /\ Editor.title st = [])
  /\ (forall theme a,
        Session.autoSaveFires generated nowCreated now
          (Session.createNote theme a)
        = Session.createNote theme a)
  /\ (forall n theme,
        Editor.autoSave generated nowCreated now
          (Editor.mount (Some n) theme) <> None).
Proof.
  split; [|split].
  - unfold Editor.autoSave.
    destruct (Editor.blocks st) as [|b bs], (Editor.title st) as [|c cs],
      (Editor.note st) as [n|]; simpl; split;
      try discriminate; try tauto;
      intros [H1 [H2 H3]]; discriminate.
  - reflexivity.
  - intros n theme. unfold Editor.autoSave. simpl.
    destruct (Note.blocks n), (truthy_string (Note.title n)); discriminate.
Qed.

(** The commit on an editor with no note and some content. *)
Lemma autoSave_first (st : Editor.State) (generated : jsstring)
  (nowCreated now : Z) :
  Editor.note st = None ->
  Editor.blocks st <> [] \/ Editor.title st <> [] ->
  Editor.autoSave generated nowCreated now st =
  Some (Note.mk generated (Editor.title st) nowCreated now
          (Editor.blocks st) (Editor.isPinned st) (Some (Editor.isHidden st))
          (Some (Editor.currentTheme st))).
Proof.
  intros Hn Hcontent. unfold Editor.autoSave. rewrite Hn, or_string_empty.
  destruct (Editor.blocks st) as [|b bs], (Editor.title st) as [|c cs];
    simpl; try reflexivity.
  destruct Hcontent; congruence.
Qed.

(** X9.  A note that was created in the editor is saved as a new note every
    time the auto-save fires.  The application opens the editor with no
    active note and [handleSaveNote] leaves it without one, so the editor's
    [note] prop stays null: each commit takes the newly generated id, and a
    generated id that no stored note has puts one more note in front of the
    collection.  The state after the commit is again one with no active
    note. *)
Theorem new_note_is_added_at_every_save (s : Session.State)
  (generated : jsstring) (nowCreated now : Z) :
  App.activeNote (Session.app s) = None ->
  Editor.note (Session.editor s) = None ->
  Editor.blocks (Session.editor s) <> []
  \/ Editor.title (Session.editor s) <> [] ->
  (forall m, In m (App.notes (Session.app s)) -> Note.id m <> generated) ->
  let s' := Session.autoSaveFires generated nowCreated now s in
  exists committed,
    App.notes (Session.app s') = committed :: App.notes (Session.app s)
    /\ Note.id committed = generated
    /\ Note.createdAt committed = nowCreated
    /\ Note.blocks committed = Editor.blocks (Session.editor s)
    /\ App.activeNote (Session.app s') = None
    /\ Editor.note (Session.editor s') = None
    /\ Editor.blocks (Session.editor s') = Editor.blocks (Session.editor s)
    /\ Editor.title (Session.editor s') = Editor.title (Session.editor s).
Proof.
  intros Hactive Hnote Hcontent Hfresh s'.
  pose proof (autoSave_first _ generated nowCreated now Hnote Hcontent)
    as Hsave.
  match type of Hsave with _ = Some ?c => exists c end.
  subst s'. unfold Session.autoSaveFires. rewrite Hsave.
  cbn [Session.app Session.editor].
  rewrite handleSaveNote_absent by (intros m Hm; simpl; auto).
  unfold App.handleSaveNote, App.activeNote_is.
  cbn [App.activeNote]. rewrite Hactive.
  destruct (Session.editor s). simpl in *. repeat split; assumption.
Qed.

Lemma new_note_is_added_at_every_save_witness :
  exists first second,
    App.notes
      (Session.app
         (Session.autoSaveFires (str "g2") 6000 6000
            (Session.autoSaveFires (str "g1") 5000 5000 newNoteSession)))
    = [second; first; otherNote]
    /\ Note.id first = str "g1" /\ Note.id second = str "g2".
Proof.
  destruct (@new_note_is_added_at_every_save newNoteSession (str "g1")
              5000 5000 eq_refl eq_refl)
    as [first [Hnotes [Hid [_ [_ [Hactive [Hnote [Hblocks _]]]]]]]].
  { left. discriminate. }
  { intros m [<- | []]. discriminate. }
  destruct (@new_note_is_added_at_every_save
              (Session.autoSaveFires (str "g1") 5000 5000 newNoteSession)
              (str "g2") 6000 6000 Hactive Hnote)
    as [second [Hnotes2 [Hid2 _]]].
  { left. rewrite Hblocks. discriminate. }
  { rewrite Hnotes. intros m [<- | [<- | []]].
    - rewrite Hid. discriminate.
    - discriminate. }
  exists first, second. rewrite Hnotes2, Hnotes. auto.
Defined.

(** The commit on an editor whose note has a non-empty id. *)
Lemma autoSave_opened (st : Editor.State) (n : Note) (generated : jsstring)
  (nowCreated now : Z) :
  Editor.note st = Some n -> Note.id n <> [] ->
  Editor.autoSave generated nowCreated now st =
  Some (Note.mk (Note.id n) (Editor.title st)
          (or_number (Note.createdAt n) nowCreated) now
          (Editor.blocks st) (Editor.isPinned st) (Some (Editor.isHidden st))
          (Some (Editor.currentTheme st))).
Proof.
  intros Hn Hid. unfold Editor.autoSave. rewrite Hn.
  rewrite or_string_truthy, or_string_empty by assumption.
  destruct (Editor.blocks st), (truthy_string (Editor.title st)); reflexivity.
Qed.

(** X10.  A note that was opened from the list is saved in place.  With the
    note active in the application and in the editor, its id not empty, and
    the stored note of that id at index [i] of a collection with distinct
    ids, a commit writes the committed note at index [i], keeps the id and
    the length of the collection, and makes the committed note the active
    one in the application and in the editor: the next commit finds the
    same situation. *)
Theorem opened_note_is_saved_in_place (s : Session.State) (n m : Note)
  (i : nat) (generated : jsstring) (nowCreated now : Z) :
  App.activeNote (Session.app s) = Some n ->
  Editor.note (Session.editor s) = Some n ->
  Note.id n <> [] ->
  NoDup (map Note.id (App.notes (Session.app s))) ->
  nth_error (App.notes (Session.app s)) i = Some m ->
  Note.id m = Note.id n ->
  let s' := Session.autoSaveFires generated nowCreated now s in
  exists committed,
    App.notes (Session.app s')
    = assign i committed (App.notes (Session.app s))
    /\ Note.id committed = Note.id n
    /\ Note.updatedAt committed = now
    /\ Note.blocks committed = Editor.blocks (Session.editor s)
    /\ App.activeNote (Session.app s') = Some committed
    /\ Editor.note (Session.editor s') = Some committed
    /\ nth_error (App.notes (Session.app s')) i = Some committed
    /\ NoDup (map Note.id (App.notes (Session.app s')))
    /\ List.length (App.notes (Session.app s'))
       = List.length (App.notes (Session.app s)).
Proof.
  intros Hactive Hnote Hid Hnd Hi Hm s'.
  assert (Hlen : i < List.length (App.notes (Session.app s)))
    by (apply nth_error_Some; congruence).
  pose proof (autoSave_opened _ generated nowCreated now Hnote Hid) as Hsave.
  match type of Hsave with _ = Some ?c => set (committed := c) in * end.
  assert (Hnotes : App.notes (App.handleSaveNote committed (Session.app s))
                   = assign i committed (App.notes (Session.app s))).
  { rewrite handleSaveNote_present.
    - change (Note.id committed) with (Note.id n). rewrite <- Hm.
      apply (unique_key_replace Note.id _ _ committed Hnd Hi).
    - exists m. split; [eapply nth_error_In, Hi | exact Hm]. }
  exists committed. subst s'. unfold Session.autoSaveFires. rewrite Hsave.
  cbn [Session.app Session.editor]. rewrite Hnotes.
  assert (Hact : App.activeNote (App.handleSaveNote committed (Session.app s))
                 = Some committed).
  { unfold App.handleSaveNote, App.activeNote_is. cbn [App.activeNote].
    rewrite Hactive. change (Note.id committed) with (Note.id n).
    rewrite streq_refl. reflexivity. }
  rewrite Hact.
  split; [reflexivity|]. split; [reflexivity|]. split; [reflexivity|].
  split; [reflexivity|]. split; [reflexivity|].
  split; [destruct (Session.editor s); reflexivity|].
  split; [apply assign_nth, Hlen|].
  split; [|apply assign_length, Hlen].
  rewrite (@assign_map _ _ Note.id _ _ _ _ Hi); [exact Hnd|].
  rewrite Hm. reflexivity.
Qed.

Lemma opened_note_is_saved_in_place_witness :
  exists committed,
    App.notes
      (Session.app
         (Session.autoSaveFires (str "g1") 5000 5000
            (Session.selectNote tripNote dark
               (homeState [otherNote; tripNote]))))
    = [otherNote; committed]
    /\ Note.id committed = str "n1"
    /\ Note.updatedAt committed = 5000%Z.
Proof.
  assert (Hnd : NoDup (map Note.id [otherNote; tripNote])).
  { repeat constructor; simpl; intuition discriminate. }
  destruct (@opened_note_is_saved_in_place
              (Session.selectNote tripNote dark
                 (homeState [otherNote; tripNote]))
              tripNote tripNote 1 (str "g1") 5000 5000 eq_refl eq_refl)
    as [c [Hnotes [Hid [Hu _]]]]; try reflexivity; try exact Hnd.
  { discriminate. }
  exists c. rewrite Hnotes. auto.
Defined.

(** ** App.tsx: which store the load reads *)

(** X11.  On a device, when the write to the file fails, the next load
    returns what the file held before the save and not the collection just
    saved, although local storage holds the latter: for a valid older
    collection [old] in the file, the load gives [old] back field for
    field, whatever [notes] were saved. *)
Theorem failed_write_loads_older_file (notes old : list Note)
  (store : App.Storage) :
  validNotes old = true ->
  App.file store = App.Document (JSON.stringify old) ->
  App.frame_notes_data (App.persistData true false notes store)
  = App.Document (JSON.stringify notes)
  /\ exists loaded,
      App.loadData true (App.persistData true false notes store)
      = Some loaded
      /\ sameNotes loaded old = true.
Proof.
  intros Hvalid Hfile. split; [reflexivity|].
  exists (map rereadNote old). split.
  - unfold App.loadData, App.persistData. simpl. rewrite Hfile.
    apply parse_stringify, Hvalid.
  - apply (sameList_map sameNote rereadNote validNote _ sameNote_reread
             Hvalid).
Qed.

Lemma failed_write_loads_older_file_witness :
  App.loadData true
    (App.persistData true false [tripNote; sketchNote]
       (App.persistData true true [tripNote] emptyStore))
  = Some [tripNote].
Proof.
  destruct (@failed_write_loads_older_file [tripNote; sketchNote]
              [tripNote]
              (App.persistData true true [tripNote] emptyStore)
              eq_refl eq_refl) as [_ [loaded [Hload _]]].
  rewrite Hload. vm_compute in Hload. injection Hload as <-. reflexivity.
Defined.

(** X12.  Stored text that [JSON.parse] rejects, or no stored text at all,
    is never an error of the load, and what local storage is good for
    depends on the platform.  Off a device the load reads local storage:
    with no document there the collection starts empty, and a valid saved
    collection comes back field for field.  On a device local storage is
    no backup: when the file gives no document the collection starts
    empty whatever local storage held at the mount, because the save
    effect of the same mount has written the empty collection there
    before the fallback reads it. *)
Theorem loadData_falls_back (store : App.Storage) :
  ((forall d, App.frame_notes_data store <> App.Document d) ->
   App.loadData false store = Some [])
  /\ (forall notes,
        validNotes notes = true ->
        App.frame_notes_data store = App.Document (JSON.stringify notes) ->
        exists loaded,
          App.loadData false store = Some loaded
          /\ sameNotes loaded notes = true)
  /\ ((forall d, App.file store <> App.Document d) ->
      App.loadData true store = Some []).
Proof.
  split; [|split].
  - intros Hls. unfold App.loadData.
    destruct (App.frame_notes_data store) as [| |d] eqn:El;
      [reflexivity | reflexivity | elim (Hls d eq_refl)].
  - intros notes Hvalid Hls. exists (map rereadNote notes). split.
    + unfold App.loadData. rewrite Hls. apply parse_stringify, Hvalid.
    + apply (sameList_map sameNote rereadNote validNote _ sameNote_reread
               Hvalid).
  - intros Hfile. unfold App.loadData.
    destruct (App.file store) as [| |d] eqn:Ef;
      [reflexivity | reflexivity | elim (Hfile d eq_refl)].
Qed.

Lemma loadData_falls_back_witness :
  App.loadData true
    (App.mkStorage App.Malformed (App.Document (JSON.stringify [tripNote])))
  = Some []
  /\ App.loadData false
       (App.mkStorage App.Malformed (App.Document (JSON.stringify [tripNote])))
     = Some [tripNote].
Proof.
  split.
  - apply (proj2 (proj2 (loadData_falls_back
                           (App.mkStorage App.Malformed
                              (App.Document (JSON.stringify [tripNote])))))).
    intros d. discriminate.
  - destruct (proj1 (proj2 (loadData_falls_back
                              (App.mkStorage App.Malformed
                                 (App.Document (JSON.stringify [tripNote])))))
                [tripNote] eq_refl eq_refl) as [loaded [Hload _]].
    rewrite Hload. vm_compute in Hload. injection Hload as <-. reflexivity.
Defined.

(** ** Editor.tsx: moving a block by one place *)

Lemma swap_nth_error (A : Type) (l : list A) (i j : nat) (a b : A) :
  nth_error l i = Some a -> nth_error l j = Some b ->
  forall k,
    nth_error (assign j a (assign i b l)) k
    = nth_error l (if k =? i then j else if k =? j then i else k).
Proof.
  intros Hi Hj k.
  assert (Hli : i < List.length l) by (apply nth_error_Some; congruence).
  assert (Hlj : j < List.length l) by (apply nth_error_Some; congruence).
  assert (Hlen : List.length (assign i b l) = List.length l)
    by (apply assign_length, Hli).
  destruct (Nat.eqb_spec k j) as [->|Hkj].
  - rewrite assign_nth by lia.
    destruct (Nat.eqb_spec j i) as [->|_]; congruence.
  - destruct (assign_other (assign i b l) a (not_eq_sym Hkj)) as [->|H];
      [|lia].
    destruct (Nat.eqb_spec k i) as [->|Hki].
    + rewrite assign_nth by lia. congruence.
    + destruct (assign_other l b (not_eq_sym Hki)) as [->|H]; [|lia].
      reflexivity.
Qed.

Lemma swap_permutation (A : Type) (l : list A) (i j : nat) (a b : A) :
  nth_error l i = Some a -> nth_error l j = Some b ->
  Permutation l (assign j a (assign i b l)).
Proof.
  intros Hi Hj.
  assert (Hli : i < List.length l) by (apply nth_error_Some; congruence).
  assert (Hlj : j < List.length l) by (apply nth_error_Some; congruence).
  apply Permutation_nth_error. split.
  - rewrite !assign_length; rewrite ?assign_length; lia.
  - exists (fun k => if k =? i then j else if k =? j then i else k). split.
    + intros x y.
      destruct (Nat.eqb_spec x i), (Nat.eqb_spec x j),
               (Nat.eqb_spec y i), (Nat.eqb_spec y j); lia.
    + apply (@swap_nth_error _ _ _ _ _ _ Hi Hj).
Qed.

Lemma moveBlock_inside (st : Editor.State) (i j : nat) (d : Editor.Direction)
  (a b : Block) :
  (Z.of_nat i + Editor.offset d = Z.of_nat j)%Z ->
  nth_error (Editor.blocks st) i = Some a ->
  nth_error (Editor.blocks st) j = Some b ->
  Editor.moveBlock i d st
  = Some (Editor.setBlocks (assign j a (assign i b (Editor.blocks st))) st).
Proof.
  intros Hj Hi Hb.
  assert (Hlj : j < List.length (Editor.blocks st))
    by (apply nth_error_Some; congruence).
  unfold Editor.moveBlock. cbv zeta. rewrite Hj, Nat2Z.id, Hi, Hb.
  replace (Z.of_nat j <? 0)%Z with false by (symmetry; apply Z.ltb_ge; lia).
  replace (Z.of_nat (List.length (Editor.blocks st)) <=? Z.of_nat j)%Z
    with false by (symmetry; apply Z.leb_gt; lia).
  reflexivity.
Qed.

(** X13.  Moving the block at [index] one place: at the first block
    towards the start, and at the last block towards the end, nothing
    changes; otherwise the block and its neighbour on that side change
    places, every other block keeps its index, and the list holds the same
    blocks as before. *)
Theorem moveBlock_swaps_neighbours (st : Editor.State) (index : nat)
  (direction : Editor.Direction) :
  index < List.length (Editor.blocks st) ->
  let newIndex := (Z.of_nat index + Editor.offset direction)%Z in
  ((newIndex < 0 \/ Z.of_nat (List.length (Editor.blocks st)) <= newIndex)%Z ->
   Editor.moveBlock index direction st = Some st)
  /\ ((0 <= newIndex < Z.of_nat (List.length (Editor.blocks st)))%Z ->
      exists st',
        Editor.moveBlock index direction st = Some st'
        /\ nth_error (Editor.blocks st') (Z.to_nat newIndex)
           = nth_error (Editor.blocks st) index
        /\ nth_error (Editor.blocks st') index
           = nth_error (Editor.blocks st) (Z.to_nat newIndex)
        /\ (forall k, k <> index -> k <> Z.to_nat newIndex ->
              nth_error (Editor.blocks st') k
              = nth_error (Editor.blocks st) k)
        /\ Permutation (Editor.blocks st) (Editor.blocks st')
        /\ Editor.deletedBlock st' = Editor.deletedBlock st
        /\ Editor.title st' = Editor.title st).
Proof.
  intros Hindex newIndex. split.
  - intros Hedge. unfold Editor.moveBlock. fold newIndex. cbv zeta.
    destruct Hedge as [H|H].
    + apply Z.ltb_lt in H. rewrite H. reflexivity.
    + apply Z.leb_le in H. rewrite H, orb_true_r. reflexivity.
  - intros Hin.
    destruct (nth_error (Editor.blocks st) index) as [a|] eqn:Ha;
      [|apply nth_error_None in Ha; lia].
    destruct (nth_error (Editor.blocks st) (Z.to_nat newIndex)) as [b|] eqn:Hb;
      [|apply nth_error_None in Hb; lia].
    assert (Hd : index <> Z.to_nat newIndex).
    { subst newIndex. destruct direction; simpl in *; lia. }
    eexists. split.
    { apply (@moveBlock_inside st index (Z.to_nat newIndex) direction a b);
        [fold newIndex; lia | exact Ha | exact Hb]. }
    destruct st; cbn [Editor.setBlocks Editor.blocks Editor.deletedBlock
                      Editor.title] in *.
    pose proof (@swap_nth_error _ _ _ _ _ _ Ha Hb) as Hswap.
    repeat split.
    + rewrite Hswap, Nat.eqb_refl.
      destruct (Nat.eqb_spec (Z.to_nat newIndex) index); congruence.
    + rewrite Hswap, Nat.eqb_refl. exact Hb.
    + intros k Hk1 Hk2. rewrite Hswap.
      destruct (Nat.eqb_spec k index); [congruence|].
      destruct (Nat.eqb_spec k (Z.to_nat newIndex)); [congruence|].
      reflexivity.
    + apply (@swap_permutation _ _ _ _ _ _ Ha Hb).
Qed.

Lemma moveBlock_swaps_neighbours_witness :
  option_map Editor.blocks
    (Editor.moveBlock 0 Editor.towardsStart (editorOf [blockA; blockB; blockC]))
  = Some [blockA; blockB; blockC]
  /\ exists st',
       Editor.moveBlock 1 Editor.towardsEnd (editorOf [blockA; blockB; blockC]) = Some st'
       /\ nth_error (Editor.blocks st') 2 = Some blockB
       /\ nth_error (Editor.blocks st') 1 = Some blockC.
Proof.
  assert (H0 : 0 < List.length (Editor.blocks (editorOf [blockA; blockB; blockC])))
    by (vm_compute; lia).
  assert (H1 : 1 < List.length (Editor.blocks (editorOf [blockA; blockB; blockC])))
    by (vm_compute; lia).
  split.
  - rewrite (proj1 (@moveBlock_swaps_neighbours (editorOf [blockA; blockB; blockC]) 0
                      Editor.towardsStart H0)); [reflexivity|].
    left. vm_compute. reflexivity.
  - destruct (proj2 (@moveBlock_swaps_neighbours (editorOf [blockA; blockB; blockC]) 1
                       Editor.towardsEnd H1))
      as [st' [Hm [Ha [Hb _]]]].
    { vm_compute. split; [discriminate | reflexivity]. }
    exists st'. split; [exact Hm|]. split; [exact Ha | exact Hb].
Defined.

(** X14.  Moving a block one place towards the end is the same as moving
    the block after it one place towards the start, and doing either twice
    puts the list back as it was. *)
Theorem moveBlock_there_and_back (st : Editor.State) (index : nat) :
  S index < List.length (Editor.blocks st) ->
  exists st',
    Editor.moveBlock index Editor.towardsEnd st = Some st'
    /\ Editor.moveBlock (S index) Editor.towardsStart st = Some st'
    /\ Editor.moveBlock index Editor.towardsEnd st' = Some st
    /\ Editor.moveBlock (S index) Editor.towardsStart st' = Some st.
Proof.
  intros Hlen.
  destruct (nth_error (Editor.blocks st) index) as [a|] eqn:Ha;
    [|apply nth_error_None in Ha; lia].
  destruct (nth_error (Editor.blocks st) (S index)) as [b|] eqn:Hb;
    [|apply nth_error_None in Hb; lia].
  pose proof (@swap_nth_error _ _ _ _ _ _ Ha Hb) as Hswap.
  assert (Hup : (Z.of_nat index + Editor.offset Editor.towardsEnd
                 = Z.of_nat (S index))%Z) by (unfold Editor.offset; lia).
  assert (Hdown : (Z.of_nat (S index) + Editor.offset Editor.towardsStart
                   = Z.of_nat index)%Z) by (unfold Editor.offset; lia).
  assert (Hsame : assign index b (assign (S index) a (Editor.blocks st))
                  = assign (S index) a (assign index b (Editor.blocks st))).
  { apply nth_error_ext. intros k.
    rewrite Hswap, (@swap_nth_error _ _ _ _ _ _ Hb Ha).
    destruct (Nat.eqb_spec k index), (Nat.eqb_spec k (S index));
      try reflexivity; lia. }
  set (swapped := assign (S index) a (assign index b (Editor.blocks st))).
  assert (Ha' : nth_error swapped index = Some b).
  { unfold swapped. rewrite Hswap, Nat.eqb_refl. exact Hb. }
  assert (Hb' : nth_error swapped (S index) = Some a).
  { unfold swapped. rewrite Hswap, Nat.eqb_refl.
    destruct (Nat.eqb_spec (S index) index); [lia | exact Ha]. }
  assert (Hback : assign (S index) b (assign index a swapped)
                  = Editor.blocks st).
  { apply nth_error_ext. intros k.
    rewrite (@swap_nth_error _ _ _ _ _ _ Ha' Hb'). unfold swapped.
    rewrite Hswap.
    destruct (Nat.eqb_spec k index) as [->|]; [|
      destruct (Nat.eqb_spec k (S index)) as [->|]].
    - rewrite Nat.eqb_refl.
      destruct (Nat.eqb_spec (S index) index); [lia | reflexivity].
    - rewrite Nat.eqb_refl. reflexivity.
    - destruct (Nat.eqb_spec k index), (Nat.eqb_spec k (S index));
        try lia; reflexivity. }
  assert (Hback' : assign index a (assign (S index) b swapped)
                   = Editor.blocks st).
  { rewrite <- Hback. apply nth_error_ext. intros k.
    rewrite (@swap_nth_error _ _ _ _ _ _ Ha' Hb'),
            (@swap_nth_error _ _ _ _ _ _ Hb' Ha').
    destruct (Nat.eqb_spec k index), (Nat.eqb_spec k (S index));
      try reflexivity; lia. }
  exists (Editor.setBlocks swapped st). split; [|split; [|split]].
  - apply (@moveBlock_inside st index (S index) Editor.towardsEnd a b
             Hup Ha Hb).
  - rewrite (@moveBlock_inside st (S index) index Editor.towardsStart b a
               Hdown Hb Ha).
    unfold swapped. rewrite Hsame. reflexivity.
  - rewrite (@moveBlock_inside (Editor.setBlocks swapped st) index (S index)
               Editor.towardsEnd b a Hup);
      [|destruct st; exact Ha' | destruct st; exact Hb'].
    destruct st; cbn [Editor.setBlocks Editor.blocks] in *.
    rewrite Hback. reflexivity.
  - rewrite (@moveBlock_inside (Editor.setBlocks swapped st) (S index) index
               Editor.towardsStart a b Hdown);
      [|destruct st; exact Hb' | destruct st; exact Ha'].
    destruct st; cbn [Editor.setBlocks Editor.blocks] in *.
    rewrite Hback'. reflexivity.
Qed.

Lemma moveBlock_there_and_back_witness :
  exists st',
    Editor.moveBlock 0 Editor.towardsEnd (editorOf [blockA; blockB; blockC])
    = Some st'
    /\ Editor.blocks st' = [blockB; blockA; blockC]
    /\ Editor.moveBlock 0 Editor.towardsEnd st'
       = Some (editorOf [blockA; blockB; blockC]).
Proof.
  assert (H : 1 < List.length
                    (Editor.blocks (editorOf [blockA; blockB; blockC])))
    by (vm_compute; lia).
  destruct (@moveBlock_there_and_back (editorOf [blockA; blockB; blockC]) 0 H)
    as [st' [Hm [_ [Hback _]]]].
  exists st'. split; [exact Hm|]. split; [|exact Hback].
  vm_compute in Hm. injection Hm as <-. reflexivity.
Defined.

(** ** Editor.tsx: the ids of the blocks stay distinct *)

Lemma findIndex_some (A : Type) (p : A -> bool) (l : list A) (i : nat) :
  findIndex p l = Some i ->
  exists a, nth_error l i = Some a /\ p a = true.
Proof.
  revert i. induction l as [|x l IH]; intros i H; simpl in H;
    [discriminate|].
  destruct (p x) eqn:Hp.
  - injection H as <-. exists x. auto.
  - destruct (findIndex p l) as [j|]; [|discriminate].
    injection H as <-. apply (IH j eq_refl).
Qed.

Lemma NoDup_map_filter (A K : Type) (key : A -> K) (keep : A -> bool)
  (xs : list A) (Hnd : NoDup (map key xs)) :
  NoDup (map key (filter keep xs)).
Proof.
  induction xs as [|x xs IH]; simpl in *; [constructor|].
  inversion Hnd as [|? ? Hnotin Hnd']; subst.
  destruct (keep x); [|auto]. simpl. constructor; [|auto].
  intros Hin. apply Hnotin. apply in_map_iff in Hin.
  destruct Hin as [y [Hy Hin]]. apply filter_In in Hin.
  rewrite <- Hy. apply in_map, Hin.
Qed.

Lemma map_id_with (f : Block -> Block) (id : jsstring) (l : list Block) :
  (forall b, Block.id (f b) = Block.id b) ->
  map Block.id (map (fun b => if streq (Block.id b) id then f b else b) l)
  = map Block.id l.
Proof.
  intros Hf. rewrite map_map. apply map_ext. intros b.
  destruct (streq (Block.id b) id); [apply Hf | reflexivity].
Qed.

Lemma splice_insert_permutation (A : Type) (l : list A) (i : nat) (a : A) :
  Permutation (splice i 0 [a] l) (a :: l).
Proof.
  unfold splice. rewrite Nat.add_0_r. simpl.
  rewrite <- Permutation_middle, firstn_skipn. apply Permutation_refl.
Qed.

Lemma handleDragEnter_permutation (position : nat) (st st' : Editor.State) :
  Editor.handleDragEnter position st = Some st' ->
  Permutation (Editor.blocks st') (Editor.blocks st)
  /\ Editor.deletedBlock st' = Editor.deletedBlock st.
Proof.
  unfold Editor.handleDragEnter.
  destruct (Editor.dragItem st) as [dragIndex|]; cbv iota zeta;
    [|intros H; injection H as <-; split; reflexivity].
  destruct (dragIndex =? position); cbv iota;
    [intros H; injection H as <-; destruct st; split; reflexivity|].
  destruct (nth_error (Editor.blocks st) dragIndex) as [a|] eqn:Ha;
    [|discriminate].
  intros H. cbv iota zeta in H. injection H as H. subst st'.
  destruct st; simpl in *. split; [|reflexivity].
  rewrite splice_insert_permutation. unfold splice.
  rewrite Nat.add_1_r. simpl. apply (remove_at_permutation _ _ Ha).
Qed.

Lemma moveBlock_permutation (index : nat) (direction : Editor.Direction)
  (st st' : Editor.State) :
  Editor.moveBlock index direction st = Some st' ->
  Permutation (Editor.blocks st') (Editor.blocks st)
  /\ Editor.deletedBlock st' = Editor.deletedBlock st.
Proof.
  unfold Editor.moveBlock. cbv zeta.
  destruct (_ || _); cbv iota;
    [intros H; injection H as <-; split; reflexivity|].
  destruct (nth_error (Editor.blocks st) index) as [a|] eqn:Ha;
    [|discriminate].
  destruct (nth_error (Editor.blocks st) (Z.to_nat _)) as [b|] eqn:Hb;
    [|discriminate].
  intros H. cbv beta iota in H. injection H as H. subst st'.
  destruct st; simpl in *. split; [|reflexivity].
  apply Permutation_sym, (@swap_permutation _ _ _ _ _ _ Ha Hb).
Qed.

(** X15.  The editor keeps the ids of its blocks distinct.  If the ids of
    the blocks in the list and of the block in the undo slot are pairwise
    distinct, they are so again after every handler: after a block is added
    under an id not in use, after an edit of a block's content or drawings,
    after a delete, its expiry or a restore, after a drag-enter and after
    a move by one place. *)
Theorem block_ids_stay_distinct (st : Editor.State) :
  NoDup (blockIds st) ->
  (forall generated type content,
      ~ In generated (blockIds st) ->
      NoDup (blockIds (Editor.addBlock generated type content st)))
  /\ (forall id content, NoDup (blockIds (Editor.updateBlock id content st)))
  /\ (forall id drawings,
        NoDup (blockIds (Editor.updateBlockDrawings id drawings st)))
  /\ (forall id, NoDup (blockIds (Editor.deleteBlock id st)))
  /\ (forall id, NoDup (blockIds (Editor.expireDeletedBlock id st)))
  /\ NoDup (blockIds (Editor.restoreBlock st))
  /\ (forall position st',
        Editor.handleDragEnter position st = Some st' ->
        NoDup (blockIds st'))
  /\ (forall index direction st',
        Editor.moveBlock index direction st = Some st' ->
        NoDup (blockIds st')).
Proof.
  intros Hnd.
  assert (Hblocks : NoDup (map Block.id (Editor.blocks st)))
    by (apply NoDup_app_remove_r in Hnd; exact Hnd).
  assert (Hperm : forall st',
             Permutation (Editor.blocks st') (Editor.blocks st) ->
             Editor.deletedBlock st' = Editor.deletedBlock st ->
             NoDup (blockIds st')).
  { intros st' Hp Hd. unfold blockIds, slotIds in *. rewrite Hd.
    refine (Permutation_NoDup _ Hnd).
    apply Permutation_app_tail, Permutation_map, Permutation_sym, Hp. }
  repeat split.
  - intros generated type content Hfresh.
    unfold blockIds, slotIds in *. destruct st; simpl in *.
    rewrite map_app. simpl.
    refine (Permutation_NoDup _ (NoDup_cons _ Hfresh Hnd)).
    rewrite <- app_assoc. simpl. apply Permutation_middle.
  - intros id content. unfold blockIds, slotIds in *.
    destruct st; simpl in *.
    rewrite (map_id_with (fun b => Block.with_content b content));
      [exact Hnd | reflexivity].
  - intros id drawings. unfold blockIds, slotIds in *.
    destruct st; simpl in *.
    rewrite (map_id_with (fun b => Block.with_drawings b drawings));
      [exact Hnd | reflexivity].
  - intros id. unfold Editor.deleteBlock.
    destruct (findIndex _ (Editor.blocks st)) as [index|] eqn:Hfind;
      [|exact Hnd].
    destruct (findIndex_some _ _ Hfind) as [b [Hb Hid]]. rewrite Hb.
    apply streq_spec in Hid.
    unfold blockIds, slotIds. destruct st; simpl in *.
    refine (Permutation_NoDup (Permutation_cons_append _ _) _).
    constructor; [|apply NoDup_map_filter, Hblocks].
    intros Hin. apply in_map_iff in Hin. destruct Hin as [c [Hc Hin]].
    apply filter_In in Hin. destruct Hin as [_ Hne].
    rewrite <- Hid, <- Hc, streq_refl in Hne. discriminate.
  - intros id. unfold Editor.expireDeletedBlock.
    destruct (Editor.deletedBlock st) as [[b index]|] eqn:Hd; [|exact Hnd].
    destruct (streq (Block.id b) id); [|exact Hnd].
    unfold blockIds, slotIds. destruct st; simpl in *.
    rewrite app_nil_r. exact Hblocks.
  - unfold Editor.restoreBlock.
    destruct (Editor.deletedBlock st) as [[b index]|] eqn:Hd; [|exact Hnd].
    unfold blockIds, slotIds in *. rewrite Hd in Hnd.
    destruct st; simpl in *. rewrite app_nil_r.
    refine (Permutation_NoDup _ Hnd).
    rewrite (Permutation_map Block.id (splice_insert_permutation _ index b)).
    simpl. apply Permutation_sym, Permutation_cons_append.
  - intros position st' H.
    destruct (handleDragEnter_permutation _ _ H) as [Hp Hd].
    apply (Hperm st' Hp Hd).
  - intros index direction st' H.
    destruct (moveBlock_permutation _ _ _ H) as [Hp Hd].
    apply (Hperm st' Hp Hd).
Qed.

Lemma block_ids_stay_distinct_witness :
  NoDup
    (blockIds
       (Editor.restoreBlock
          (Editor.deleteBlock (str "b") (editorOf [blockA; blockB; blockC])))).
Proof.
  assert (H0 : NoDup (blockIds (editorOf [blockA; blockB; blockC]))).
  { repeat constructor; simpl; intuition discriminate. }
  pose proof (proj1 (proj2 (proj2 (proj2 (@block_ids_stay_distinct _ H0))))
                (str "b")) as H1.
  exact (proj1 (proj2 (proj2 (proj2 (proj2
           (proj2 (@block_ids_stay_distinct _ H1))))))).
Defined.

(** ** Editor.tsx: a drag gesture as a whole *)

Lemma insert_then_remove (A : Type) (w : list A) (t : nat) (a : A) :
  t <= List.length w ->
  nth_error (firstn t w ++ a :: skipn t w) t = Some a
  /\ firstn t (firstn t w ++ a :: skipn t w)
     ++ skipn (S t) (firstn t w ++ a :: skipn t w) = w.
Proof.
  intros Ht.
  assert (Hp : List.length (firstn t w) = t) by (rewrite length_firstn; lia).
  pose proof (firstn_skipn t w) as Hw.
  generalize dependent (skipn t w). generalize dependent (firstn t w).
  intros p Hp q Hw. subst t. split.
  - rewrite nth_error_app2, Nat.sub_diag by lia. reflexivity.
  - rewrite firstn_app, Nat.sub_diag, firstn_all, firstn_O, app_nil_r.
    rewrite skipn_app, skipn_all2 by lia.
    replace (S (List.length p) - List.length p) with 1 by lia.
    exact Hw.
Qed.

Lemma moveElement_same (A : Type) (l : list A) (i : nat) :
  moveElement l i i = l.
Proof.
  unfold moveElement. destruct (nth_error l i) as [a|] eqn:Ha; [|reflexivity].
  cbv zeta.
  assert (Hlen : i < List.length l) by (apply nth_error_Some; congruence).
  assert (Hf : List.length (firstn i l) = i) by (rewrite length_firstn; lia).
  rewrite firstn_app, skipn_app, Hf, Nat.sub_diag, firstn_O, app_nil_r.
  rewrite firstn_firstn, Nat.min_id, skipn_O.
  rewrite (skipn_all2 (n := i) (firstn i l)) by lia.
  apply (assign_same _ _ Ha).
Qed.

Lemma moveElement_compose (A : Type) (l : list A) (s t u : nat) :
  s < List.length l -> t < List.length l ->
  moveElement (moveElement l s t) t u = moveElement l s u.
Proof.
  intros Hs Ht.
  destruct (nth_error l s) as [a|] eqn:Ha;
    [|apply nth_error_None in Ha; lia].
  assert (Hw : t <= List.length (firstn s l ++ skipn (S s) l)).
  { rewrite length_app, length_firstn, length_skipn. lia. }
  destruct (insert_then_remove _ a Hw) as [Hnth Hrest].
  unfold moveElement at 2. rewrite Ha. cbv zeta.
  unfold moveElement at 1. rewrite Hnth. cbv zeta. rewrite Hrest.
  unfold moveElement. rewrite Ha. reflexivity.
Qed.

Lemma last_cons_default (A : Type) (t s : A) (ts : list A) :
  last (t :: ts) s = last ts t.
Proof.
  revert t s. induction ts as [|x ts IH]; intros t s; [reflexivity|].
  change (last (t :: x :: ts) s) with (last (x :: ts) s).
  rewrite (IH x s). symmetry. apply IH.
Qed.

(** X16.  A drag gesture amounts to one move.  Whatever regions the
    dragged block passes over, the list at the end is the list at the
    start with the block at the start index taken out and put in at the
    index of the last region entered; with no region entered the list is
    unchanged.  The indices are those of the list. *)
Theorem drag_gesture_is_one_move (st : Editor.State) (i : nat)
  (targets : list nat) :
  i < List.length (Editor.blocks st) ->
  Forall (fun t => t < List.length (Editor.blocks st)) targets ->
  exists st',
    dragThrough targets (Editor.handleDragStart i st) = Some st'
    /\ Editor.blocks st'
       = moveElement (Editor.blocks st) i (last targets i)
    /\ nth_error (Editor.blocks st') (last targets i)
       = nth_error (Editor.blocks st) i
    /\ Editor.dragItem st' = Some (last targets i)
    /\ Editor.blocks (Editor.handleDragEnd st') = Editor.blocks st'.
Proof.
  intros Hi Ht.
  assert (Hgen : forall ts s st0,
             Editor.dragItem st0 = Some s ->
             s < List.length (Editor.blocks st0) ->
             Forall (fun t => t < List.length (Editor.blocks st0)) ts ->
             exists st',
               dragThrough ts st0 = Some st'
               /\ Editor.blocks st'
                  = moveElement (Editor.blocks st0) s (last ts s)
               /\ Editor.dragItem st' = Some (last ts s)).
  { induction ts as [|t ts IH]; intros s st0 Hs Hlen Hts.
    - exists st0. simpl. rewrite moveElement_same. auto.
    - inversion Hts as [|? ? Htlen Hts']; subst.
      destruct (handleDragEnter_step st0 t Hs Hlen) as [st1 [He [Hb Hd]]].
      assert (Hlen1 : List.length (Editor.blocks st1)
                      = List.length (Editor.blocks st0)).
      { rewrite Hb. destruct (s =? t); [reflexivity|].
        apply moveElement_length. }
      destruct (IH t st1 Hd) as [st' [Hrun [Hblocks Hdrag]]].
      { rewrite Hlen1. exact Htlen. }
      { rewrite Hlen1. exact Hts'. }
      exists st'. rewrite last_cons_default.
      cbn [dragThrough]. rewrite He. split; [exact Hrun|].
      split; [|exact Hdrag]. rewrite Hblocks, Hb.
      destruct (Nat.eqb_spec s t) as [->|Hne]; [reflexivity|].
      apply moveElement_compose; assumption. }
  destruct (Hgen targets i (Editor.handleDragStart i st) eq_refl)
    as [st' [Hrun [Hblocks Hdrag]]].
  { destruct st; exact Hi. }
  { destruct st; exact Ht. }
  exists st'. split; [exact Hrun|].
  assert (Hb : Editor.blocks st'
               = moveElement (Editor.blocks st) i (last targets i))
    by (rewrite Hblocks; destruct st; reflexivity).
  split; [exact Hb|]. split; [|split; [exact Hdrag | destruct st'; reflexivity]].
  rewrite Hb.
  destruct (nth_error (Editor.blocks st) i) as [a|] eqn:Ha;
    [|apply nth_error_None in Ha; lia].
  apply (moveElement_lands _ _ Ha).
  clear - Hi Ht. revert i Hi. induction Ht as [|t ts Hlt Hts IH]; intros i Hi.
  - exact Hi.
  - rewrite last_cons_default. apply IH, Hlt.
Qed.

Lemma drag_gesture_is_one_move_witness :
  exists st',
    dragThrough [1; 2; 3; 1]
      (Editor.handleDragStart 0 (editorOf [blockA; blockB; blockC; blockD]))
    = Some st'
    /\ Editor.blocks st' = [blockB; blockA; blockC; blockD].
Proof.
  destruct (@drag_gesture_is_one_move
              (editorOf [blockA; blockB; blockC; blockD]) 0 [1; 2; 3; 1])
    as [st' [Hrun [Hblocks _]]].
  { vm_compute. lia. }
  { repeat constructor; vm_compute; lia. }
  exists st'. split; [exact Hrun|]. rewrite Hblocks. reflexivity.
Defined.

(** ** Editor.tsx: the undo slot of the blocks *)

Lemma deleteBlock_at (st : Editor.State) (i : nat) (b : Block) :
  NoDup (map Block.id (Editor.blocks st)) ->
  nth_error (Editor.blocks st) i = Some b ->
  Editor.deleteBlock (Block.id b) st
  = Editor.setBlocks
      (firstn i (Editor.blocks st) ++ skipn (S i) (Editor.blocks st))
      (Editor.setDeletedBlock (Some (b, i)) st).
Proof.
  intros Hnd Hi.
  destruct (unique_key_lookup Block.id _ _ Hnd Hi) as [Hfind Hfilter].
  unfold Editor.deleteBlock. rewrite Hfind, Hi, Hfilter. reflexivity.
Qed.

(** X17.  The undo slot of the editor holds one block.  After block [a]
    and then block [b] are deleted, the slot holds [b] with the index it
    had when it was deleted; the expiry of the timer that the delete of
    [a] armed leaves the slot alone; a restore puts [b] back where it was
    and not [a], whose id is in the list no more; a second restore does
    nothing.  The ids of the blocks are distinct. *)
Theorem block_undo_slot_holds_last (st : Editor.State) (a b : Block)
  (ia ib : nat) :
  NoDup (map Block.id (Editor.blocks st)) ->
  nth_error (Editor.blocks st) ia = Some a ->
  nth_error (Editor.blocks (Editor.deleteBlock (Block.id a) st)) ib
  = Some b ->
  let twice :=
    Editor.deleteBlock (Block.id b) (Editor.deleteBlock (Block.id a) st) in
  Editor.deletedBlock twice = Some (b, ib)
  /\ Editor.expireDeletedBlock (Block.id a) twice = twice
  /\ Editor.blocks (Editor.restoreBlock twice)
     = Editor.blocks (Editor.deleteBlock (Block.id a) st)
  /\ ~ In (Block.id a) (map Block.id (Editor.blocks (Editor.restoreBlock twice)))
  /\ Editor.restoreBlock (Editor.restoreBlock twice)
     = Editor.restoreBlock twice.
Proof.
  intros Hnd Ha. rewrite (@deleteBlock_at st _ _ Hnd Ha).
  destruct (remove_at_keys Block.id _ _ Hnd Ha) as [Hnd1 Hnot1].
  set (st1 := Editor.setBlocks _ _).
  assert (Hb1 : Editor.blocks st1
                = firstn ia (Editor.blocks st) ++ skipn (S ia) (Editor.blocks st))
    by (destruct st; reflexivity).
  intros Hb twice. subst twice.
  assert (Hnd1' : NoDup (map Block.id (Editor.blocks st1)))
    by (rewrite Hb1; exact Hnd1).
  assert (Hab : streq (Block.id b) (Block.id a) = false).
  { apply streq_neq. intros Heq. apply Hnot1. rewrite <- Heq, <- Hb1.
    apply in_map. eapply nth_error_In, Hb. }
  rewrite (@deleteBlock_at st1 _ _ Hnd1' Hb).
  split; [destruct st1; reflexivity|].
  split.
  { unfold Editor.expireDeletedBlock. destruct st1; simpl. rewrite Hab.
    reflexivity. }
  assert (Hrestored : Editor.blocks
                        (Editor.restoreBlock
                           (Editor.setBlocks
                              (firstn ib (Editor.blocks st1)
                               ++ skipn (S ib) (Editor.blocks st1))
                              (Editor.setDeletedBlock (Some (b, ib)) st1)))
                      = Editor.blocks st1).
  { unfold Editor.restoreBlock. destruct st1; simpl in *.
    apply splice_insert_back, Hb. }
  split; [exact Hrestored|]. split.
  - rewrite Hrestored, Hb1. exact Hnot1.
  - unfold Editor.restoreBlock. destruct st1; reflexivity.
Qed.

Lemma block_undo_slot_holds_last_witness :
  Editor.blocks
    (Editor.restoreBlock
       (Editor.deleteBlock (str "c")
          (Editor.deleteBlock (str "a") (editorOf [blockA; blockB; blockC]))))
  = [blockB; blockC].
Proof.
  assert (Hnd : NoDup (map Block.id
                         (Editor.blocks (editorOf [blockA; blockB; blockC])))).
  { repeat constructor; simpl; intuition discriminate. }
  exact (proj1 (proj2 (proj2
           (@block_undo_slot_holds_last (editorOf [blockA; blockB; blockC])
              blockA blockC 0 1 Hnd eq_refl eq_refl)))).
Defined.

(** ** Editor.tsx: edits of a block's content and drawings *)

(** X18.  Edits of blocks compose.  Of two edits of the content under the
    same id the later one stands; an edit of the content and an edit of
    the drawings can be made in either order, under the same id or not;
    edits of the content under different ids can be made in either order;
    and an edit leaves the ids, the types and the number of the blocks as
    they are. *)
Theorem block_edits_compose (st : Editor.State) (id id' : jsstring)
  (content content' : jsstring) (drawings : list DrawingPath) :
  Editor.updateBlock id content' (Editor.updateBlock id content st)
  = Editor.updateBlock id content' st
  /\ Editor.updateBlock id content
       (Editor.updateBlockDrawings id' drawings st)
     = Editor.updateBlockDrawings id' drawings
         (Editor.updateBlock id content st)
  /\ (id <> id' ->
      Editor.updateBlock id content (Editor.updateBlock id' content' st)
      = Editor.updateBlock id' content' (Editor.updateBlock id content st))
  /\ map Block.id (Editor.blocks (Editor.updateBlock id content st))
     = map Block.id (Editor.blocks st)
  /\ map Block.type (Editor.blocks (Editor.updateBlock id content st))
     = map Block.type (Editor.blocks st)
  /\ map Block.id (Editor.blocks (Editor.updateBlockDrawings id drawings st))
     = map Block.id (Editor.blocks st)
  /\ map Block.type
       (Editor.blocks (Editor.updateBlockDrawings id drawings st))
     = map Block.type (Editor.blocks st).
Proof.
  unfold Editor.updateBlock, Editor.updateBlockDrawings, Editor.setBlocks.
  destruct st as [n th bs ti hi pi db di doi].
  cbn [Editor.blocks Editor.note Editor.currentTheme
       Editor.title Editor.isHidden Editor.isPinned Editor.deletedBlock
       Editor.dragItem Editor.dragOverItem].
  rewrite !map_map.
  assert (Hpick : forall (f g : Block -> Block),
             (forall b, f b = g b) ->
             Editor.mkState n th (map f bs) ti hi pi db di doi
             = Editor.mkState n th (map g bs) ti hi pi db di doi).
  { intros f g H. f_equal. apply map_ext, H. }
  repeat split.
  - apply Hpick. intros b.
    destruct (streq (Block.id b) id) eqn:E; simpl; rewrite ?E; reflexivity.
  - apply Hpick. intros b.
    destruct (streq (Block.id b) id) eqn:E,
             (streq (Block.id b) id') eqn:E'; simpl; rewrite ?E, ?E';
      reflexivity.
  - intros Hne. apply Hpick. intros b.
    destruct (streq (Block.id b) id) eqn:E,
             (streq (Block.id b) id') eqn:E'; simpl; rewrite ?E, ?E';
      try reflexivity.
    apply streq_spec in E, E'. congruence.
  - apply map_ext. intros b. destruct (streq (Block.id b) id); reflexivity.
  - apply map_ext. intros b. destruct (streq (Block.id b) id); reflexivity.
  - apply map_ext. intros b. destruct (streq (Block.id b) id); reflexivity.
  - apply map_ext. intros b. destruct (streq (Block.id b) id); reflexivity.
Qed.

(** ** DrawingCanvas.tsx: a stroke as a whole *)

Lemma draw_all (ps : list Point) (st : DrawingCanvas.State) :
  DrawingCanvas.isDrawing st = true ->
  fold_left (fun st p => DrawingCanvas.draw p st) ps st
  = DrawingCanvas.mkState (DrawingCanvas.paths st) true
      (DrawingCanvas.currentPoints st ++ ps)
      (DrawingCanvas.selectedColor st) (DrawingCanvas.tool st)
      (DrawingCanvas.brushSize st).
Proof.
  revert st. induction ps as [|p ps IH]; intros st H.
  - simpl. rewrite app_nil_r. destruct st; simpl in *. subst. reflexivity.
  - simpl. unfold DrawingCanvas.draw at 2. rewrite H.
    rewrite IH by reflexivity. simpl. rewrite <- app_assoc. reflexivity.
Qed.

Lemma strokeGesture_paths (p0 : Point) (ps : list Point)
  (st : DrawingCanvas.State) :
  strokeGesture p0 ps st
  = DrawingCanvas.mkState
      (match ps with
       | [] => DrawingCanvas.paths st
       | _ :: _ =>
           DrawingCanvas.paths st
           ++ [DrawingPath.mk (p0 :: ps) (inkOf st)
                 (DrawingCanvas.brushSize st)]
       end)
      false [] (DrawingCanvas.selectedColor st) (DrawingCanvas.tool st)
      (DrawingCanvas.brushSize st).
Proof.
  unfold strokeGesture, DrawingCanvas.startDrawing.
  rewrite draw_all by reflexivity.
  unfold DrawingCanvas.stopDrawing, inkOf. simpl.
  destruct ps; reflexivity.
Qed.

(** X19.  A stroke as a whole.  A pointer-down off the buttons, moves
    through the points [ps] and a pointer-up add one path to the list,
    made of the point of the pointer-down and the points of the moves in
    order, under the colour of the ink and the brush size; when there was
    no move the list is as before.  The points a stroke in progress had
    collected before the pointer-down are dropped.  After the pointer-up
    the canvas is idle with an empty buffer, and further moves and
    pointer-ups change nothing. *)
Theorem stroke_gesture_adds_one_path (st : DrawingCanvas.State) (p0 : Point)
  (ps : list Point) :
  let st' := strokeGesture p0 ps st in
  DrawingCanvas.paths st'
  = match ps with
    | [] => DrawingCanvas.paths st
    | _ :: _ =>
        DrawingCanvas.paths st
        ++ [DrawingPath.mk (p0 :: ps) (inkOf st) (DrawingCanvas.brushSize st)]
    end
  /\ DrawingCanvas.isDrawing st' = false
  /\ DrawingCanvas.currentPoints st' = []
  /\ (forall p, DrawingCanvas.draw p st' = st')
  /\ DrawingCanvas.stopDrawing st' = st'.
Proof.
  intros st'. subst st'. rewrite strokeGesture_paths.
  repeat split.
Qed.

(** X20.  The undo button takes back a stroke.  After a stroke with at
    least one move, undo gives the path list from before the stroke; on an
    empty path list undo changes nothing. *)
Theorem undo_takes_back_stroke (st : DrawingCanvas.State) (p0 : Point)
  (ps : list Point) :
  ps <> [] ->
  DrawingCanvas.paths (DrawingCanvas.undo (strokeGesture p0 ps st))
  = DrawingCanvas.paths st
  /\ (DrawingCanvas.paths st = [] ->
      DrawingCanvas.undo st = st
      /\ DrawingCanvas.undo (DrawingCanvas.undo (strokeGesture p0 ps st))
         = DrawingCanvas.undo (strokeGesture p0 ps st)).
Proof.
  intros Hps. rewrite strokeGesture_paths.
  destruct ps as [|p ps]; [congruence|].
  unfold DrawingCanvas.undo. cbn [DrawingCanvas.paths
    DrawingCanvas.isDrawing DrawingCanvas.currentPoints
    DrawingCanvas.selectedColor DrawingCanvas.tool DrawingCanvas.brushSize].
  rewrite removelast_last. split; [reflexivity|].
  intros Hnil. rewrite Hnil. split; [|reflexivity].
  destruct st; simpl in *. subst. reflexivity.
Qed.

Lemma undo_takes_back_stroke_witness :
  DrawingCanvas.paths
    (DrawingCanvas.undo
       (strokeGesture (Point.mk (whole 1) (whole 1))
          [Point.mk (whole 2) (whole 2)] (DrawingCanvas.mount [pathA])))
  = [pathA].
Proof.
  apply (@undo_takes_back_stroke (DrawingCanvas.mount [pathA])
           (Point.mk (whole 1) (whole 1)) [Point.mk (whole 2) (whole 2)]).
  discriminate.
Defined.

(** ** DrawingCanvas.tsx: what the canvas keeps true *)

Lemma Forall_removelast (A : Type) (P : A -> Prop) (l : list A) :
  Forall P l -> Forall P (removelast l).
Proof.
  induction 1 as [|x l Hx Hl IH]; [constructor|].
  simpl. destruct l; [constructor|]. constructor; assumption.
Qed.

(** X21.  Whatever the user does on the canvas, every path in the list can
    be drawn.  If the paths the canvas opens with have two points or more,
    then after any run of events every path in the list has two points or
    more and is one of the opening paths or has the brush size 3; the
    buffer is empty while no stroke is in progress and not empty while one
    is.  So the save button never hands over a path that the renderers
    skip. *)
Theorem canvas_keeps_paths_drawable (initialPaths : list DrawingPath)
  (events : list CanvasEvent) :
  Forall (fun p => renderable p = true) initialPaths ->
  let st := handleEvents events (DrawingCanvas.mount initialPaths) in
  Forall (fun p => renderable p = true) (DrawingCanvas.handleSave st)
  /\ Forall (fun p => In p initialPaths \/ DrawingPath.width p = 3%Z)
       (DrawingCanvas.paths st)
  /\ (DrawingCanvas.isDrawing st = false ->
      DrawingCanvas.currentPoints st = [])
  /\ (DrawingCanvas.isDrawing st = true ->
      DrawingCanvas.currentPoints st <> []).
Proof.
  intros Hinit.
  set (Inv := fun st : DrawingCanvas.State =>
         Forall (fun p => renderable p = true) (DrawingCanvas.paths st)
         /\ Forall (fun p => In p initialPaths \/ DrawingPath.width p = 3%Z)
              (DrawingCanvas.paths st)
         /\ (DrawingCanvas.isDrawing st = false ->
             DrawingCanvas.currentPoints st = [])
         /\ (DrawingCanvas.isDrawing st = true ->
             DrawingCanvas.currentPoints st <> [])
         /\ DrawingCanvas.brushSize st = 3%Z).
  assert (Hstep : forall e st, Inv st -> Inv (handleEvent e st)).
  { intros e st [Hr [Hw [Hidle [Hbusy Hsize]]]].
    destruct e; unfold handleEvent, Inv.
    - unfold DrawingCanvas.startDrawing. destruct onButton.
      + repeat split; assumption.
      + simpl. repeat split; try assumption; discriminate.
    - unfold DrawingCanvas.draw.
      destruct (DrawingCanvas.isDrawing st) eqn:E.
      + simpl. repeat split; try assumption; try discriminate.
        intros _ H. apply app_eq_nil in H. destruct H as [_ H]. discriminate H.
      + repeat split; try assumption; rewrite E; assumption.
    - unfold DrawingCanvas.stopDrawing.
      destruct (DrawingCanvas.isDrawing st) eqn:E.
      + simpl. repeat split; try assumption; try discriminate.
        * destruct (1 <? _) eqn:L; [|assumption].
          apply Forall_app. split; [assumption|].
          constructor; [|constructor].
          unfold renderable. cbn [DrawingPath.points].
          apply Nat.ltb_lt in L. apply Nat.leb_le. lia.
        * destruct (1 <? _); [|assumption].
          apply Forall_app. split; [assumption|].
          constructor; [|constructor]. right. exact Hsize.
      + repeat split; try assumption; rewrite E; assumption.
    - simpl. repeat split; assumption.
    - simpl. repeat split; assumption.
    - simpl. repeat split; assumption.
    - simpl. repeat split; try assumption; apply Forall_removelast;
        assumption. }
  assert (Hrun : forall es st, Inv st -> Inv (handleEvents es st)).
  { induction es as [|e es IH]; intros st H; [exact H|].
    apply IH, Hstep, H. }
  intros st.
  destruct (Hrun events (DrawingCanvas.mount initialPaths))
    as [Hr [Hw [Hidle [Hbusy _]]]].
  { unfold Inv. simpl. repeat split; try assumption; try discriminate.
    apply Forall_forall. intros p Hp. left. exact Hp. }
  repeat split; assumption.
Qed.

Lemma canvas_keeps_paths_drawable_witness :
  Forall (fun p => renderable p = true)
    (DrawingCanvas.handleSave
       (handleEvents
          [pointerDown false (Point.mk (whole 1) (whole 1));
           pointerUp;
           eraserClicked;
           pointerDown false (Point.mk (whole 1) (whole 1));
           pointerMove (Point.mk (whole 2) (whole 2));
           pointerUp]
          (DrawingCanvas.mount [pathA]))).
Proof.
  apply (@canvas_keeps_paths_drawable [pathA]).
  repeat constructor.
Defined.

(** ** BlockRender.tsx: drawing over a media block *)

(** X22.  Drawings that are saved are the drawings the canvas opens with
    next time.  When the canvas of the block at index [i] saves [paths],
    the block at index [i] keeps its id, type, content and size, a canvas
    opened on it starts from [paths] and would save [paths] again, and a
    block with another id is as before.  A block that has no drawings
    field opens an empty canvas. *)
Theorem saved_drawings_are_reopened (ed : Editor.State) (i : nat)
  (block : Block) (paths : list DrawingPath) :
  nth_error (Editor.blocks ed) i = Some block ->
  (exists saved,
      nth_error (Editor.blocks (BlockRender.onSave block paths ed)) i
      = Some saved
      /\ Block.id saved = Block.id block
      /\ Block.type saved = Block.type block
      /\ Block.content saved = Block.content block
      /\ Block.width saved = Block.width block
      /\ Block.height saved = Block.height block
      /\ DrawingCanvas.paths (BlockRender.enterDrawingMode saved) = paths
      /\ DrawingCanvas.handleSave (BlockRender.enterDrawingMode saved)
         = paths)
  /\ (forall j other,
        nth_error (Editor.blocks ed) j = Some other ->
        Block.id other <> Block.id block ->
        nth_error (Editor.blocks (BlockRender.onSave block paths ed)) j
        = Some other)
  /\ List.length (Editor.blocks (BlockRender.onSave block paths ed))
     = List.length (Editor.blocks ed)
  /\ (Block.drawings block = None ->
      DrawingCanvas.paths (BlockRender.enterDrawingMode block) = []).
Proof.
  intros Hi. unfold BlockRender.onSave, Editor.updateBlockDrawings.
  destruct ed as [n th bs ti hi pi db di doi].
  cbn [Editor.setBlocks Editor.blocks] in *.
  split; [|split; [|split]].
  - exists (Block.with_drawings block paths).
    split; [|repeat split].
    rewrite nth_error_map, Hi. simpl. rewrite streq_refl. reflexivity.
  - intros j other Hj Hne. rewrite nth_error_map, Hj. simpl.
    apply streq_neq in Hne. rewrite Hne. reflexivity.
  - apply length_map.
  - intros Hnone. unfold BlockRender.enterDrawingMode,
      BlockRender.initialPaths. rewrite Hnone. reflexivity.
Qed.

Lemma saved_drawings_are_reopened_witness :
  exists saved,
    nth_error
      (Editor.blocks
         (BlockRender.onSave blockB [pathA; pathB]
            (editorOf [blockA; blockB; blockC]))) 1
    = Some saved
    /\ DrawingCanvas.paths (BlockRender.enterDrawingMode saved)
       = [pathA; pathB].
Proof.
  destruct (proj1 (@saved_drawings_are_reopened
                     (editorOf [blockA; blockB; blockC]) 1 blockB
                     [pathA; pathB] eq_refl))
    as [saved [Hs [_ [_ [_ [_ [_ [Hp _]]]]]]]].
  exists saved. split; [exact Hs | exact Hp].
Defined.

Section OverlayReplay.

Variable Pixel : Type.
Variable covers : DrawingCanvas.Context -> list Point -> Pixel -> bool.
Variable isColor : jsstring -> bool.

Lemma overlayPath_cases (p : DrawingPath) (ctx : DrawingCanvas.Context)
  (bm : DrawingCanvas.Bitmap Pixel) :
  BlockRender.overlayPath covers isColor p (ctx, bm)
  = if renderable p
    then (afterStroke (BlockRender.overlayContext isColor p ctx),
          DrawingCanvas.stroke covers
            (BlockRender.overlayContext isColor p ctx)
            (DrawingPath.points p) bm)
    else (ctx, bm).
Proof.
  unfold BlockRender.overlayPath, renderable. simpl.
  destruct (List.length (DrawingPath.points p)) as [|[|n]]; reflexivity.
Qed.

Lemma overlay_fold_strokes (paths : list DrawingPath)
  (ctx : DrawingCanvas.Context) (bm : DrawingCanvas.Bitmap Pixel) :
  snd (fold_left (fun s path => BlockRender.overlayPath covers isColor path s)
         paths (ctx, bm))
  = fold_left (paint covers) (overlayStrokes isColor paths ctx) bm.
Proof.
  revert ctx bm. induction paths as [|p rest IH]; intros ctx bm;
    [reflexivity|].
  simpl. rewrite overlayPath_cases. destruct (renderable p); apply IH.
Qed.

(** The two loops keep the composite operation, the stroke colour and the
    shadow colour of their contexts in step. *)
Lemma overlay_ink_in_step (paths : list DrawingPath)
  (ctx ctx' : DrawingCanvas.Context) :
  DrawingCanvas.globalCompositeOperation ctx
  = DrawingCanvas.globalCompositeOperation ctx' ->
  DrawingCanvas.strokeStyle ctx = DrawingCanvas.strokeStyle ctx' ->
  map inkAndLine (overlayStrokes isColor paths ctx)
  = map inkAndLine (strokes isColor paths ctx').
Proof.
  revert ctx ctx'. induction paths as [|p rest IH]; intros ctx ctx' Hop Hss;
    [reflexivity|].
  simpl. destruct (renderable p); [|apply IH; assumption].
  assert (Hctx :
            DrawingCanvas.globalCompositeOperation
              (BlockRender.overlayContext isColor p ctx)
            = DrawingCanvas.globalCompositeOperation
                (DrawingCanvas.pathContext isColor p ctx')
            /\ DrawingCanvas.strokeStyle
                 (BlockRender.overlayContext isColor p ctx)
               = DrawingCanvas.strokeStyle
                   (DrawingCanvas.pathContext isColor p ctx')).
  { unfold BlockRender.overlayContext, DrawingCanvas.pathContext.
    destruct (streq (DrawingPath.color p) (str "eraser"));
      unfold DrawingCanvas.set_lineWidth, DrawingCanvas.set_shadowColor,
        DrawingCanvas.set_shadowBlur, DrawingCanvas.set_strokeStyle,
        DrawingCanvas.set_globalCompositeOperation;
      repeat match goal with
             | |- context [if ?c then _ else _] => destruct c
             end; simpl; auto. }
  destruct Hctx as [Hop' Hss']. simpl. f_equal.
  - unfold inkAndLine. simpl. rewrite Hop', Hss'. reflexivity.
  - apply IH.
    + reflexivity.
    + unfold afterStroke, DrawingCanvas.set_shadowBlur,
        DrawingCanvas.set_globalCompositeOperation.
      repeat match goal with
             | |- context [if ?c then _ else _] => destruct c
             end; simpl; exact Hss'.
Qed.

(** X23.  The read-only overlay replays the stored paths as the drawing
    canvas does.  The effect runs for an image or video block that has a
    drawings field and is not being drawn on, and only then; it paints
    onto a cleared bitmap; and its strokes are, one for one and in the
    same order, those of the canvas's [renderCanvas] on the same paths as
    far as the composite operation, the stroke colour and the polyline
    go. *)
Theorem overlay_replays_like_canvas (block : Block)
  (s : DrawingCanvas.Context * DrawingCanvas.Bitmap Pixel) :
  (forall isDrawingMode,
      BlockRender.renderDrawings covers isColor block isDrawingMode s
      <> None
      <-> ((Block.type block = image \/ Block.type block = video)
           /\ Block.drawings block <> None /\ isDrawingMode = false))
  /\ (forall r drawings,
        BlockRender.renderDrawings covers isColor block false s = Some r ->
        Block.drawings block = Some drawings ->
        snd r
        = fold_left (paint covers)
            (overlayStrokes isColor drawings (DrawingCanvas.set_round (fst s)))
            (DrawingCanvas.clearRect (Pixel := Pixel))
        /\ map inkAndLine
             (overlayStrokes isColor drawings
                (DrawingCanvas.set_round (fst s)))
           = map inkAndLine
               (strokes isColor drawings (DrawingCanvas.set_round (fst s)))).
Proof.
  split.
  - intros isDrawingMode. unfold BlockRender.renderDrawings.
    destruct (Block.type block), (Block.drawings block), isDrawingMode;
      split; try congruence; try (intros _; intuition congruence);
      try (intros [[H|H] [H' H'']]; congruence).
  - intros r drawings Hr Hd. unfold BlockRender.renderDrawings in Hr.
    rewrite Hd in Hr. split.
    + destruct (Block.type block); try discriminate;
        injection Hr as <-; apply overlay_fold_strokes.
    + apply overlay_ink_in_step; reflexivity.
Qed.

(** X24.  The overlay erases a narrower band than the canvas the strokes
    were drawn on.  For paths of positive width, a pen stroke has the
    path's width in both, while an eraser stroke has twice the path's
    width in the overlay and four times in the drawing canvas. *)
Theorem overlay_erases_narrower (paths : list DrawingPath)
  (ctx ctx' : DrawingCanvas.Context) :
  Forall (fun p => (0 < DrawingPath.width p)%Z) paths ->
  map (fun s => DrawingCanvas.lineWidth (fst s))
    (overlayStrokes isColor paths ctx)
  = map (fun p => if erasing p then (DrawingPath.width p * 2)%Z
                  else DrawingPath.width p)
      (filter renderable paths)
  /\ map (fun s => DrawingCanvas.lineWidth (fst s))
       (strokes isColor paths ctx')
     = map (fun p => if erasing p then (DrawingPath.width p * 4)%Z
                     else DrawingPath.width p)
         (filter renderable paths).
Proof.
  intros Hw. split.
  - revert ctx. induction Hw as [|p rest Hp Hrest IH]; intros ctx;
      [reflexivity|].
    simpl. destruct (renderable p); [|apply IH].
    simpl. f_equal; [|apply IH].
    unfold BlockRender.overlayContext, erasing.
    destruct (streq (DrawingPath.color p) (str "eraser"));
      unfold DrawingCanvas.set_lineWidth, DrawingCanvas.set_shadowColor,
        DrawingCanvas.set_shadowBlur, DrawingCanvas.set_strokeStyle.
    + replace (0 <? DrawingPath.width p * 2)%Z with true
        by (symmetry; apply Z.ltb_lt; lia).
      reflexivity.
    + replace (0 <? DrawingPath.width p)%Z with true
        by (symmetry; apply Z.ltb_lt; lia).
      simpl. destruct (isColor (DrawingPath.color p)); reflexivity.
  - revert ctx'. induction Hw as [|p rest Hp Hrest IH]; intros ctx';
      [reflexivity|].
    simpl. destruct (renderable p); [|apply IH].
    simpl. f_equal; [|apply IH].
    unfold DrawingCanvas.pathContext, erasing.
    destruct (streq (DrawingPath.color p) (str "eraser"));
      unfold DrawingCanvas.set_lineWidth, DrawingCanvas.set_shadowColor,
        DrawingCanvas.set_shadowBlur, DrawingCanvas.set_strokeStyle.
    + replace (0 <? DrawingPath.width p * 4)%Z with true
        by (symmetry; apply Z.ltb_lt; lia).
      reflexivity.
    + replace (0 <? DrawingPath.width p)%Z with true
        by (symmetry; apply Z.ltb_lt; lia).
      reflexivity.
Qed.

End OverlayReplay.

Lemma overlay_replays_like_canvas_witness :
  exists r,
    BlockRender.renderDrawings vertexCovers hashColor
      (Block.with_drawings blockB [pathA; tapPath; pathB]) false
      (blankContext, fun _ => Some (str "#123456"))
    = Some r
    /\ map inkAndLine
         (overlayStrokes hashColor [pathA; tapPath; pathB]
            (DrawingCanvas.set_round blankContext))
       = [(DrawingCanvas.source_over, str "#22d3ee",
           DrawingPath.points pathA);
          (DrawingCanvas.destination_out, str "#22d3ee",
           DrawingPath.points pathB)].
Proof.
  eexists. split; [reflexivity|].
  etransitivity; [|reflexivity].
  exact (proj2 (proj2 (@overlay_replays_like_canvas Point vertexCovers
                         hashColor
                         (Block.with_drawings blockB [pathA; tapPath; pathB])
                         (blankContext, fun _ => Some (str "#123456")))
                  _ [pathA; tapPath; pathB] eq_refl eq_refl)).
Defined.

Lemma overlay_erases_narrower_witness :
  map (fun s => DrawingCanvas.lineWidth (fst s))
    (overlayStrokes hashColor [pathA; pathB] blankContext)
  = [3; 6]%Z
  /\ map (fun s => DrawingCanvas.lineWidth (fst s))
       (strokes hashColor [pathA; pathB] blankContext)
     = [3; 12]%Z.
Proof.
  apply (@overlay_erases_narrower hashColor [pathA; pathB] blankContext
           blankContext).
  repeat constructor.
Defined.

(** ** utils.ts: the preview line of a note card *)

(** X25.  The preview line of a card is never blank and never longer than
    63 code units.  It is the placeholder when no text block has content
    other than white space; otherwise it is made from the first such text
    block: its content when that has at most 60 code units, and its first
    60 code units followed by three dots when it has more. *)
Theorem getPreviewText_never_blank (blocks : list Block) :
  let preview := Utils.getPreviewText blocks in
  ~ blank preview
  /\ List.length preview <= 63
  /\ ((forall b, In b blocks -> Block.type b = text ->
         blank (Block.content b)) ->
      preview = str "New Frame")
  /\ (forall pre b post,
        blocks = pre ++ b :: post ->
        (forall a, In a pre -> Block.type a = text ->
           blank (Block.content a)) ->
        Block.type b = text -> ~ blank (Block.content b) ->
        preview
        = if 60 <? List.length (Block.content b)
          then firstn 60 (Block.content b) ++ str "..."
          else Block.content b).
Proof.
  intros preview. subst preview.
  set (p := fun b : Block =>
         BlockType_eqb (Block.type b) text
         && (0 <? List.length (trim (Block.content b)))).
  assert (Hp : forall b, p b = true
                         <-> Block.type b = text /\ ~ blank (Block.content b)).
  { intros b. unfold p. rewrite andb_true_iff.
    assert (H1 : BlockType_eqb (Block.type b) text = true
                 <-> Block.type b = text)
      by (destruct (Block.type b); simpl; split; congruence).
    assert (H2 : (0 <? List.length (trim (Block.content b))) = true
                 <-> ~ blank (Block.content b)).
    { rewrite <- trim_blank.
      destruct (trim (Block.content b)); simpl; split; try discriminate.
      - intros H. elim H. reflexivity.
      - reflexivity. }
    rewrite H1, H2. reflexivity. }
  assert (Hdot : forall s : jsstring, ~ blank (s ++ str "...")).
  { intros s H.
    assert (Hin : In 46%N (s ++ str "..."))
      by (apply in_or_app; right; left; reflexivity).
    apply H in Hin. discriminate Hin. }
  assert (Hshape : forall b,
             firstn 60 (Block.content b)
             ++ (if 60 <? List.length (Block.content b)
                 then str "..." else [])
             = if 60 <? List.length (Block.content b)
               then firstn 60 (Block.content b) ++ str "..."
               else Block.content b).
  { intros b. destruct (60 <? _) eqn:L; [reflexivity|].
    apply Nat.ltb_ge in L. rewrite firstn_all2 by exact L.
    apply app_nil_r. }
  unfold Utils.getPreviewText. fold p.
  split; [|split; [|split]].
  - destruct (find p blocks) as [b|] eqn:Hfind.
    + apply find_some in Hfind. destruct Hfind as [_ Hb].
      apply Hp in Hb. destruct Hb as [_ Hb].
      rewrite Hshape. destruct (60 <? _); [apply Hdot | exact Hb].
    + intros H.
      assert (Hin : In 78%N (str "New Frame")) by (left; reflexivity).
      apply H in Hin. discriminate Hin.
  - destruct (find p blocks) as [b|]; [|vm_compute; lia].
    rewrite length_app, length_firstn.
    destruct (60 <? _);
      [change (List.length (str "...")) with 3
      |change (List.length (@nil N)) with 0]; lia.
  - intros Hall. destruct (find p blocks) as [b|] eqn:Hfind; [|reflexivity].
    apply find_some in Hfind. destruct Hfind as [Hin Hb].
    apply Hp in Hb. destruct Hb as [Ht Hb]. elim Hb. apply Hall; assumption.
  - intros pre b post -> Hpre Ht Hb.
    assert (Hfind : find p (pre ++ b :: post) = Some b).
    { induction pre as [|a pre IH]; simpl.
      - replace (p b) with true by (symmetry; apply Hp; auto). reflexivity.
      - destruct (p a) eqn:Ha.
        + apply Hp in Ha. destruct Ha as [Hta Hba]. elim Hba.
          apply Hpre; [left; reflexivity | exact Hta].
        + apply IH. intros c Hc. apply Hpre. right. exact Hc. }
    rewrite Hfind. apply Hshape.
Qed.
